(** * A shallow embedding of the custom shell: job table, lexer, parser, executor

    The development follows the C sources module by module:
    - [Jobs]     : jobs.c   (the bounded job table and its counters);
    - [Parser]   : parser.c (tokenize, parse_command, parse_pipeline) and the
                   dispatch of shell.c between the two parsers;
    - [Executor] : executor.c (the shell-process side of execute_command and
                   execute_pipeline, system calls answered by an oracle);
    - [History]  : history.c (the ring of command lines);
    - [JobListing], [Signals], [Builtins] : get_all_jobs of jobs.c, the
                   SIGCHLD handler of signals.c, and from builtins.c the
                   builtins of job control and of the history together with
                   the dispatch of execute_builtin;
    - [Syntax], [Lexing], [ExecutorNotions] : the notions in which the
                   statements about whole lines, pipelines and the paths of
                   the executor are written.

    C [int]s are integers of [Z]; signed overflow and a write past the end of
    an array are undefined behaviour in C and are modelled as the failure
    [None] of the [option] monad. *)

From Stdlib Require Import ZArith String Ascii List Lia Bool Sorted.
From stdpp Require Import base tactics option list numbers strings.
Import ListNotations.

Local Open Scope Z_scope.

(** ** Constants of utils.h *)

Definition MAX_INPUT_SIZE : nat := 4096.
Definition MAX_ARGS : nat := 64.
Definition MAX_TOKENS : nat := 128.
Definition MAX_JOBS : nat := 100.

(** ** C integers *)

Definition INT_MAX : Z := 2147483647.
Definition INT_MIN : Z := -2147483648.

(** [x++] and [x--] on an [int]: undefined at the end of the range. *)
Definition int_incr (x : Z) : option Z :=
  if decide (x < INT_MAX) then Some (x + 1) else None.

Definition int_decr (x : Z) : option Z :=
  if decide (INT_MIN < x) then Some (x - 1) else None.

(** ** jobs.c *)

Module Jobs.

Inductive JobStatus := JOB_RUNNING | JOB_STOPPED | JOB_DONE.

#[global] Instance JobStatus_eq_dec : EqDecision JobStatus.
Proof. solve_decision. Defined.

(** [command] is a [char *]: [None] is the NULL pointer. *)
Record Job := mkJob {
  job_id : Z;
  pgid : Z;
  command : option string;
  status : JobStatus
}.

(** The three statics of jobs.c. *)
Record job_state := mkJobState {
  job_table : list Job;
  next_job_id : Z;
  num_jobs : Z
}.

(** What [init_jobs] and [remove_job] write into a slot. *)
Definition empty_slot : Job :=
  {| job_id := 0; pgid := 0; command := None; status := JOB_DONE |}.

Definition init_jobs : job_state :=
  {| job_table := replicate MAX_JOBS empty_slot;
     next_job_id := 1;
     num_jobs := 0 |}.

(** [for (i = 0; i < MAX_JOBS; i++) if (P job_table[i]) { ...; break/return }]:
    the first index below MAX_JOBS whose slot satisfies [P]. *)
Definition first_slot (P : Job → Prop) `{∀ j, Decision (P j)}
    (tbl : list Job) : option nat :=
  fst <$> list_find P (take MAX_JOBS tbl).

(** [add_job]; [strdup_ok] says whether [strdup(command)] returns a string.
    The result is the returned int and the new statics. *)
Definition add_job (pg : Z) (cmd : string) (st : JobStatus) (strdup_ok : bool)
    (s : job_state) : option (Z * job_state) :=
  if decide (Z.of_nat MAX_JOBS ≤ num_jobs s) then Some (-1, s)
  else
    match first_slot (λ j, job_id j = 0) (job_table s) with
    | None => Some (-1, s)
    | Some slot =>
        let id := next_job_id s in
        next' ← int_incr (next_job_id s);
        if strdup_ok then
          num' ← int_incr (num_jobs s);
          Some (id,
                {| job_table :=
                     <[slot := {| job_id := id; pgid := pg;
                                  command := Some cmd; status := st |}]>
                       (job_table s);
                   next_job_id := next';
                   num_jobs := num' |})
        else
          Some (-1,
                {| job_table :=
                     alter (λ j, {| job_id := id; pgid := pg;
                                    command := None; status := status j |})
                       slot (job_table s);
                   next_job_id := next';
                   num_jobs := num_jobs s |})
    end.

Definition remove_job (id : Z) (s : job_state) : option job_state :=
  match first_slot (λ j, job_id j = id) (job_table s) with
  | Some i =>
      num' ← int_decr (num_jobs s);
      Some {| job_table := <[i := empty_slot]> (job_table s);
              next_job_id := next_job_id s;
              num_jobs := num' |}
  | None => Some s
  end.

Definition find_job (id : Z) (s : job_state) : option nat :=
  first_slot (λ j, job_id j = id) (job_table s).

Definition find_job_by_pgid (pg : Z) (s : job_state) : option nat :=
  first_slot (λ j, job_id j ≠ 0 ∧ pgid j = pg) (job_table s).

Definition set_status (st : JobStatus) (j : Job) : Job :=
  {| job_id := job_id j; pgid := pgid j; command := command j; status := st |}.

Definition update_job_status (id : Z) (st : JobStatus) (s : job_state)
    : job_state :=
  match find_job id s with
  | Some i => {| job_table := alter (set_status st) i (job_table s);
                 next_job_id := next_job_id s;
                 num_jobs := num_jobs s |}
  | None => s
  end.

Definition update_job_status_by_pgid (pg : Z) (st : JobStatus) (s : job_state)
    : job_state :=
  match find_job_by_pgid pg s with
  | Some i => {| job_table := alter (set_status st) i (job_table s);
                 next_job_id := next_job_id s;
                 num_jobs := num_jobs s |}
  | None => s
  end.

(** The body of the loop of [cleanup_jobs] on one slot. *)
Definition purged (j : Job) : Job :=
  {| job_id := 0; pgid := 0; command := None; status := status j |}.

Definition is_done (j : Job) : bool :=
  bool_decide (job_id j ≠ 0) && bool_decide (status j = JOB_DONE).

Fixpoint cleanup_loop (tbl : list Job) (n : Z) : option (list Job * Z) :=
  match tbl with
  | [] => Some ([], n)
  | j :: rest =>
      if is_done j then
        n' ← int_decr n;
        '(rest', n'') ← cleanup_loop rest n';
        Some (purged j :: rest', n'')
      else
        '(rest', n'') ← cleanup_loop rest n;
        Some (j :: rest', n'')
  end.

Definition cleanup_jobs (s : job_state) : option job_state :=
  '(tbl, n) ← cleanup_loop (take MAX_JOBS (job_table s)) (num_jobs s);
  Some {| job_table := tbl ++ drop MAX_JOBS (job_table s);
          next_job_id := next_job_id s;
          num_jobs := n |}.

Definition get_next_job_id (s : job_state) : Z := next_job_id s.

(** *** Sessions: sequences of calls on the job table *)

Inductive job_op :=
| OpAdd (pg : Z) (cmd : string) (st : JobStatus) (strdup_ok : bool)
| OpRemove (id : Z)
| OpCleanup
| OpUpdate (id : Z) (st : JobStatus)
| OpUpdatePgid (pg : Z) (st : JobStatus).

(** One call; the second component is what [add_job] returned, if it was
    an [add_job]. *)
Definition run_op (o : job_op) (s : job_state)
    : option (option Z * job_state) :=
  match o with
  | OpAdd pg cmd st ok => '(r, s') ← add_job pg cmd st ok s; Some (Some r, s')
  | OpRemove id => s' ← remove_job id s; Some (None, s')
  | OpCleanup => s' ← cleanup_jobs s; Some (None, s')
  | OpUpdate id st => Some (None, update_job_status id st s)
  | OpUpdatePgid pg st => Some (None, update_job_status_by_pgid pg st s)
  end.

(** A session: the values returned by its [add_job] calls, in order, and the
    final statics. *)
Fixpoint run_ops (ops : list job_op) (s : job_state)
    : option (list Z * job_state) :=
  match ops with
  | [] => Some ([], s)
  | o :: ops' =>
      '(r, s') ← run_op o s;
      '(rs, s'') ← run_ops ops' s';
      Some (match r with Some v => v :: rs | None => rs end, s'')
  end.

(** The job IDs handed out: the return values other than the failure -1. *)
Definition returned_ids (rets : list Z) : list Z :=
  filter (λ r, r ≠ -1) rets.

(** Number of slots in use. *)
Definition used_slots (s : job_state) : nat :=
  length (filter (λ j, job_id j ≠ 0) (job_table s)).

(** *** Notions used in the statements about the job table *)

(** A slot holds a job when its job_id is not 0. *)
Definition in_use (j : Job) : Prop := job_id j ≠ 0.

#[export] Instance in_use_dec j : Decision (in_use j).
Proof. unfold in_use. apply _. Defined.

(** The statics as C has them: the table is an array of MAX_JOBS slots and
    the ID counter, which starts at 1 and only grows, is positive. *)
Definition table_ok (s : job_state) : Prop :=
  length (job_table s) = MAX_JOBS ∧ 1 ≤ next_job_id s.

(** The counter num_jobs equals the number of slots whose job_id is not 0. *)
Definition counted (s : job_state) : Prop :=
  num_jobs s = Z.of_nat (used_slots s).

(** Every ID stored in the table is below the counter. *)
Definition ids_below (s : job_state) : Prop :=
  Forall (λ j, job_id j < next_job_id s) (job_table s).

(** A number of calls within which no counter can leave the range of
    [int]: a call advances the ID counter by at most one and lowers num_jobs
    by at most MAX_JOBS. *)
Definition session_bound : Z := 20000000.

(** The statics after at most [k] calls. *)
Definition bounded (k : Z) (s : job_state) : Prop :=
  length (job_table s) = MAX_JOBS ∧
  1 ≤ next_job_id s ≤ 1 + k ∧
  -100 * k ≤ num_jobs s.

(** The statics after [add_job(4001, "sleep 10", JOB_DONE)] on those of
    init_jobs, and a session, to exercise the statements. *)
Definition one_job_table : job_state :=
  {| job_table :=
       <[0%nat := {| job_id := 1; pgid := 4001;
                     command := Some "sleep 10"%string;
                     status := JOB_DONE |}]>
         (replicate MAX_JOBS empty_slot);
     next_job_id := 2;
     num_jobs := 1 |}.

Definition sample_session : list job_op :=
  [OpAdd 4001 "sleep 10" JOB_RUNNING true;
   OpAdd 4002 "cat" JOB_DONE true;
   OpRemove 1;
   OpCleanup;
   OpAdd 4003 "ls" JOB_RUNNING false;
   OpAdd 4004 "wc -l" JOB_STOPPED true]%string.

End Jobs.

(** ** parser.c *)

Module Parser.

Local Open Scope char_scope.

(** *** C strings and <ctype.h> in the C locale *)

Definition NUL : ascii := "000".
Definition dquote : ascii := ascii_of_nat 34.

(** The bytes of a C string: what precedes the first NUL. *)
Fixpoint until_nul (l : list ascii) : list ascii :=
  match l with
  | [] => []
  | c :: l' => if (c =? NUL) then [] else c :: until_nul l'
  end.

Definition c_str (s : string) : list ascii :=
  until_nul (list_ascii_of_string s).

(** [strdup] of a byte buffer: the copy stops at the first NUL. *)
Definition strdup (buf : list ascii) : string :=
  string_of_list_ascii (until_nul buf).

Definition in_range (lo hi : nat) (c : ascii) : bool :=
  ((lo <=? nat_of_ascii c) && (nat_of_ascii c <=? hi))%nat.

Definition isspace (c : ascii) : bool :=
  (c =? " ") || in_range 9 13 c.

Definition isalnum (c : ascii) : bool :=
  in_range 48 57 c || in_range 65 90 c || in_range 97 122 c.

Definition is_name_char (c : ascii) : bool :=
  isalnum c || (c =? "_").

(** *** process_escape *)

Definition process_escape (c : ascii) : ascii :=
  if c =? "n" then "010"
  else if c =? "t" then "009"
  else if c =? "r" then "013"
  else if c =? "\" then "\"
  else if c =? dquote then dquote
  else if c =? "'" then "'"
  else if c =? "0" then NUL
  else c.

(** *** expand_variable

    The process environment is [getenv]: a name to the value, if set. *)
Definition environment := string → option string.

Definition expand_variable (env : environment) (var_name : list ascii)
    : option (list ascii) :=
  match var_name with
  | [] => None
  | _ => c_str <$> env (string_of_list_ascii var_name)
  end.

(** *** tokenize *)

Inductive lex_state :=
| STATE_NORMAL | STATE_SINGLE_QUOTE | STATE_DOUBLE_QUOTE | STATE_ESCAPE.

(** The locals of [tokenize]: the tokens stored so far (token_count is their
    number), the MAX_INPUT_SIZE bytes of token_buf, token_buf_pos, state. *)
Record lexer := mkLexer {
  tokens : list string;
  token_buf : list ascii;
  token_buf_pos : nat;
  state : lex_state
}.

(** [if (token_buf_pos < MAX_INPUT_SIZE - 1) token_buf[token_buf_pos++] = c;] *)
Definition put_char (c : ascii) (lx : lexer) : lexer :=
  if (token_buf_pos lx <? MAX_INPUT_SIZE - 1)%nat then
    {| tokens := tokens lx;
       token_buf := <[token_buf_pos lx := c]> (token_buf lx);
       token_buf_pos := S (token_buf_pos lx);
       state := state lx |}
  else lx.

(** The copy loop of a variable's value into token_buf. *)
Fixpoint put_chars (v : list ascii) (lx : lexer) : lexer :=
  match v with
  | [] => lx
  | c :: v' =>
      if (token_buf_pos lx <? MAX_INPUT_SIZE - 1)%nat
      then put_chars v' (put_char c lx)
      else lx
  end.

Definition set_state (st : lex_state) (lx : lexer) : lexer :=
  {| tokens := tokens lx; token_buf := token_buf lx;
     token_buf_pos := token_buf_pos lx; state := st |}.

(** [token_buf[token_buf_pos] = 0; tokens[token_count++] = strdup(token_buf);
    token_buf_pos = 0;] *)
Definition commit_token (lx : lexer) : lexer :=
  {| tokens := tokens lx
               ++ [strdup (<[token_buf_pos lx := NUL]> (token_buf lx))];
     token_buf := <[token_buf_pos lx := NUL]> (token_buf lx);
     token_buf_pos := 0;
     state := state lx |}.

Fixpoint skip_space (p : list ascii) : list ascii :=
  match p with
  | c :: p' => if isspace c then skip_space p' else p
  | [] => []
  end.

(** The name loop of [${NAME}]: stops at the end, at [}], at a character that
    is not of a name, or when var_name holds 255 characters. *)
Fixpoint scan_braced (p var_name : list ascii) : list ascii * list ascii :=
  match p with
  | c :: p' =>
      if negb (c =? "}") && (length var_name <? 255)%nat && is_name_char c
      then scan_braced p' (var_name ++ [c])
      else (var_name, p)
  | [] => (var_name, [])
  end.

(** The name loop of [$NAME]. *)
Fixpoint scan_plain (p var_name : list ascii) : list ascii * list ascii :=
  match p with
  | c :: p' =>
      if is_name_char c && (length var_name <? 255)%nat
      then scan_plain p' (var_name ++ [c])
      else (var_name, p)
  | [] => (var_name, [])
  end.

(** After the [$] has been skipped: the name and the rest of the input. *)
Definition scan_variable (p : list ascii) : list ascii * list ascii :=
  match p with
  | "{" :: p' =>
      let '(name, q) := scan_braced p' [] in
      match q with
      | "}" :: q' => (name, q')
      | _ => (name, q)
      end
  | _ => scan_plain p []
  end.

(** [$] starts an expansion when followed by a name character or [{]. *)
Definition starts_variable (c : ascii) (p' : list ascii) : bool :=
  (c =? "$") &&
  match p' with
  | c1 :: _ => is_name_char c1 || (c1 =? "{")
  | [] => false
  end.

Definition expand_into (env : environment) (p' : list ascii) (lx : lexer)
    : list ascii * lexer :=
  let '(name, q) := scan_variable p' in
  match expand_variable env name with
  | Some v => (q, put_chars v lx)
  | None => (q, lx)
  end.

(** One turn of the [switch] of the main loop, at character [c] followed by
    [p']: the new position and locals. *)
Definition lex_step (env : environment) (c : ascii) (p' : list ascii)
    (lx : lexer) : list ascii * lexer :=
  match state lx with
  | STATE_NORMAL =>
      if isspace c then
        (skip_space p',
         if (0 <? token_buf_pos lx)%nat then commit_token lx else lx)
      else if c =? "'" then (p', set_state STATE_SINGLE_QUOTE lx)
      else if c =? dquote then (p', set_state STATE_DOUBLE_QUOTE lx)
      else if starts_variable c p' then expand_into env p' lx
      else if c =? "\" then (p', put_char c lx)
      else (p', put_char c lx)
  | STATE_SINGLE_QUOTE =>
      if c =? "'" then (p', set_state STATE_NORMAL lx)
      else (p', put_char c lx)
  | STATE_DOUBLE_QUOTE =>
      if c =? "\" then (p', set_state STATE_ESCAPE lx)
      else if starts_variable c p' then expand_into env p' lx
      else if c =? dquote then (p', set_state STATE_NORMAL lx)
      else (p', put_char c lx)
  | STATE_ESCAPE =>
      (p', set_state STATE_DOUBLE_QUOTE (put_char (process_escape c) lx))
  end.

(** [while (p[0] != 0 && token_count < MAX_TOKENS - 1) switch ...]; every turn
    consumes a character, so [fuel] beyond the length of [p] is never used up;
    [None] is the loop cut short by lack of fuel. *)
Fixpoint lex_loop (fuel : nat) (env : environment) (p : list ascii)
    (lx : lexer) : option lexer :=
  match fuel with
  | O => None
  | S fuel' =>
      match p with
      | [] => Some lx
      | c :: p' =>
          if (length (tokens lx) <? MAX_TOKENS - 1)%nat then
            let '(q, lx') := lex_step env c p' lx in
            lex_loop fuel' env q lx'
          else Some lx
      end
  end.

Inductive lex_error := UnterminatedSingle | UnterminatedDouble.

(** What [tokenize] hands back: the returned int, the array stored
    through [tokens] ([None] is NULL) and the diagnostic written to stderr. *)
Record tokenize_result := mkTokenized {
  tk_return : Z;
  tk_tokens : option (list string);
  tk_stderr : option lex_error
}.

Definition finish (lx : lexer) : tokenize_result :=
  match state lx with
  | STATE_SINGLE_QUOTE =>
      {| tk_return := -1; tk_tokens := None;
         tk_stderr := Some UnterminatedSingle |}
  | STATE_DOUBLE_QUOTE | STATE_ESCAPE =>
      {| tk_return := -1; tk_tokens := None;
         tk_stderr := Some UnterminatedDouble |}
  | STATE_NORMAL =>
      let lx' := if (0 <? token_buf_pos lx)%nat then commit_token lx else lx in
      {| tk_return := Z.of_nat (length (tokens lx'));
         tk_tokens := Some (tokens lx');
         tk_stderr := None |}
  end.

(** [tokenize]: [heap] is the content of the block [malloc(MAX_INPUT_SIZE)]
    returns for token_buf, which C leaves unspecified; allocation itself is
    taken to succeed. *)
Definition tokenize (env : environment) (heap : list ascii) (input : string)
    : option tokenize_result :=
  let p := skip_space (c_str input) in
  match p with
  | [] => Some {| tk_return := 0; tk_tokens := None; tk_stderr := None |}
  | _ =>
      finish <$>
        lex_loop (S (length p)) env p
          {| tokens := []; token_buf := heap; token_buf_pos := 0;
             state := STATE_NORMAL |}
  end.

(** *** parse_command *)

Local Open Scope string_scope.

(** [argv] is a [char **]: [None] is the NULL pointer, [Some l] the
    NULL-terminated array holding [l]. *)
Record Command := mkCommand {
  argv : option (list string);
  input_file : option string;
  output_file : option string;
  append_mode : Z;
  background : Z
}.

(** What the parsers print on stderr before returning -1. *)
Inductive parse_diag :=
| UnexpectedToken (tok : string)
| MultipleInput
| MultipleOutput
| AmpNotAtEnd.

Definition diag_message (d : parse_diag) : string :=
  match d with
  | UnexpectedToken tok =>
      "myshell: syntax error near unexpected token '" ++ tok ++ "'"
  | MultipleInput => "myshell: syntax error: multiple input redirections"
  | MultipleOutput => "myshell: syntax error: multiple output redirections"
  | AmpNotAtEnd => "myshell: syntax error: & must be at end of command"
  end.

(** A parser returns 0 and fills its result, or returns -1 after printing a
    diagnostic ([None]: nothing printed). *)
Inductive parse_result (A : Type) :=
| Parsed (a : A)
| Rejected (d : option parse_diag).
Arguments Parsed {A} a.
Arguments Rejected {A} d.

Definition parse_return {A} (r : parse_result A) : Z :=
  match r with Parsed _ => 0 | Rejected _ => -1 end.

(** The locals of the loop of [parse_command]: argv[0..argc-1] and the
    fields of [cmd] set so far. *)
Record cmd_acc := mkAcc {
  acc_argv : list string;
  acc_input : option string;
  acc_output : option string;
  acc_append : Z;
  acc_background : Z
}.

Definition acc_init : cmd_acc :=
  {| acc_argv := []; acc_input := None; acc_output := None;
     acc_append := 0; acc_background := 0 |}.

Definition acc_command (a : cmd_acc) : Command :=
  {| argv := Some (acc_argv a); input_file := acc_input a;
     output_file := acc_output a; append_mode := acc_append a;
     background := acc_background a |}.

(** [while (tokens[i] != NULL && argc < MAX_ARGS - 1)] with its four
    operator branches; the argument is the array from index [i] on. *)
Fixpoint parse_command_loop (toks : list string) (a : cmd_acc)
    : parse_result Command :=
  match toks with
  | [] => Parsed (acc_command a)
  | t :: rest =>
      if (length (acc_argv a) <? MAX_ARGS - 1)%nat then
        if t =? "<" then
          match rest with
          | [] => Rejected (Some (UnexpectedToken "<"))
          | f :: rest' =>
              match acc_input a with
              | Some _ => Rejected (Some MultipleInput)
              | None =>
                  parse_command_loop rest'
                    {| acc_argv := acc_argv a; acc_input := Some f;
                       acc_output := acc_output a;
                       acc_append := acc_append a;
                       acc_background := acc_background a |}
              end
          end
        else if t =? ">" then
          match rest with
          | [] => Rejected (Some (UnexpectedToken ">"))
          | f :: rest' =>
              match acc_output a with
              | Some _ => Rejected (Some MultipleOutput)
              | None =>
                  parse_command_loop rest'
                    {| acc_argv := acc_argv a; acc_input := acc_input a;
                       acc_output := Some f; acc_append := 0;
                       acc_background := acc_background a |}
              end
          end
        else if t =? ">>" then
          match rest with
          | [] => Rejected (Some (UnexpectedToken ">>"))
          | f :: rest' =>
              match acc_output a with
              | Some _ => Rejected (Some MultipleOutput)
              | None =>
                  parse_command_loop rest'
                    {| acc_argv := acc_argv a; acc_input := acc_input a;
                       acc_output := Some f; acc_append := 1;
                       acc_background := acc_background a |}
              end
          end
        else if t =? "&" then
          match rest with
          | _ :: _ => Rejected (Some AmpNotAtEnd)
          | [] =>
              Parsed (acc_command
                        {| acc_argv := acc_argv a; acc_input := acc_input a;
                           acc_output := acc_output a;
                           acc_append := acc_append a;
                           acc_background := 1 |})
          end
        else
          parse_command_loop rest
            {| acc_argv := acc_argv a ++ [t]; acc_input := acc_input a;
               acc_output := acc_output a; acc_append := acc_append a;
               acc_background := acc_background a |}
      else Parsed (acc_command a)
  end.

Definition parse_command (toks : list string) : parse_result Command :=
  match toks with
  | [] => Rejected None
  | _ => parse_command_loop toks acc_init
  end.

(** *** parse_pipeline *)

Record Pipeline := mkPipeline {
  commands : list Command;
  num_commands : Z;
  pl_background : Z
}.

(** The first loop: the number of [|] tokens. *)
Definition pipe_count (toks : list string) : Z :=
  Z.of_nat (length (filter (λ t, t = "|") toks)).

(** [last_token_idx >= 0 && strcmp(tokens[last_token_idx], "&") == 0] *)
Definition has_background (toks : list string) : Z :=
  match last toks with
  | Some t => if t =? "&" then 1 else 0
  | None => 0
  end.

(** The splitting loop: [seg] is tokens[token_start..i-1], [cmds] is
    commands[0..cmd_index-1]; it ends with the tokens after the last [|]. *)
Fixpoint split_loop (toks seg : list string) (cmds : list Command)
    : parse_result (list Command * list string) :=
  match toks with
  | [] => Parsed (cmds, seg)
  | t :: rest =>
      if t =? "|" then
        match seg with
        | [] => Rejected (Some (UnexpectedToken "|"))
        | _ =>
            match parse_command seg with
            | Rejected d => Rejected d
            | Parsed c => split_loop rest [] (cmds ++ [c])
            end
        end
      else split_loop rest (seg ++ [t]) cmds
  end.

(** The tokens copied for the last command: all the remaining ones, but the
    final [&] when [has_background] is set. *)
Definition last_segment (bg : Z) (remaining : list string) : list string :=
  match last remaining with
  | Some t =>
      if (bg =? 1)%Z && (t =? "&")
      then take (length remaining - 1) remaining
      else remaining
  | None => remaining
  end.

Definition parse_pipeline (toks : list string) : parse_result Pipeline :=
  let bg := has_background toks in
  let n := (pipe_count toks + 1)%Z in
  if (n =? 0)%Z then Rejected None
  else
    match split_loop toks [] [] with
    | Rejected d => Rejected d
    | Parsed (cmds, remaining) =>
        match remaining with
        | [] => Rejected (Some (UnexpectedToken "|"))
        | _ =>
            match parse_command (last_segment bg remaining) with
            | Rejected d => Rejected d
            | Parsed c =>
                Parsed {| commands := cmds ++ [c];
                          num_commands := n;
                          pl_background := bg |}
            end
        end
    end.

(** *** The dispatch of shell.c

    [main] hands a non-empty token array to [parse_pipeline] when one of the
    tokens is spelled [|], to [parse_command] otherwise. *)
Inductive parsed_line :=
| LinePipeline (p : Pipeline)
| LineCommand (c : Command).

Definition has_pipe (toks : list string) : bool :=
  existsb (λ t, t =? "|") toks.

Definition shell_parse (toks : list string) : parse_result parsed_line :=
  if has_pipe toks then
    match parse_pipeline toks with
    | Parsed p => Parsed (LinePipeline p)
    | Rejected d => Rejected d
    end
  else
    match parse_command toks with
    | Parsed c => Parsed (LineCommand c)
    | Rejected d => Rejected d
    end.

(** What one turn of the REPL does with a line up to execution. *)
Inductive line_outcome :=
| LineOutOfFuel
| LineLexError
| LineEmpty
| LineParseError (d : option parse_diag)
| LineParsed (l : parsed_line).

Definition read_line (env : environment) (heap : list ascii) (input : string)
    : line_outcome :=
  match tokenize env heap input with
  | None => LineOutOfFuel
  | Some r =>
      if (tk_return r <? 0)%Z then LineLexError
      else if (tk_return r =? 0)%Z then LineEmpty
      else
        match tk_tokens r with
        | None => LineEmpty
        | Some toks =>
            match shell_parse toks with
            | Parsed l => LineParsed l
            | Rejected d => LineParseError d
            end
        end
  end.

(** *** Notions used in the statements about the lexer and the parser *)

Local Open Scope list_scope.

(** The spellings the parsers give a meaning to. *)
Definition is_operator (t : string) : bool :=
  (t =? "|") || (t =? "<") || (t =? ">") || (t =? ">>") || (t =? "&").

(** A word for [parse_command]: none of its four operators. *)
Definition is_word (t : string) : bool :=
  negb ((t =? "<") || (t =? ">") || (t =? ">>") || (t =? "&")).

(** The accumulator with another argv. *)
Definition with_argv (l : list string) (a : cmd_acc) : cmd_acc :=
  {| acc_argv := l; acc_input := acc_input a; acc_output := acc_output a;
     acc_append := acc_append a; acc_background := acc_background a |}.

(** The tokens of a segment before an [&] that the scan reaches: no [|]
    among them, and either none at all or a command parse_command accepts
    with fewer than MAX_ARGS - 1 arguments. *)
Definition scanned_prefix (ws : list string) : Prop :=
  Forall (λ t, (t =? "|") = false) ws ∧
  (ws = [] ∨
   ∃ c args, parse_command ws = Parsed c ∧ argv c = Some args ∧
             (length args < MAX_ARGS - 1)%nat).

(** The bytes of token_buf that belong to the current token. *)
Definition current_token (lx : lexer) : list ascii :=
  take (token_buf_pos lx) (token_buf lx).

(** Two runs of the lexer that agree on all that can be observed: the
    tokens, the position, the state and the bytes of the current token;
    beyond the position the two buffers may differ. *)
Record agree (lx1 lx2 : lexer) : Prop := mkAgree {
  agree_tokens : tokens lx1 = tokens lx2;
  agree_pos : token_buf_pos lx1 = token_buf_pos lx2;
  agree_state : state lx1 = state lx2;
  agree_len1 : length (token_buf lx1) = MAX_INPUT_SIZE;
  agree_len2 : length (token_buf lx2) = MAX_INPUT_SIZE;
  agree_bound : (token_buf_pos lx1 < MAX_INPUT_SIZE)%nat;
  agree_current : current_token lx1 = current_token lx2
}.

(** An empty environment and a block of memory, to exercise the
    statements. *)
Definition no_environment : environment := λ _, None.
Definition sample_heap : list ascii := replicate MAX_INPUT_SIZE "x"%char.

(** A double-quoted token of MAX_INPUT_SIZE - 1 letters followed by an
    escape sequence. *)
Definition long_prefix : list ascii :=
  dquote :: replicate (MAX_INPUT_SIZE - 1) "a"%char ++ ["\"%char].
Definition long_line : string :=
  string_of_list_ascii (long_prefix ++ ["n"%char; dquote]).

(** The buffer once [k] letters have overwritten the sample block, and the
    locals of the lexer inside the first token at that point. *)
Definition letters_buffer (k : nat) : list ascii :=
  replicate k "a"%char ++ replicate (MAX_INPUT_SIZE - k) "x"%char.

Definition after_letters (k : nat) (st : lex_state) : lexer :=
  {| tokens := []; token_buf := letters_buffer k; token_buf_pos := k;
     state := st |}.

(** The characters operators are made of. *)
Definition is_operator_char (c : ascii) : bool :=
  ((c =? "|") || (c =? "<") || (c =? ">") || (c =? "&"))%char.

(** The characters of a line that stand outside quotes, the quote
    characters themselves left out. *)
Fixpoint outside_quotes (st : lex_state) (p : list ascii) : list ascii :=
  match p with
  | [] => []
  | c :: p' =>
      match st with
      | STATE_NORMAL =>
          if (c =? "'")%char then outside_quotes STATE_SINGLE_QUOTE p'
          else if (c =? dquote)%char then outside_quotes STATE_DOUBLE_QUOTE p'
          else c :: outside_quotes STATE_NORMAL p'
      | STATE_SINGLE_QUOTE =>
          if (c =? "'")%char then outside_quotes STATE_NORMAL p'
          else outside_quotes STATE_SINGLE_QUOTE p'
      | STATE_DOUBLE_QUOTE =>
          if (c =? "\")%char then outside_quotes STATE_ESCAPE p'
          else if (c =? dquote)%char then outside_quotes STATE_NORMAL p'
          else outside_quotes STATE_DOUBLE_QUOTE p'
      | STATE_ESCAPE => outside_quotes STATE_DOUBLE_QUOTE p'
      end
  end.

(** Every operator character of the line is inside quotes. *)
Definition operators_only_quoted (line : string) : bool :=
  forallb (λ c, negb (is_operator_char c))
    (outside_quotes STATE_NORMAL (c_str line)).

(** The line is one command made of words: no pipe, no redirection, no
    background flag. *)
Definition words_only (l : parsed_line) : Prop :=
  ∃ args, l = LineCommand {| argv := Some args; input_file := None;
                             output_file := None; append_mode := 0;
                             background := 0 |}.

(** Two lines whose only operator character is quoted. *)
Definition quoted_redirect_line : string := "echo '>' f".
Definition quoted_pipe_line : string :=
  ("echo " ++ String dquote ("|" ++ String dquote " f"))%string.

(** The command parsed from one word. *)
Definition sample_word_command (prog : string) : Command :=
  {| argv := Some [prog]; input_file := None; output_file := None;
     append_mode := 0; background := 0 |}.

(** The token [&] stands somewhere before the last position. *)
Definition amp_before_end (toks : list string) : Prop :=
  ∃ pre post, toks = pre ++ "&" :: post ∧ post ≠ [].

End Parser.

(** ** executor.c *)

Module Executor.
Import Jobs Parser.

(** *** <sys/wait.h>

    The status word stored by [waitpid], decoded as the C library of the
    platform does. *)
Module Wait.

Definition to_schar (v : Z) : Z :=
  let w := v mod 256 in if w <? 128 then w else w - 256.

Definition WEXITSTATUS (s : Z) : Z := Z.shiftr (Z.land s 65280) 8.
Definition WTERMSIG (s : Z) : Z := Z.land s 127.
Definition WSTOPSIG (s : Z) : Z := WEXITSTATUS s.
Definition WIFEXITED (s : Z) : bool := WTERMSIG s =? 0.
Definition WIFSIGNALED (s : Z) : bool :=
  0 <? Z.shiftr (to_schar (Z.land s 127 + 1)) 1.
Definition WIFSTOPPED (s : Z) : bool := Z.land s 255 =? 127.

End Wait.
Import Wait.

(** *** builtins.c: is_builtin *)

Definition builtin_names : list string :=
  ["cd"; "pwd"; "exit"; "echo"; "mkdir"; "rmdir"; "touch"; "rm"; "cat";
   "ls"; "jobs"; "fg"; "bg"; "history"; "export"; "unset"]%string.

Definition is_builtin (cmd : string) : bool :=
  existsb (String.eqb cmd) builtin_names.

(** [strcat(cmd_str, s)] into [char cmd_str[MAX_INPUT_SIZE]], which holds a
    terminated string: the bytes of [s] up to its NUL are appended. The code
    checks no length: a result of more than MAX_INPUT_SIZE - 1 bytes is
    written past the end of the array, which is undefined behaviour. *)
Definition strcat (cmd_str s : string) : option string :=
  let r := (cmd_str ++ strdup (list_ascii_of_string s))%string in
  if (String.length r <? MAX_INPUT_SIZE)%nat then Some r else None.

(** [for (j = 0; argv[j] != NULL; j++) { if (j > 0) strcat(cmd_str, " ");
    strcat(cmd_str, argv[j]); }] from index [j] on. *)
Fixpoint strcat_args (j : nat) (args : list string) (cmd_str : string)
    : option string :=
  match args with
  | [] => Some cmd_str
  | a :: rest =>
      s ← (if (0 <? j)%nat then strcat cmd_str " " else Some cmd_str);
      s' ← strcat s a;
      strcat_args (S j) rest s'
  end.

(** The command string execute_command builds for the job table, starting
    from the zeroed array. *)
Definition command_string (args : list string) : option string :=
  strcat_args 0 args "".

(** The two nested loops of execute_pipeline from command [i] on; reading
    the arguments of a command whose argv is NULL is undefined. *)
Fixpoint strcat_commands (i : nat) (cmds : list Command) (cmd_str : string)
    : option string :=
  match cmds with
  | [] => Some cmd_str
  | c :: rest =>
      s ← (if (0 <? i)%nat then strcat cmd_str " | " else Some cmd_str);
      args ← argv c;
      s' ← strcat_args 0 args s;
      strcat_commands (S i) rest s'
  end.

Definition pipeline_string (cmds : list Command) : option string :=
  strcat_commands 0 cmds "".

(** What a call of the executor comes to in the process that made it: it
    returns a status to the shell, or [fork] returned 0 and this is the child,
    which ends in [execvp] or [exit] and never returns. *)
Inductive exec_result :=
| Returned (status : Z)
| InChild.

(** The answers of the operating system to the calls of [execute_command],
    in the order of the code. [co_waitpid] is the value returned and the
    status stored. *)
Record command_os := mkCommandOs {
  co_dup_stdin : Z;
  co_dup_stdout : Z;
  co_open_input : Z;
  co_dup2_input : Z;
  co_open_output : Z;
  co_dup2_output : Z;
  co_fork : Z;
  co_getpgid : Z;
  co_waitpid : Z * Z;
  co_strdup_ok : bool
}.

(** The answers to the calls of [execute_pipeline]; [po_pipe i] and
    [po_fork i] answer the i-th [pipe] and [fork], [po_wait_last] the blocking
    [waitpid] on the last child, [po_wait_other i] the non-blocking one on
    child [i]. *)
Record pipeline_os := mkPipelineOs {
  po_malloc_pipes : bool;
  po_pipe : nat → Z;
  po_dup_stdin : Z;
  po_dup_stdout : Z;
  po_malloc_pids : bool;
  po_fork : nat → Z;
  po_wait_last : Z * Z;
  po_wait_other : nat → Z * Z;
  po_strdup_ok : bool;
  po_single : command_os
}.

(** The decoding shared by the two waits: the status to return and whether
    the child stopped (a job is then recorded); [other] is what the code
    leaves in the variable when no macro answers. *)
Definition decode_status (other : Z) (s : Z) : Z * bool :=
  if WIFEXITED s then (WEXITSTATUS s, false)
  else if WIFSIGNALED s then (128 + WTERMSIG s, false)
  else if WIFSTOPPED s then (0, true)
  else (other, false).

Section WithBuiltins.

(** [execute_builtin] runs in the calling process: its return value and its
    effect on the job table. *)
Variable execute_builtin : list string → job_state → Z * job_state.

Definition execute_command (os : command_os) (cmd : Command) (js : job_state)
    : option (exec_result * job_state) :=
  match argv cmd with
  | None | Some [] => Some (Returned (-1), js)
  | Some (prog :: args) =>
      if (co_dup_stdin os =? -1) || (co_dup_stdout os =? -1)
      then Some (Returned (-1), js)
      else if bool_decide (is_Some (input_file cmd))
              && (co_open_input os =? -1)
      then Some (Returned 1, js)
      else if bool_decide (is_Some (input_file cmd))
              && (co_dup2_input os =? -1)
      then Some (Returned (-1), js)
      else if bool_decide (is_Some (output_file cmd))
              && (co_open_output os =? -1)
      then Some (Returned 1, js)
      else if bool_decide (is_Some (output_file cmd))
              && (co_dup2_output os =? -1)
      then Some (Returned (-1), js)
      else if is_builtin prog then
        let '(status, js') := execute_builtin (prog :: args) js in
        Some (Returned status, js')
      else
        let pid := co_fork os in
        if pid =? -1 then Some (Returned (-1), js)
        else if pid =? 0 then Some (InChild, js)
        else
          let pg := if co_getpgid os =? -1 then pid else co_getpgid os in
          if negb (background cmd =? 0) then
            cmd_str ← command_string (prog :: args);
            '(_, js') ← add_job pg cmd_str JOB_RUNNING (co_strdup_ok os) js;
            Some (Returned 0, js')
          else
            let '(ret, child_status) := co_waitpid os in
            if ret =? -1 then Some (Returned (-1), js)
            else
              let '(status, stopped) := decode_status (-1) child_status in
              if stopped then
                cmd_str ← command_string (prog :: args);
                '(_, js') ← add_job pid cmd_str JOB_STOPPED (co_strdup_ok os) js;
                Some (Returned status, js')
              else Some (Returned status, js)
  end.

(** The loop creating the pipes: does one of the first [n] calls fail? *)
Definition pipes_created (os : pipeline_os) (n : nat) : bool :=
  forallb (λ i, negb (po_pipe os i =? -1)) (seq 0 n).

Inductive fork_outcome :=
| Forked (pids : list Z)
| ForkFailed
| ForkChild.

(** The fork loop from command [i] on, [count] commands left. *)
Fixpoint fork_loop (os : pipeline_os) (i count : nat) (pids : list Z)
    : fork_outcome :=
  match count with
  | O => Forked pids
  | S count' =>
      let pid := po_fork os i in
      if pid =? -1 then ForkFailed
      else if pid =? 0 then ForkChild
      else fork_loop os (S i) count' (pids ++ [pid])
  end.

(** The closing loop of non-blocking waits on children 0..n-2: the values
    [waitpid] returned, which the code drops. *)
Definition reap_others (os : pipeline_os) (n : nat) : list Z :=
  map (λ i, fst (po_wait_other os i)) (seq 0 (n - 1)).

Definition execute_pipeline (os : pipeline_os) (p : Pipeline) (js : job_state)
    : option (exec_result * job_state) :=
  if num_commands p =? 0 then Some (Returned (-1), js)
  else if num_commands p =? 1 then
    match commands p with
    | c :: _ => execute_command (po_single os) c js
    | [] => None
    end
  else
    let n := Z.to_nat (num_commands p) in
    if negb (po_malloc_pipes os) then Some (Returned (-1), js)
    else if negb (pipes_created os (n - 1)) then Some (Returned (-1), js)
    else if (po_dup_stdin os =? -1) || (po_dup_stdout os =? -1)
    then Some (Returned (-1), js)
    else if negb (po_malloc_pids os) then Some (Returned (-1), js)
    else
      match fork_loop os 0 n [] with
      | ForkFailed => Some (Returned (-1), js)
      | ForkChild => Some (InChild, js)
      | Forked pids =>
          let pipeline_pgid := default 0 (pids !! 0%nat) in
          if negb (pl_background p =? 0) then
            cmd_str ← pipeline_string (take n (commands p));
            '(_, js') ← add_job pipeline_pgid cmd_str JOB_RUNNING
                          (po_strdup_ok os) js;
            Some (Returned 0, js')
          else
            let last_pid := default 0 (pids !! (n - 1)%nat) in
            let '(waited_pid, status) := po_wait_last os in
            let '(last_status, stopped) :=
              if waited_pid =? last_pid then decode_status 0 status
              else (0, false) in
            let reaped := reap_others os n in
            if stopped then
              cmd_str ← pipeline_string (take n (commands p));
              '(_, js') ← add_job pipeline_pgid cmd_str JOB_STOPPED
                            (po_strdup_ok os) js;
              Some (Returned last_status, js')
            else Some (Returned last_status, js)
      end.

End WithBuiltins.

(** *** What the statements about the executor speak of *)

(** The pipeline runs in the foreground: its own flag is 0, and so is the
    flag of the command when there is only one, which is the flag
    [execute_command] reads. *)
Definition foreground (p : Pipeline) : Prop :=
  pl_background p = 0 ∧ ∀ c, commands p = [c] → background c = 0.

(** [num_commands] counts [commands]. *)
Definition well_formed (p : Pipeline) : Prop :=
  num_commands p = Z.of_nat (length (commands p)).

(** The run reaches the wait on the last child and that wait reports the
    child with status word [s]: for a pipeline of two or more commands every
    call before the wait succeeds; for a single command the program is an
    external one, forked and waited for by [execute_command]. *)
Definition last_child_reported (os : pipeline_os) (p : Pipeline) (s : Z)
    : Prop :=
  match commands p with
  | [] => False
  | [c] =>
      (∃ prog args, argv c = Some (prog :: args) ∧ is_builtin prog = false) ∧
      co_dup_stdin (po_single os) ≠ -1 ∧ co_dup_stdout (po_single os) ≠ -1 ∧
      (is_Some (input_file c) →
       co_open_input (po_single os) ≠ -1 ∧ co_dup2_input (po_single os) ≠ -1) ∧
      (is_Some (output_file c) →
       co_open_output (po_single os) ≠ -1 ∧
       co_dup2_output (po_single os) ≠ -1) ∧
      0 < co_fork (po_single os) ∧
      fst (co_waitpid (po_single os)) ≠ -1 ∧
      snd (co_waitpid (po_single os)) = s
  | cs =>
      po_malloc_pipes os = true ∧
      (∀ i, (i < length cs - 1)%nat → po_pipe os i ≠ -1) ∧
      po_dup_stdin os ≠ -1 ∧ po_dup_stdout os ≠ -1 ∧
      po_malloc_pids os = true ∧
      (∀ i, (i < length cs)%nat → 0 < po_fork os i) ∧
      po_wait_last os = (po_fork os (length cs - 1), s)
  end.

(** The same answers, but for those of the non-blocking waits on the other
    children. *)
Definition with_other_statuses (others : nat → Z * Z) (os : pipeline_os)
    : pipeline_os :=
  {| po_malloc_pipes := po_malloc_pipes os;
     po_pipe := po_pipe os;
     po_dup_stdin := po_dup_stdin os;
     po_dup_stdout := po_dup_stdout os;
     po_malloc_pids := po_malloc_pids os;
     po_fork := po_fork os;
     po_wait_last := po_wait_last os;
     po_wait_other := others;
     po_strdup_ok := po_strdup_ok os;
     po_single := po_single os |}.

(** A pipeline of two commands and answers of the system under which both
    children are forked and the last one is reported, to exercise the
    statements. *)
Definition sample_command (prog : string) : Command :=
  {| argv := Some [prog]; input_file := None; output_file := None;
     append_mode := 0; background := 0 |}.

Definition sample_pipeline : Pipeline :=
  {| commands := [sample_command "ls"; sample_command "wc"];
     num_commands := 2; pl_background := 0 |}.

Definition sample_command_os : command_os :=
  {| co_dup_stdin := 10; co_dup_stdout := 11;
     co_open_input := 12; co_dup2_input := 0;
     co_open_output := 12; co_dup2_output := 1;
     co_fork := 500; co_getpgid := 500; co_waitpid := (500, 0);
     co_strdup_ok := true |}.

Definition sample_os (last_status : Z) : pipeline_os :=
  {| po_malloc_pipes := true; po_pipe := λ _, 0;
     po_dup_stdin := 10; po_dup_stdout := 11;
     po_malloc_pids := true;
     po_fork := λ i, 500 + Z.of_nat i;
     po_wait_last := (501, last_status);
     po_wait_other := λ _, (0, 0);
     po_strdup_ok := true;
     po_single := sample_command_os |}.

Definition no_builtin (args : list string) (js : job_state) : Z * job_state :=
  (0, js).

End Executor.

(** ** history.c *)

Module History.
Import Parser.

Definition MAX_HISTORY : Z := 1000.

(** The three statics of history.c; an entry of the ring is a [char *],
    [None] being NULL. *)
Record history := mkHistory {
  history_buffer : list (option string);
  history_count : Z;
  history_next : Z
}.

Definition init_history : history :=
  {| history_buffer := replicate (Z.to_nat MAX_HISTORY) None;
     history_count := 0;
     history_next := 0 |}.

(** [history_buffer[i]] for an [int] i. C leaves an index outside the array
    undefined; under [history_ok] below every index the code computes is
    inside it. *)
Definition entry_at (h : history) (i : Z) : option string :=
  mjoin (history_buffer h !! Z.to_nat i).

(** [add_to_history]; [command] is a [const char *], [strdup_ok] says whether
    [strdup(command)] returns a string. C's [%] truncates: it is [Z.rem]. *)
Definition add_to_history (command : option string) (strdup_ok : bool)
    (h : history) : history :=
  match command with
  | None => h
  | Some cmd =>
      if bool_decide (c_str cmd = []) then h
      else if bool_decide (0 < history_count h) &&
              match entry_at h (Z.rem (history_next h - 1 + MAX_HISTORY)
                                      MAX_HISTORY) with
              | Some last => bool_decide (c_str last = c_str cmd)
              | None => false
              end
      then h
      else if strdup_ok then
        {| history_buffer :=
             <[Z.to_nat (history_next h) :=
                 Some (strdup (list_ascii_of_string cmd))]> (history_buffer h);
           history_count :=
             if bool_decide (history_count h < MAX_HISTORY)
             then history_count h + 1 else history_count h;
           history_next := Z.rem (history_next h + 1) MAX_HISTORY |}
      else
        {| history_buffer :=
             <[Z.to_nat (history_next h) := None]> (history_buffer h);
           history_count := history_count h;
           history_next := history_next h |}
  end.

Definition get_history_entry (index : Z) (h : history) : option string :=
  if bool_decide (index < 1) || bool_decide (history_count h < index) then None
  else entry_at h (Z.rem (history_next h - history_count h + index - 1
                          + MAX_HISTORY) MAX_HISTORY).

Definition get_history_count (h : history) : Z := history_count h.

(** [get_all_history]: the returned count and what the loop wrote into the
    caller's array. *)
Definition get_all_history (max_entries : Z) (h : history)
    : Z * list (option string) :=
  let count := if bool_decide (history_count h < max_entries)
               then history_count h else max_entries in
  (count,
   map (λ i, entry_at h (Z.rem (history_next h - history_count h + Z.of_nat i
                                + MAX_HISTORY) MAX_HISTORY))
       (seq 0 (Z.to_nat count))).

Definition clear_history (h : history) : history :=
  {| history_buffer :=
       replicate (Z.to_nat MAX_HISTORY) None
         ++ drop (Z.to_nat MAX_HISTORY) (history_buffer h);
     history_count := 0;
     history_next := 0 |}.

(** *** Notions used in the statements about the history *)

(** The statics as C has them: an array of MAX_HISTORY pointers, a count of
    at most MAX_HISTORY and a write position inside the array, which is the
    count as long as the ring has not wrapped. *)
Definition history_ok (h : history) : Prop :=
  length (history_buffer h) = Z.to_nat MAX_HISTORY ∧
  0 ≤ history_count h ≤ MAX_HISTORY ∧
  0 ≤ history_next h < MAX_HISTORY ∧
  (history_count h < MAX_HISTORY → history_next h = history_count h).

(** What the history command sees: the entries, oldest first. *)
Definition entries (h : history) : list (option string) :=
  snd (get_all_history MAX_HISTORY h).

(** A session: the lines typed, each one copied successfully. *)
Definition record_all (cmds : list string) (h : history) : history :=
  fold_left (λ h cmd, add_to_history (Some cmd) true h) cmds h.

(** The lines a session keeps, as an unbounded list: empty lines and the
    repeat of the line just before are left out. *)
Definition noted (log : list string) (cmd : string) : list string :=
  let c := strdup (list_ascii_of_string cmd) in
  if bool_decide (c = EmptyString) then log
  else if bool_decide (last log = Some c) then log
  else log ++ [c].

Definition journal (cmds : list string) : list string :=
  fold_left noted cmds [].

(** The last [n] elements of a list. *)
Definition last_n {A} (n : nat) (l : list A) : list A :=
  drop (length l - n) l.

(** The ring [h] holds the last MAX_HISTORY lines of [log], none of which
    has a NUL byte inside. *)
Definition tracks (h : history) (log : list string) : Prop :=
  history_ok h ∧
  Forall (λ s, strdup (list_ascii_of_string s) = s) log ∧
  history_count h = Z.min (Z.of_nat (length log)) MAX_HISTORY ∧
  ∀ i, 0 ≤ i < history_count h →
    entry_at h (Z.rem (history_next h - history_count h + i + MAX_HISTORY)
                      MAX_HISTORY)
    = log !! Z.to_nat (Z.of_nat (length log) - history_count h + i).

(** A ring that has wrapped, to exercise the statements. *)
Definition full_ring : history :=
  {| history_buffer := replicate (Z.to_nat MAX_HISTORY) (Some "ls"%string);
     history_count := MAX_HISTORY;
     history_next := 0 |}.

End History.

(** ** jobs.c: get_all_jobs *)

Module JobListing.
Import Jobs.

(** The test of the loop of [get_all_jobs] on one slot. *)
Definition listed (j : Job) : bool :=
  bool_decide (job_id j ≠ 0) && bool_decide (status j ≠ JOB_DONE).

(** [for (i = 0; i < MAX_JOBS && count < max_jobs; i++)] over the slots
    still to visit: the final count and the jobs copied to the caller's
    array from position [count] on. *)
Fixpoint get_all_loop (tbl : list Job) (max_jobs count : Z)
    : Z * list Job :=
  match tbl with
  | [] => (count, [])
  | j :: rest =>
      if bool_decide (count < max_jobs) then
        if listed j then
          let '(n, out) := get_all_loop rest max_jobs (count + 1) in
          (n, j :: out)
        else get_all_loop rest max_jobs count
      else (count, [])
  end.

Definition get_all_jobs (max_jobs : Z) (s : job_state) : Z * list Job :=
  get_all_loop (take MAX_JOBS (job_table s)) max_jobs 0.

(** *** Notions used in the statements about lookups in the job table *)

(** What [find_job] points to. *)
Definition job_of (id : Z) (s : job_state) : option Job :=
  i ← find_job id s; job_table s !! i.

(** No two slots in use hold the same job ID. *)
Definition ids_distinct (s : job_state) : Prop :=
  ∀ i k a b,
    job_table s !! i = Some a → job_table s !! k = Some b →
    job_id a ≠ 0 → job_id a = job_id b → i = k.

End JobListing.

(** ** signals.c *)

Module Signals.
Import Jobs Executor.Wait.

(** A child returned by [waitpid(-1, &status, WNOHANG | WUNTRACED)]: the
    status stored and the answer of [getpgid] for its pid. *)
Record reaped := mkReaped {
  reaped_status : Z;
  reaped_pgid : Z
}.

(** The body of the loop of [sigchld_handler] for one child: its effect on
    the job table (the line it prints for a stopped job is left out). *)
Definition sigchld_body (r : reaped) (s : job_state) : job_state :=
  if bool_decide (reaped_pgid r = -1) then s
  else
    match find_job_by_pgid (reaped_pgid r) s with
    | None => s
    | Some _ =>
        if WIFSTOPPED (reaped_status r) then
          update_job_status_by_pgid (reaped_pgid r) JOB_STOPPED s
        else if WIFEXITED (reaped_status r) || WIFSIGNALED (reaped_status r)
        then update_job_status_by_pgid (reaped_pgid r) JOB_DONE s
        else s
    end.

(** [sigchld_handler]: [children] are the children [waitpid] returns before
    it returns 0 or -1. *)
Definition sigchld_handler (children : list reaped) (s : job_state)
    : job_state :=
  fold_left (λ s r, sigchld_body r s) children s.

(** *** The children the handler finds

    A child of the shell that has changed state and has not been waited
    for: its pid, the process group it is in, and the status word [waitpid]
    stores for it. With the options the shell passes, a child is returned
    because it stopped or because it exited or was killed. *)
Record child := mkChild {
  child_pid : Z;
  child_pgid : Z;
  child_status : Z
}.

(** [getpgid(pid)] as the handler calls it, after [waitpid] has returned the
    child: a stopped child is still a process and the call answers its
    group; a child that exited or was killed has been removed by that very
    [waitpid], no process has its pid any more and the call answers -1. *)
Definition getpgid_after_wait (c : child) : Z :=
  if WIFSTOPPED (child_status c) then child_pgid c else -1.

(** The children returned to the loop of the handler, in order. *)
Definition handler_waits (cs : list child) : list reaped :=
  map (λ c, mkReaped (child_status c) (getpgid_after_wait c)) cs.

(** A run of the handler while the children [cs] are waiting: its loop ends
    when [waitpid(-1, ...)] has nothing more to return, so every one of them
    has been waited for; the children left waiting and the job table. *)
Definition run_sigchld_handler (cs : list child) (s : job_state)
    : list child * job_state :=
  ([], sigchld_handler (handler_waits cs) s).

(** What the handler must leave alone in a slot. *)
Definition identity_of (j : Job) : Z * Z * option string :=
  (job_id j, pgid j, command j).

(** A table with one stopped job, number 1, in group 4001, to exercise the
    statements. *)
Definition stopped_job_table : job_state :=
  {| job_table :=
       <[0%nat := {| job_id := 1; pgid := 4001;
                     command := Some "sleep 10"%string;
                     status := JOB_STOPPED |}]>
         (replicate MAX_JOBS empty_slot);
     next_job_id := 2;
     num_jobs := 1 |}.

End Signals.

(** ** builtins.c: the builtins of job control and of the history

    Of each builtin the model keeps the value returned, the effect on the
    job table and, for jobs and history, the lines written to stdout; the
    diagnostics written to stderr are left out. *)

Module Builtins.
Import Jobs Parser Executor.Wait JobListing History Signals.

Local Open Scope char_scope.

(** *** <stdlib.h>: atoi

    Leading white space, an optional sign, then decimal digits; a value
    outside [int] is undefined behaviour. *)
Definition isdigit (c : ascii) : bool := in_range 48 57 c.

Fixpoint digits_value (acc : Z) (l : list ascii) : Z :=
  match l with
  | c :: l' =>
      if isdigit c
      then digits_value (10 * acc + (Z.of_nat (nat_of_ascii c) - 48)) l'
      else acc
  | [] => acc
  end.

Fixpoint skip_spaces (l : list ascii) : list ascii :=
  match l with
  | c :: l' => if isspace c then skip_spaces l' else l
  | [] => []
  end.

Definition atoi (s : string) : option Z :=
  let v := match skip_spaces (c_str s) with
           | "-" :: l => - digits_value 0 l
           | "+" :: l => digits_value 0 l
           | l => digits_value 0 l
           end in
  if bool_decide (INT_MIN ≤ v ≤ INT_MAX) then Some v else None.

Local Open Scope string_scope.
Local Open Scope list_scope.

(** *** builtin_jobs

    A line printed by [printf("[%d] %s %s\n", ...)]: the job ID, the status
    word and the command pointer. *)
Definition status_str (st : JobStatus) : string :=
  match st with
  | JOB_RUNNING => "Running"
  | JOB_STOPPED => "Stopped"
  | JOB_DONE => "Done"
  end.

Definition builtin_jobs (s : job_state) : Z * list (Z * string * option string) :=
  let '(num, jobs) := get_all_jobs (Z.of_nat MAX_JOBS) s in
  if bool_decide (num = 0) then (0, [])
  else (0, map (λ j, (job_id j, status_str (status j), command j))
               (take (Z.to_nat num) jobs)).

(** *** builtin_fg

    The answers of the operating system: [tcsetpgrp] on the job's group,
    [kill] with SIGCONT, and the successive answers of [waitpid] on the
    group (value returned, status stored); when they run out [waitpid]
    returns -1. *)
Record fg_os := mkFgOs {
  fo_tcsetpgrp : Z;
  fo_kill : Z;
  fo_waits : list (Z * Z)
}.

(** The loop [while ((pid = waitpid(-job->pgid, &status, WUNTRACED)) > 0)]. *)
Fixpoint fg_wait (waits : list (Z * Z)) (id pg : Z) (s : job_state)
    : option job_state :=
  match waits with
  | [] => Some s
  | (pid, st) :: rest =>
      if bool_decide (0 < pid)%Z then
        if WIFSTOPPED st then Some (update_job_status_by_pgid pg JOB_STOPPED s)
        else if WIFEXITED st || WIFSIGNALED st then remove_job id s
        else fg_wait rest id pg s
      else Some s
  end.

(** [argv] is the NULL-terminated vector, [argv !! 1] its second entry. *)
Definition builtin_fg (argv : list string) (os : fg_os) (s : job_state)
    : option (Z * job_state) :=
  match argv !! 1%nat with
  | None => Some (1, s)
  | Some arg =>
      id ← atoi arg;
      if bool_decide (id ≤ 0)%Z then Some (1, s)
      else
        match job_of id s with
        | None => Some (1, s)
        | Some job =>
            if bool_decide (fo_tcsetpgrp os = -1) then Some (1, s)
            else if bool_decide (status job = JOB_STOPPED)
                    && bool_decide (fo_kill os = -1)
            then Some (1, s)
            else
              let s1 := if bool_decide (status job = JOB_STOPPED)
                        then update_job_status id JOB_RUNNING s else s in
              s2 ← fg_wait (fo_waits os) id (pgid job) s1;
              Some (0, s2)
        end
  end.

(** *** builtin_bg; [kill_result] is the answer of [kill] with SIGCONT. *)
Definition builtin_bg (argv : list string) (kill_result : Z) (s : job_state)
    : option (Z * job_state) :=
  match argv !! 1%nat with
  | None => Some (1, s)
  | Some arg =>
      id ← atoi arg;
      if bool_decide (id ≤ 0)%Z then Some (1, s)
      else
        match job_of id s with
        | None => Some (1, s)
        | Some job =>
            if bool_decide (status job ≠ JOB_STOPPED) then Some (1, s)
            else if bool_decide (kill_result = -1) then Some (1, s)
            else Some (0, update_job_status id JOB_RUNNING s)
        end
  end.

(** *** builtin_history

    A line printed by [printf("%5d  %s\n", ...)]: the number and the entry. *)
Definition builtin_history (h : history) : Z * list (Z * option string) :=
  let '(count, lines) := get_all_history 1000 h in
  let start_num := if bool_decide (count < get_history_count h)%Z
                   then get_history_count h - count + 1 else 1 in
  (0, imap (λ i line, (start_num + Z.of_nat i, line))
           (take (Z.to_nat count) lines)).

(** *** execute_builtin: the function the chain of [strcmp] selects *)
Inductive builtin :=
| builtin_cd | builtin_pwd | builtin_exit | builtin_echo | builtin_mkdir
| builtin_rmdir | builtin_touch | builtin_rm | builtin_cat | builtin_ls
| builtin_jobs_ | builtin_fg_ | builtin_bg_ | builtin_history_
| builtin_export | builtin_unset.

(** [argv] is a [char **]: [None] is the NULL pointer and the empty list a
    vector whose first entry is NULL; both make execute_builtin return -1, as
    does a name that no [strcmp] matches. *)
Definition execute_builtin_target (argv : option (list string))
    : option builtin :=
  match argv with
  | None | Some [] => None
  | Some (cmd :: _) =>
      if String.eqb cmd "cd" then Some builtin_cd
      else if String.eqb cmd "pwd" then Some builtin_pwd
      else if String.eqb cmd "exit" then Some builtin_exit
      else if String.eqb cmd "echo" then Some builtin_echo
      else if String.eqb cmd "mkdir" then Some builtin_mkdir
      else if String.eqb cmd "rmdir" then Some builtin_rmdir
      else if String.eqb cmd "touch" then Some builtin_touch
      else if String.eqb cmd "rm" then Some builtin_rm
      else if String.eqb cmd "cat" then Some builtin_cat
      else if String.eqb cmd "ls" then Some builtin_ls
      else if String.eqb cmd "jobs" then Some builtin_jobs_
      else if String.eqb cmd "fg" then Some builtin_fg_
      else if String.eqb cmd "bg" then Some builtin_bg_
      else if String.eqb cmd "history" then Some builtin_history_
      else if String.eqb cmd "export" then Some builtin_export
      else if String.eqb cmd "unset" then Some builtin_unset
      else None
  end.

(** *** Samples to exercise the statements *)

(** The job continues and then exits with status 0. *)
Definition fg_until_exit : fg_os :=
  {| fo_tcsetpgrp := 0; fo_kill := 0; fo_waits := [(4001, 0)] |}.

End Builtins.

(** ** The tokens that spell a command or a pipeline *)

Module Syntax.
Import Parser.

Local Open Scope string_scope.
Local Open Scope list_scope.

(** The redirections of a command, input first. *)
Definition redirection_tokens (c : Command) : list string :=
  match input_file c with Some f => ["<"; f] | None => [] end ++
  match output_file c with
  | Some f => [if (append_mode c =? 1)%Z then ">>" else ">"; f]
  | None => []
  end.

(** A command written out: arguments, redirections, background flag. *)
Definition command_tokens (c : Command) : list string :=
  default [] (argv c) ++ redirection_tokens c
    ++ (if (background c =? 1)%Z then ["&"] else []).

(** A command as parse_command fills it: an argv of words that leaves room
    in the array, append_mode set only with an output file, flags 0 or 1. *)
Definition spelled (c : Command) : Prop :=
  (∃ args, argv c = Some args ∧ (length args < MAX_ARGS - 1)%nat ∧
           Forall (λ t, is_word t = true) args) ∧
  (append_mode c = 0%Z ∨ (append_mode c = 1%Z ∧ is_Some (output_file c))) ∧
  (background c = 0%Z ∨ background c = 1%Z).

(** The commands of a pipeline joined by [|]. *)
Fixpoint piped (cmds : list Command) : list string :=
  match cmds with
  | [] => []
  | [c] => command_tokens c
  | c :: cs => command_tokens c ++ "|" :: piped cs
  end.

Definition pipeline_tokens (p : Pipeline) : list string :=
  piped (commands p) ++ (if (pl_background p =? 1)%Z then ["&"] else []).

(** A command that can stand in a pipeline: its own background flag is not
    set, it has at least one token, none of its tokens is spelled [|] and
    the last one is not spelled [&]. *)
Definition pipe_segment (c : Command) : Prop :=
  spelled c ∧ background c = 0%Z ∧ command_tokens c ≠ [] ∧
  Forall (λ t, (t =? "|") = false) (command_tokens c) ∧
  last (command_tokens c) ≠ Some "&".

Definition spelled_pipeline (p : Pipeline) : Prop :=
  commands p ≠ [] ∧ Forall pipe_segment (commands p) ∧
  num_commands p = Z.of_nat (length (commands p)) ∧
  (pl_background p = 0%Z ∨ pl_background p = 1%Z).

(** Samples to exercise the statements. *)
Definition sample_sort : Command :=
  {| argv := Some ["sort"; "-r"]; input_file := Some "in.txt";
     output_file := Some "out.txt"; append_mode := 1; background := 1 |}.

Definition sample_grep : Command :=
  {| argv := Some ["grep"; "x"]; input_file := Some "in.txt";
     output_file := None; append_mode := 0; background := 0 |}.

Definition sample_wc : Command :=
  {| argv := Some ["wc"; "-l"]; input_file := None;
     output_file := Some "n.txt"; append_mode := 0; background := 0 |}.

Definition sample_job : Pipeline :=
  {| commands := [sample_grep; sample_wc]; num_commands := 2;
     pl_background := 1 |}.

End Syntax.

(** ** Lines made of words, quoted words and variable references *)

Module Lexing.
Import Parser.

Local Open Scope char_scope.
Local Open Scope list_scope.

(** The main loop of tokenize, with the fuel its input calls for. *)
Definition lex (env : environment) (p : list ascii) (lx : lexer)
    : option lexer :=
  lex_loop (S (length p)) env p lx.

(** The locals of tokenize when the loop starts. *)
Definition start (heap : list ascii) : lexer :=
  {| tokens := []; token_buf := heap; token_buf_pos := 0;
     state := STATE_NORMAL |}.

(** A character that the normal state copies: not white space, not a
    quote, not a dollar sign, not the end of the string. *)
Definition plain_char (c : ascii) : bool :=
  negb (isspace c) && negb (c =? "'") && negb (c =? dquote)
  && negb (c =? "$") && negb (c =? NUL).

(** A character that can stand between single quotes. *)
Definition quotable_char (c : ascii) : bool :=
  negb (c =? "'") && negb (c =? NUL).

(** The pieces a line is made of here: a bare word, a word between single
    quotes, a reference [$NAME]. *)
Inductive piece :=
| Plain (w : list ascii)
| Quoted (w : list ascii)
| VarRef (name : list ascii).

(** How a piece is typed. *)
Definition render (pc : piece) : list ascii :=
  match pc with
  | Plain w => w
  | Quoted w => "'" :: w ++ ["'"]
  | VarRef name => "$" :: name
  end.

(** What a piece stands for. *)
Definition value (env : environment) (pc : piece) : list ascii :=
  match pc with
  | Plain w | Quoted w => w
  | VarRef name => default [] (expand_variable env name)
  end.

(** The pieces that are read back as they stand: the text fits the token
    buffer, a bare word is not empty, a name is one that the scan of
    [$NAME] reads whole. *)
Definition valid_piece (env : environment) (pc : piece) : Prop :=
  (length (value env pc) ≤ MAX_INPUT_SIZE - 1)%nat ∧
  match pc with
  | Plain w => w ≠ [] ∧ Forall (λ c, plain_char c = true) w
  | Quoted w => Forall (λ c, quotable_char c = true) w
  | VarRef name =>
      name ≠ [] ∧ Forall (λ c, is_name_char c = true) name ∧
      (length name ≤ 255)%nat
  end.

(** Pieces typed on one line, a single space between them. *)
Fixpoint spaced (segs : list (list ascii)) : list ascii :=
  match segs with
  | [] => []
  | [s] => s
  | s :: rest => s ++ " " :: spaced rest
  end.

Definition line_of (pcs : list piece) : string :=
  string_of_list_ascii (spaced (map render pcs)).

(** The tokens the pieces stand for: a piece that stands for nothing gives
    no token. *)
Definition committed (w : list ascii) : list string :=
  match w with
  | [] => []
  | _ => [string_of_list_ascii w]
  end.

Definition tokens_of (env : environment) (pcs : list piece) : list string :=
  concat (map (λ pc, committed (value env pc)) pcs).

(** The lexer inside a token: state [st], and the bytes [w] of the token in
    the buffer. *)
Definition holding (st : lex_state) (w : list ascii) (lx : lexer) : Prop :=
  state lx = st ∧ length (token_buf lx) = MAX_INPUT_SIZE ∧
  token_buf_pos lx = length w ∧ current_token lx = w.

(** A character that the state [st] copies to the buffer whatever comes
    after it. *)
Definition copied (st : lex_state) (c : ascii) : bool :=
  match st with
  | STATE_NORMAL => plain_char c
  | STATE_SINGLE_QUOTE => negb (c =? "'")
  | _ => false
  end.

(** What the loop of tokenize keeps true of its locals. *)
Definition lexer_ok (lx : lexer) : Prop :=
  length (token_buf lx) = MAX_INPUT_SIZE ∧
  (token_buf_pos lx ≤ MAX_INPUT_SIZE - 1)%nat ∧
  (length (tokens lx) ≤ MAX_TOKENS - 1)%nat ∧
  (length (tokens lx) = (MAX_TOKENS - 1)%nat → token_buf_pos lx = 0%nat) ∧
  Forall (λ t, (String.length t ≤ MAX_INPUT_SIZE - 1)%nat) (tokens lx).

(** A character that can stand between double quotes without a meaning of
    its own. *)
Definition dquotable_char (c : ascii) : bool :=
  negb (c =? dquote) && negb (c =? "\") && negb (c =? "$")
  && negb (c =? NUL).

(** An environment with one variable, whose value has a space and an
    operator character in it. *)
Definition sample_environment : environment :=
  λ name, if String.eqb name "MSG" then Some "a b|c"%string else None.

(** A line of three pieces. *)
Definition sample_pieces : list piece :=
  [Plain (list_ascii_of_string "echo");
   Quoted (list_ascii_of_string "a  b > c");
   VarRef (list_ascii_of_string "MSG")].

End Lexing.

(** ** Notions used in the statements about the paths of the executor *)

Module ExecutorNotions.
Import Jobs Parser Executor Signals.

(** The same answers of the operating system, but for the blocking wait on
    the last child of a pipeline. *)
Definition with_last_wait (w : Z * Z) (os : pipeline_os) : pipeline_os :=
  {| po_malloc_pipes := po_malloc_pipes os;
     po_pipe := po_pipe os;
     po_dup_stdin := po_dup_stdin os;
     po_dup_stdout := po_dup_stdout os;
     po_malloc_pids := po_malloc_pids os;
     po_fork := po_fork os;
     po_wait_last := w;
     po_wait_other := po_wait_other os;
     po_strdup_ok := po_strdup_ok os;
     po_single := po_single os |}.

(** The same answers, but for the wait of execute_command. *)
Definition with_command_wait (w : Z * Z) (os : command_os) : command_os :=
  {| co_dup_stdin := co_dup_stdin os;
     co_dup_stdout := co_dup_stdout os;
     co_open_input := co_open_input os;
     co_dup2_input := co_dup2_input os;
     co_open_output := co_open_output os;
     co_dup2_output := co_dup2_output os;
     co_fork := co_fork os;
     co_getpgid := co_getpgid os;
     co_waitpid := w;
     co_strdup_ok := co_strdup_ok os |}.

(** Every call of the run before the wait succeeds, so the children are
    forked: for a pipeline of two or more commands the allocations, the
    pipes, the copies of the descriptors and the forks; for a single command
    an external program, its redirections and its fork. *)
Definition children_forked (os : pipeline_os) (p : Pipeline) : Prop :=
  match commands p with
  | [] => False
  | [c] =>
      (∃ prog args, argv c = Some (prog :: args) ∧ is_builtin prog = false) ∧
      co_dup_stdin (po_single os) ≠ -1 ∧ co_dup_stdout (po_single os) ≠ -1 ∧
      (is_Some (input_file c) →
       co_open_input (po_single os) ≠ -1 ∧ co_dup2_input (po_single os) ≠ -1) ∧
      (is_Some (output_file c) →
       co_open_output (po_single os) ≠ -1 ∧
       co_dup2_output (po_single os) ≠ -1) ∧
      0 < co_fork (po_single os)
  | cs =>
      po_malloc_pipes os = true ∧
      (∀ i, (i < length cs - 1)%nat → po_pipe os i ≠ -1) ∧
      po_dup_stdin os ≠ -1 ∧ po_dup_stdout os ≠ -1 ∧
      po_malloc_pids os = true ∧
      (∀ i, (i < length cs)%nat → 0 < po_fork os i)
  end.

(** The pid the executor waits for: the only child of a single command, the
    child forked last for a pipeline. *)
Definition last_pid (os : pipeline_os) (p : Pipeline) : Z :=
  match commands p with
  | [_] => co_fork (po_single os)
  | cs => po_fork os (length cs - 1)
  end.

(** [waitpid(pid, &status, WUNTRACED)] called by the executor for a child
    that has ended, [cs] being the children not yet waited for and [held]
    what the status variable holds before the call: the child is returned with its
    status word when it is still among them; when it is not, it has been
    waited for already, the call fails (ECHILD), answers -1 and stores
    nothing. *)
Definition waitpid_ended (pid held : Z) (cs : list child) : Z * Z :=
  match find (λ c, bool_decide (child_pid c = pid)) cs with
  | Some c => (pid, child_status c)
  | None => (-1, held)
  end.

(** The answers of the system when the executor reaches its wait on the
    last child with the children [cs] not yet waited for. *)
Definition wait_with (cs : list child) (held : Z) (os : pipeline_os)
    (p : Pipeline) : pipeline_os :=
  let w := waitpid_ended (last_pid os p) held cs in
  {| po_malloc_pipes := po_malloc_pipes os;
     po_pipe := po_pipe os;
     po_dup_stdin := po_dup_stdin os;
     po_dup_stdout := po_dup_stdout os;
     po_malloc_pids := po_malloc_pids os;
     po_fork := po_fork os;
     po_wait_last := w;
     po_wait_other := po_wait_other os;
     po_strdup_ok := po_strdup_ok os;
     po_single := with_command_wait w (po_single os) |}.

(** The line [true | sh -c "exit 7"], a foreground pipeline of two external
    commands, and its two children ended and not yet waited for: pid 500
    with the exit status 0, and the last one, pid 501, with the exit status
    7, both in the group 500 of the pipeline. *)
Definition exit_7 : Command :=
  {| argv := Some ["sh"; "-c"; "exit 7"]%string;
     input_file := None; output_file := None;
     append_mode := 0; background := 0 |}.

Definition exit_7_pipeline : Pipeline :=
  {| commands := [sample_command "true"; exit_7];
     num_commands := 2; pl_background := 0 |}.

Definition exit_7_pipeline_children : list child :=
  [ {| child_pid := 500; child_pgid := 500; child_status := 0 |};
    {| child_pid := 501; child_pgid := 500; child_status := 1792 |} ].

(** The line [sh -c "exit 7"], a single external command in the
    foreground, and its child, pid 500, ended with the exit status 7. *)
Definition exit_7_single : Pipeline :=
  {| commands := [exit_7]; num_commands := 1; pl_background := 0 |}.

Definition exit_7_single_child : list child :=
  [ {| child_pid := 500; child_pgid := 500; child_status := 1792 |} ].

(** A builtin that keeps the job table sound. *)
Definition keeps_count (eb : list string → job_state → Z * job_state)
    : Prop :=
  ∀ args s, table_ok s → counted s →
            table_ok (snd (eb args s)) ∧ counted (snd (eb args s)).

(** The sample pipeline sent to the background. *)
Definition sample_background_pipeline : Pipeline :=
  {| commands := [sample_command "ls"; sample_command "wc"];
     num_commands := 2; pl_background := 1 |}.

End ExecutorNotions.

(** * Facts about the job table *)

Module JobsFacts.
Import Jobs.

Lemma int_incr_Some x : x < INT_MAX → int_incr x = Some (x + 1).
Proof. intros. unfold int_incr. by rewrite decide_True. Qed.

Lemma int_decr_Some x : INT_MIN < x → int_decr x = Some (x - 1).
Proof. intros. unfold int_decr. by rewrite decide_True. Qed.

Lemma used_slots_eq s :
  used_slots s = length (filter in_use (job_table s)).
Proof. reflexivity. Qed.

(** The first slot found satisfies the test, lies below MAX_JOBS, and no slot
    before it satisfies the test. *)
Lemma first_slot_Some (P : Job → Prop) `{∀ j, Decision (P j)} tbl i :
  first_slot P tbl = Some i →
  (i < MAX_JOBS)%nat ∧
  ∃ j, tbl !! i = Some j ∧ P j ∧
       ∀ k j', (k < i)%nat → tbl !! k = Some j' → ¬ P j'.
Proof.
  unfold first_slot. intros Hf.
  destruct (list_find P (take MAX_JOBS tbl)) as [[i' j]|] eqn:E;
    simplify_eq/=.
  apply list_find_Some in E as (Hl & HP & Hmin).
  apply lookup_take_Some in Hl as [Hl Hlt].
  split; [done|]. exists j. split_and!; [done..|].
  intros k j' Hk Hj'. apply (Hmin k j'); [|done].
  apply lookup_take_Some. split; [done|lia].
Qed.

Lemma first_slot_None (P : Job → Prop) `{∀ j, Decision (P j)} tbl :
  first_slot P tbl = None →
  ∀ k j, (k < MAX_JOBS)%nat → tbl !! k = Some j → ¬ P j.
Proof.
  unfold first_slot. intros Hf k j Hk Hj.
  destruct (list_find P (take MAX_JOBS tbl)) as [[i' j']|] eqn:E;
    simplify_eq/=.
  rewrite list_find_None in E. rewrite Forall_forall in E.
  apply E. apply list_elem_of_lookup. exists k.
  apply lookup_take_Some. done.
Qed.

(** Writing one slot changes the count of slots in use by what the old and
    the new content contribute. *)
Lemma count_insert (P : Job → Prop) `{∀ j, Decision (P j)} l i x y :
  l !! i = Some x →
  (length (filter P (<[i:=y]> l)) + (if decide (P x) then 1 else 0)
   = length (filter P l) + (if decide (P y) then 1 else 0))%nat.
Proof.
  revert i. induction l as [|a l IH]; intros [|i] Hl; simplify_eq/=.
  - rewrite !filter_cons. repeat case_decide; simpl; lia.
  - rewrite !filter_cons. specialize (IH i Hl).
    repeat case_decide; simpl; lia.
Qed.

Lemma count_alter (P : Job → Prop) `{∀ j, Decision (P j)} l i f :
  (∀ x, P (f x) ↔ P x) →
  length (filter P (alter f i l)) = length (filter P l).
Proof.
  intros Hf. revert i. induction l as [|a l IH]; intros [|i]; [done..| |].
  - change (alter f 0%nat (a :: l)) with (f a :: l).
    rewrite !filter_cons. pose proof (Hf a).
    repeat case_decide; simpl; tauto || lia.
  - change (alter f (S i) (a :: l)) with (a :: alter f i l).
    rewrite !filter_cons. case_decide; simpl; rewrite IH; done.
Qed.

Lemma count_le_length (P : Job → Prop) `{∀ j, Decision (P j)} l :
  (length (filter P l) ≤ length l)%nat.
Proof. apply length_filter. Qed.

(** When every slot is in use the count is the length. *)
Lemma count_all (P : Job → Prop) `{∀ j, Decision (P j)} l :
  length (filter P l) = length l ↔ Forall P l.
Proof.
  induction l as [|a l IH]; simpl.
  - split; [constructor|done].
  - rewrite filter_cons. pose proof (length_filter P l).
    case_decide; simpl; split.
    + intros ?. constructor; [done|]. apply IH. lia.
    + intros HF%Forall_cons. f_equal. apply IH. tauto.
    + lia.
    + intros HF%Forall_cons. tauto.
Qed.

(** The loop of cleanup_jobs: the counter drops by the number of slots
    purged, which is also the drop of the number of slots in use. *)
Lemma cleanup_loop_spec tbl n :
  Z.of_nat (length (filter in_use tbl)) ≤ n →
  INT_MIN < n - Z.of_nat (length (filter in_use tbl)) →
  ∃ tbl' n',
    cleanup_loop tbl n = Some (tbl', n') ∧
    length tbl' = length tbl ∧
    n' - Z.of_nat (length (filter in_use tbl'))
    = n - Z.of_nat (length (filter in_use tbl)).
Proof.
  revert n. induction tbl as [|j tbl IH]; intros n Hle Hmin; simpl.
  - eauto.
  - rewrite filter_cons in Hle, Hmin. unfold is_done.
    destruct (decide (in_use j)) as [Hu|Hu]; simpl in *.
    + rewrite bool_decide_eq_true_2 by done. simpl.
      case_bool_decide as Hd.
      * rewrite int_decr_Some by lia. simpl.
        destruct (IH (n - 1)) as (tbl' & n' & -> & Hlen & Hn); [lia..|].
        simpl. do 2 eexists. split; [done|]. simpl.
        rewrite filter_cons. rewrite decide_False by (unfold in_use; simpl; tauto).
        split; [lia|]. rewrite filter_cons, decide_True by done. simpl. lia.
      * destruct (IH n) as (tbl' & n' & -> & Hlen & Hn); [lia..|].
        simpl. do 2 eexists. split; [done|]. simpl.
        rewrite !filter_cons, !decide_True by done. simpl. split; lia.
    + rewrite bool_decide_eq_false_2 by done. simpl.
      destruct (IH n) as (tbl' & n' & -> & Hlen & Hn); [lia..|].
      simpl. do 2 eexists. split; [done|]. simpl.
      rewrite !filter_cons, !decide_False by done. split; lia.
Qed.

Lemma init_jobs_ok : table_ok init_jobs ∧ counted init_jobs.
Proof. split; [split|]; vm_compute; done. Qed.

Lemma used_le_max s :
  length (job_table s) = MAX_JOBS → (used_slots s ≤ MAX_JOBS)%nat.
Proof. intros <-. apply length_filter. Qed.

(** *** add_job *)

(** A full table: add_job fails and leaves the statics alone. *)
Lemma add_job_full pg cmd st ok s :
  length (job_table s) = MAX_JOBS →
  used_slots s = MAX_JOBS →
  add_job pg cmd st ok s = Some (-1, s).
Proof.
  intros Hlen Hfull. unfold add_job. case_decide; [done|].
  destruct (first_slot _ _) as [slot|] eqn:E; [|done].
  apply first_slot_Some in E as (_ & j & Hj & Hz & _).
  exfalso. rewrite used_slots_eq, <- Hlen in Hfull.
  apply (count_all in_use) in Hfull. rewrite Forall_forall in Hfull.
  apply (Hfull j); [|done]. apply list_elem_of_lookup. eauto.
Qed.

(** A table with a free slot, the allocation succeeding: the job goes to the
    lowest free slot and the return value is the ID taken from the counter. *)
Lemma add_job_stores pg cmd st s :
  table_ok s → counted s →
  (used_slots s < MAX_JOBS)%nat →
  next_job_id s < INT_MAX →
  ∃ slot j,
    job_table s !! slot = Some j ∧ job_id j = 0 ∧
    (∀ k j', (k < slot)%nat → job_table s !! k = Some j' → job_id j' ≠ 0) ∧
    add_job pg cmd st true s =
      Some (next_job_id s,
            {| job_table :=
                 <[slot := {| job_id := next_job_id s; pgid := pg;
                              command := Some cmd; status := st |}]>
                   (job_table s);
               next_job_id := next_job_id s + 1;
               num_jobs := num_jobs s + 1 |}).
Proof.
  intros [Hlen Hnext] Hc Hused Hmax. unfold add_job.
  rewrite decide_False by (rewrite Hc; unfold MAX_JOBS in *; lia).
  destruct (first_slot _ _) as [slot|] eqn:E.
  - apply first_slot_Some in E as (Hslot & j & Hj & Hz & Hmin).
    exists slot, j. split_and!; [done..| |].
    + intros k j' Hk Hj' Hz'. by apply (Hmin k j').
    + rewrite (int_incr_Some (next_job_id s)) by done. simpl.
      rewrite (int_incr_Some (num_jobs s)); [done|].
      rewrite Hc. unfold INT_MAX, MAX_JOBS in *. lia.
  - exfalso. rewrite used_slots_eq in Hused.
    assert (Forall in_use (job_table s)) as HF.
    { apply Forall_lookup. intros k j Hj Hz.
      apply (first_slot_None _ _ E k j); [|done..].
      rewrite <- Hlen. by eapply lookup_lt_Some. }
    apply (count_all in_use) in HF. lia.
Qed.

Lemma add_job_counted pg cmd st s :
  table_ok s → counted s → next_job_id s < INT_MAX →
  ∃ r s', add_job pg cmd st true s = Some (r, s') ∧
          table_ok s' ∧ counted s'.
Proof.
  intros Hok Hc Hmax.
  destruct (decide (used_slots s < MAX_JOBS)%nat) as [Hlt|Hge].
  - destruct (add_job_stores pg cmd st s Hok Hc Hlt Hmax)
      as (slot & j & Hj & Hz & _ & ->).
    do 2 eexists. split; [done|]. destruct Hok as [Hlen Hnext].
    split; [split; simpl; [by rewrite length_insert|lia]|].
    unfold counted in *. rewrite used_slots_eq in *. simpl.
    pose proof (count_insert in_use (job_table s) slot j
      {| job_id := next_job_id s; pgid := pg;
         command := Some cmd; status := st |} Hj) as Hcnt.
    rewrite decide_False in Hcnt by (unfold in_use; tauto).
    rewrite decide_True in Hcnt by (unfold in_use; simpl; lia).
    lia.
  - destruct Hok as [Hlen Hnext].
    pose proof (used_le_max s Hlen).
    rewrite add_job_full by (done || lia).
    exists (-1), s. split_and!; done.
Qed.

(** *** remove_job *)

Lemma remove_job_counted id s :
  id ≠ 0 → table_ok s → counted s →
  ∃ s', remove_job id s = Some s' ∧ table_ok s' ∧ counted s'.
Proof.
  intros Hid [Hlen Hnext] Hc. unfold remove_job.
  destruct (first_slot _ _) as [i|] eqn:E;
    [|exists s; split_and!; done].
  apply first_slot_Some in E as (Hi & j & Hj & Hjid & _).
  pose proof (count_insert in_use (job_table s) i j empty_slot Hj) as Hcnt.
  rewrite decide_True in Hcnt by (unfold in_use; congruence).
  rewrite decide_False in Hcnt by (unfold in_use; simpl; tauto).
  unfold counted in *. rewrite used_slots_eq in *.
  rewrite int_decr_Some by (unfold INT_MIN; lia). simpl.
  eexists. split; [done|].
  split; [split; simpl; [by rewrite length_insert|done]|].
  rewrite used_slots_eq. simpl. lia.
Qed.

(** *** cleanup_jobs *)

Lemma cleanup_jobs_counted s :
  table_ok s → counted s →
  ∃ s', cleanup_jobs s = Some s' ∧ table_ok s' ∧ counted s'.
Proof.
  intros [Hlen Hnext] Hc. unfold cleanup_jobs.
  rewrite take_ge, drop_ge by lia.
  unfold counted in Hc. rewrite used_slots_eq in Hc.
  destruct (cleanup_loop_spec (job_table s) (num_jobs s))
    as (tbl' & n' & -> & Hlen' & Hn); [unfold INT_MIN; lia..|].
  simpl. eexists. split; [done|]. rewrite app_nil_r.
  split; [split; simpl; [congruence|done]|].
  unfold counted. rewrite used_slots_eq. simpl. lia.
Qed.

(** *** The ID counter along a session *)

Lemma int_incr_inv x y : int_incr x = Some y → y = x + 1 ∧ x < INT_MAX.
Proof. unfold int_incr. case_decide; naive_solver. Qed.

Lemma int_decr_inv x y : int_decr x = Some y → y = x - 1 ∧ INT_MIN < x.
Proof. unfold int_decr. case_decide; naive_solver. Qed.

(** add_job either fails with -1, the counter not going down, or returns
    the counter and advances it by one. *)
Lemma add_job_next pg cmd st ok s r s' :
  add_job pg cmd st ok s = Some (r, s') →
  (r = -1 ∧ next_job_id s ≤ next_job_id s') ∨
  (r = next_job_id s ∧ next_job_id s' = next_job_id s + 1).
Proof.
  unfold add_job. intros H.
  case_decide; [simplify_eq; left; lia|].
  destruct (first_slot _ _) as [slot|]; [|simplify_eq; left; lia].
  destruct (int_incr (next_job_id s)) as [n'|] eqn:E1; [|done].
  apply int_incr_inv in E1 as [-> _]. simpl in H.
  destruct ok.
  - destruct (int_incr (num_jobs s)) as [m'|]; [|done].
    simpl in H. simplify_eq. right. simpl. done.
  - simplify_eq. left. simpl. lia.
Qed.

Lemma add_job_ids_below pg cmd st ok s r s' :
  1 ≤ next_job_id s → ids_below s →
  add_job pg cmd st ok s = Some (r, s') → ids_below s'.
Proof.
  unfold add_job, ids_below. intros Hn Hb H.
  case_decide; [by simplify_eq|].
  destruct (first_slot _ _) as [slot|]; [|by simplify_eq].
  destruct (int_incr (next_job_id s)) as [n'|] eqn:E1; [|done].
  apply int_incr_inv in E1 as [-> _]. simpl in H.
  assert (Forall (λ j, job_id j < next_job_id s + 1) (job_table s)) as Hb'.
  { eapply Forall_impl; [done|]. simpl. intros. lia. }
  destruct ok.
  - destruct (int_incr (num_jobs s)) as [m'|]; [|done].
    simpl in H. simplify_eq. simpl.
    apply Forall_insert; [done|]. simpl. lia.
  - simplify_eq. simpl. apply Forall_alter; [done|]. simpl. intros. lia.
Qed.

Lemma remove_job_next id s s' :
  remove_job id s = Some s' → next_job_id s' = next_job_id s.
Proof.
  unfold remove_job. intros H. destruct (first_slot _ _); [|by simplify_eq].
  destruct (int_decr _); simplify_eq/=. done.
Qed.

Lemma remove_job_ids_below id s s' :
  1 ≤ next_job_id s → ids_below s →
  remove_job id s = Some s' → ids_below s'.
Proof.
  unfold remove_job, ids_below. intros Hn Hb H.
  destruct (first_slot _ _); [|by simplify_eq].
  destruct (int_decr _); simplify_eq/=.
  apply Forall_insert; [done|]. simpl. lia.
Qed.

Lemma cleanup_loop_Forall (Q : Job → Prop) tbl n tbl' n' :
  (∀ j, Q j → Q (purged j)) →
  Forall Q tbl → cleanup_loop tbl n = Some (tbl', n') → Forall Q tbl'.
Proof.
  intros HQ. revert n tbl' n'.
  induction tbl as [|j tbl IH]; intros n tbl' n' HF H; simpl in H.
  - by simplify_eq.
  - apply Forall_cons in HF as [Hj HF]. destruct (is_done j).
    + destruct (int_decr n) as [m|]; [|done]. simpl in H.
      destruct (cleanup_loop tbl m) as [[t k]|] eqn:E; [|done].
      simpl in H. simplify_eq. constructor; eauto.
    + destruct (cleanup_loop tbl n) as [[t k]|] eqn:E; [|done].
      simpl in H. simplify_eq. constructor; eauto.
Qed.

Lemma cleanup_jobs_next s s' :
  cleanup_jobs s = Some s' → next_job_id s' = next_job_id s.
Proof.
  unfold cleanup_jobs. intros H.
  destruct (cleanup_loop _ _) as [[t k]|]; simplify_eq/=. done.
Qed.

Lemma cleanup_jobs_ids_below s s' :
  1 ≤ next_job_id s → ids_below s →
  cleanup_jobs s = Some s' → ids_below s'.
Proof.
  unfold cleanup_jobs, ids_below. intros Hn Hb H.
  destruct (cleanup_loop _ _) as [[t k]|] eqn:E; simplify_eq/=.
  rewrite <- (take_drop MAX_JOBS (job_table s)) in Hb.
  apply Forall_app in Hb as [Hb1 Hb2]. apply Forall_app. split; [|done].
  refine (cleanup_loop_Forall _ _ _ _ _ _ Hb1 E). simpl. intros. lia.
Qed.

Lemma update_job_status_ids_below id st s :
  ids_below s → ids_below (update_job_status id st s).
Proof.
  unfold update_job_status, ids_below. intros Hb.
  destruct (find_job id s); [|done]. simpl. apply Forall_alter; [done|].
  by intros [].
Qed.

Lemma update_job_status_by_pgid_ids_below pg st s :
  ids_below s → ids_below (update_job_status_by_pgid pg st s).
Proof.
  unfold update_job_status_by_pgid, ids_below. intros Hb.
  destruct (find_job_by_pgid pg s); [|done]. simpl.
  apply Forall_alter; [done|]. by intros [].
Qed.

Lemma update_job_status_next id st s :
  next_job_id (update_job_status id st s) = next_job_id s.
Proof. unfold update_job_status. by destruct (find_job id s). Qed.

Lemma update_job_status_by_pgid_next pg st s :
  next_job_id (update_job_status_by_pgid pg st s) = next_job_id s.
Proof.
  unfold update_job_status_by_pgid. by destruct (find_job_by_pgid pg s).
Qed.

(** One call: the counter does not go down, the table stays below it, and a
    returned ID is the old counter, the new one being one more. *)
Lemma run_op_next o s r s' :
  1 ≤ next_job_id s → ids_below s →
  run_op o s = Some (r, s') →
  next_job_id s ≤ next_job_id s' ∧ ids_below s' ∧
  ∀ v, r = Some v → v ≠ -1 →
       v = next_job_id s ∧ next_job_id s' = next_job_id s + 1.
Proof.
  intros Hn Hb H. destruct o as [pg cmd st ok|id| |id st|pg st]; simpl in H.
  - destruct (add_job pg cmd st ok s) as [[r0 s0]|] eqn:E; simplify_eq/=.
    pose proof (add_job_ids_below _ _ _ _ _ _ _ Hn Hb E).
    apply add_job_next in E. split_and!; [lia|done|].
    intros v [= <-] Hv. destruct E as [[? ?]|[? ?]]; [done|]. done.
  - destruct (remove_job id s) as [s0|] eqn:E; simplify_eq/=.
    pose proof (remove_job_ids_below _ _ _ Hn Hb E).
    apply remove_job_next in E. split_and!; [lia|done|done].
  - destruct (cleanup_jobs s) as [s0|] eqn:E; simplify_eq/=.
    pose proof (cleanup_jobs_ids_below _ _ Hn Hb E).
    apply cleanup_jobs_next in E. split_and!; [lia|done|done].
  - simplify_eq. split_and!; [|by apply update_job_status_ids_below|done].
    rewrite update_job_status_next. lia.
  - simplify_eq.
    split_and!; [|by apply update_job_status_by_pgid_ids_below|done].
    rewrite update_job_status_by_pgid_next. lia.
Qed.

(** A session from any state with a positive counter: the IDs returned lie
    between the counter before and the counter after, in increasing order. *)
Lemma run_ops_ids ops s rets s' :
  1 ≤ next_job_id s → ids_below s →
  run_ops ops s = Some (rets, s') →
  next_job_id s ≤ next_job_id s' ∧ ids_below s' ∧
  StronglySorted Z.lt (returned_ids rets) ∧
  Forall (λ r, next_job_id s ≤ r < next_job_id s') (returned_ids rets).
Proof.
  revert s rets s'. induction ops as [|o ops IH]; intros s rets s' Hn Hb H.
  - simpl in H. simplify_eq. split_and!; [lia|done|constructor..].
  - simpl in H.
    destruct (run_op o s) as [[r s1]|] eqn:E1; [|done]. simpl in H.
    destruct (run_ops ops s1) as [[rs s2]|] eqn:E2; [|done].
    simpl in H. simplify_eq.
    apply run_op_next in E1 as (Hle & Hb1 & Hr); [|done..].
    apply IH in E2 as (Hle2 & Hb2 & Hs & Hf); [|lia|done].
    split_and!; [lia|done|..].
    + destruct r as [v|]; [|done]. unfold returned_ids.
      rewrite filter_cons. case_decide as Hv; [|done].
      destruct (Hr v eq_refl Hv) as [-> Hs1].
      constructor; [done|]. eapply Forall_impl; [done|]. simpl. lia.
    + assert (Forall (λ r, next_job_id s ≤ r < next_job_id s')
                (returned_ids rs)) as Hf'.
      { eapply Forall_impl; [done|]. simpl. lia. }
      destruct r as [v|]; [|done]. unfold returned_ids.
      rewrite filter_cons. case_decide as Hv; [|done].
      destruct (Hr v eq_refl Hv) as [-> Hs1].
      constructor; [lia|done].
Qed.

Lemma StronglySorted_lt_NoDup (l : list Z) : StronglySorted Z.lt l → NoDup l.
Proof.
  induction 1 as [|x l Hs IH Hf]; constructor; [|done].
  intros Hx. rewrite Forall_forall in Hf. specialize (Hf x Hx). lia.
Qed.

(** *** Sessions are defined

    No counter leaves the range of [int] in a session of at most
    [session_bound] calls: each call advances the ID counter by at most one
    and lowers num_jobs by at most MAX_JOBS. *)

Lemma cleanup_loop_defined tbl n :
  INT_MIN + Z.of_nat (length tbl) < n →
  ∃ tbl' n', cleanup_loop tbl n = Some (tbl', n') ∧
             length tbl' = length tbl ∧
             n - Z.of_nat (length tbl) ≤ n'.
Proof.
  revert n. induction tbl as [|j tbl IH]; intros n Hn; simpl in *.
  - exists [], n. split_and!; [done..|lia].
  - destruct (is_done j).
    + rewrite int_decr_Some by lia. simpl.
      destruct (IH (n - 1)) as (t & m & -> & Hl & Hm); [lia|].
      simpl. exists (purged j :: t), m. split_and!; [done|simpl; lia|lia].
    + destruct (IH n) as (t & m & -> & Hl & Hm); [lia|].
      simpl. exists (j :: t), m. split_and!; [done|simpl; lia|lia].
Qed.

Lemma run_op_defined o k s :
  0 ≤ k < session_bound → bounded k s →
  ∃ r s', run_op o s = Some (r, s') ∧ bounded (k + 1) s'.
Proof.
  unfold session_bound. intros Hk (Hlen & Hnext & Hnum).
  assert (bounded (k + 1) s) as Hsame by (split_and!; [done|lia..]).
  destruct o as [pg cmd st ok|id| |id st|pg st]; simpl.
  - unfold add_job. case_decide as Hfull; [simpl; eauto|].
    destruct (first_slot _ _) as [slot|]; [|simpl; eauto].
    rewrite (int_incr_Some (next_job_id s)) by (unfold INT_MAX; lia). simpl.
    destruct ok.
    + rewrite (int_incr_Some (num_jobs s))
        by (unfold INT_MAX, MAX_JOBS in *; lia).
      simpl.
      do 2 eexists. split; [done|].
      split_and!; simpl; [by rewrite length_insert|lia..].
    + do 2 eexists. split; [done|].
      split_and!; simpl; [by rewrite length_alter|lia..].
  - unfold remove_job. destruct (first_slot _ _) as [i|]; [|simpl; eauto].
    rewrite int_decr_Some by (unfold INT_MIN; lia). simpl.
    do 2 eexists. split; [done|].
    split_and!; simpl; [by rewrite length_insert|lia..].
  - unfold cleanup_jobs.
    pose proof (length_take_le (job_table s) MAX_JOBS) as Htake.
    destruct (cleanup_loop_defined (take MAX_JOBS (job_table s)) (num_jobs s))
      as (t & m & -> & Hl & Hm).
    { rewrite length_take. unfold INT_MIN, MAX_JOBS. lia. }
    simpl. do 2 eexists. split; [done|].
    rewrite length_take in Hl, Hm.
    split_and!; simpl;
      [rewrite length_app, Hl, length_drop; lia|lia..|].
    unfold MAX_JOBS in *. lia.
  - unfold update_job_status. destruct (find_job id s); [|eauto].
    do 2 eexists. split; [done|].
    split_and!; simpl; [by rewrite length_alter|lia..].
  - unfold update_job_status_by_pgid.
    destruct (find_job_by_pgid pg s); [|eauto].
    do 2 eexists. split; [done|].
    split_and!; simpl; [by rewrite length_alter|lia..].
Qed.

Lemma run_ops_defined ops k s :
  0 ≤ k → k + Z.of_nat (length ops) ≤ session_bound →
  bounded k s → is_Some (run_ops ops s).
Proof.
  revert k s. induction ops as [|o ops IH]; intros k s Hk Hlen Hb; simpl.
  - done.
  - simpl in Hlen.
    destruct (run_op_defined o k s) as (r & s1 & -> & Hb1); [lia|done|].
    simpl. destruct (IH (k + 1) s1) as [[rs s2] ->]; [lia..|done|].
    simpl. done.
Qed.

Lemma init_jobs_bounded : bounded 0 init_jobs.
Proof. split_and!; vm_compute; done. Qed.

Lemma init_jobs_ids_below : ids_below init_jobs.
Proof.
  unfold ids_below. change (job_table init_jobs) with (replicate MAX_JOBS empty_slot).
  apply Forall_replicate. simpl. lia.
Qed.

(** ** The statements about the job table *)

(** C6: in every session after init_jobs (any calls of add_job, remove_job,
    cleanup_jobs and of the status updates, allocation failing or not), the
    job IDs returned by the successful add_job calls are strictly increasing
    and positive, no ID is returned twice, and every ID returned or still in
    the table is below the counter the next ID comes from, removed and purged
    jobs included. The session is defined (no [int] overflows) when it has at
    most [session_bound] calls. *)
Theorem job_ids_strictly_increasing (ops : list job_op) :
  (Z.of_nat (length ops) ≤ session_bound → is_Some (run_ops ops init_jobs)) ∧
  ∀ rets s,
    run_ops ops init_jobs = Some (rets, s) →
    StronglySorted Z.lt (returned_ids rets) ∧
    Forall (λ r, 0 < r) (returned_ids rets) ∧
    NoDup (returned_ids rets) ∧
    Forall (λ r, r < next_job_id s) (returned_ids rets) ∧
    Forall (λ j, job_id j < next_job_id s) (job_table s).
Proof.
  split.
  - intros Hlen. apply (run_ops_defined ops 0); [lia|lia|].
    apply init_jobs_bounded.
  - intros rets s H.
    apply run_ops_ids in H as (_ & Hb & Hs & Hf);
      [|simpl; lia|apply init_jobs_ids_below].
    split_and!; [done| |by apply StronglySorted_lt_NoDup| |done].
    + eapply Forall_impl; [done|]. simpl. lia.
    + eapply Forall_impl; [done|]. simpl. lia.
Qed.

Lemma job_ids_strictly_increasing_witness :
  ∃ rets s,
    run_ops sample_session init_jobs = Some (rets, s) ∧
    rets = [1; 2; -1; 4] ∧
    StronglySorted Z.lt (returned_ids rets).
Proof.
  eexists _, ?[s0]. split; [vm_compute; reflexivity|]. split; [reflexivity|].
  eapply (proj2 (job_ids_strictly_increasing sample_session)).
  vm_compute. reflexivity.
Defined.

(** C7 (the code departs from it): when [strdup] fails, add_job returns the
    failure value -1 after it has written the slot and advanced the ID
    counter: on this failure the table is changed. From the statics
    of init_jobs, slot 0 is left holding job ID 1 with a NULL command, the
    counter is 2, and num_jobs (0) no longer counts the slots in use (1). *)
Theorem add_job_strdup_failure_changes_table :
  ∃ s', add_job 4242 "sleep 10" JOB_RUNNING false init_jobs = Some (-1, s') ∧
        job_table s' !! 0%nat =
          Some {| job_id := 1; pgid := 4242; command := None;
                  status := JOB_DONE |} ∧
        job_table init_jobs !! 0%nat = Some empty_slot ∧
        next_job_id s' = 2 ∧ next_job_id init_jobs = 1 ∧
        num_jobs s' = 0 ∧ used_slots s' = 1%nat.
Proof. eexists. split; [vm_compute; reflexivity|]. by vm_compute. Qed.

(** C9: after init_jobs num_jobs equals the number of slots in use, and a
    call of add_job whose allocation succeeds, a call of remove_job on a job
    ID (job IDs start at 1; 0 marks a free slot) and a call of cleanup_jobs
    each return with the equality still true. The statics are those of the C
    program: MAX_JOBS slots and a positive ID counter. *)
Theorem num_jobs_counts_used_slots :
  (table_ok init_jobs ∧ counted init_jobs) ∧
  (∀ pg cmd st s,
     table_ok s → counted s → next_job_id s < INT_MAX →
     ∃ r s', add_job pg cmd st true s = Some (r, s') ∧
             table_ok s' ∧ counted s') ∧
  (∀ id s,
     id ≠ 0 → table_ok s → counted s →
     ∃ s', remove_job id s = Some s' ∧ table_ok s' ∧ counted s') ∧
  (∀ s,
     table_ok s → counted s →
     ∃ s', cleanup_jobs s = Some s' ∧ table_ok s' ∧ counted s').
Proof.
  split; [|split; [|split]].
  - apply init_jobs_ok.
  - apply add_job_counted.
  - apply remove_job_counted.
  - apply cleanup_jobs_counted.
Qed.

Lemma num_jobs_counts_used_slots_witness :
  (∃ r s', add_job 4001 "sleep 10" JOB_DONE true init_jobs = Some (r, s') ∧
           table_ok s' ∧ counted s') ∧
  (∃ s', remove_job 1 one_job_table = Some s' ∧ table_ok s' ∧ counted s') ∧
  (∃ s', cleanup_jobs one_job_table = Some s' ∧ table_ok s' ∧ counted s').
Proof.
  destruct num_jobs_counts_used_slots as ((Hok & Hc) & Hadd & Hrem & Hclean).
  assert (table_ok one_job_table) as Hok1.
  { split; [reflexivity|]. simpl. lia. }
  assert (counted one_job_table) as Hc1 by reflexivity.
  split; [|split].
  - apply Hadd; [exact Hok|exact Hc|vm_compute; reflexivity].
  - apply Hrem; [lia|exact Hok1|exact Hc1].
  - apply Hclean; [exact Hok1|exact Hc1].
Defined.

(** remove_job called with 0, which is not a job ID, matches the first free
    slot and lowers num_jobs all the same. *)
Example remove_job_zero :
  ∃ s', remove_job 0 init_jobs = Some s' ∧
        num_jobs s' = -1 ∧ used_slots s' = 0%nat.
Proof. eexists. split; [vm_compute; reflexivity|]. by vm_compute. Qed.

End JobsFacts.

(** * Facts about the parser *)

Module ParserFacts.
Import Parser.

Local Open Scope string_scope.
Local Open Scope list_scope.

Lemma is_operator_false t :
  is_operator t = false → (t =? "|") = false ∧ is_word t = true.
Proof.
  unfold is_operator, is_word. intros H.
  repeat (apply orb_false_elim in H as [H ?]).
  split; [done|]. repeat (apply orb_false_iff; split); done || idtac.
  apply negb_true_iff. repeat (apply orb_false_iff; split); done.
Qed.

Lemma is_word_branches t :
  is_word t = true →
  (t =? "<") = false ∧ (t =? ">") = false ∧
  (t =? ">>") = false ∧ (t =? "&") = false.
Proof.
  unfold is_word. intros H. apply negb_true_iff in H.
  repeat (apply orb_false_elim in H as [H ?]). done.
Qed.

(** The loop over a list whose tokens, as far as the loop reads, are words:
    they go to argv until it holds MAX_ARGS - 1. *)
Lemma parse_command_loop_read_words ws a :
  Forall (λ t, is_word t = true)
    (take (MAX_ARGS - 1 - length (acc_argv a)) ws) →
  parse_command_loop ws a =
    Parsed (acc_command
              (with_argv
                 (acc_argv a ++ take (MAX_ARGS - 1 - length (acc_argv a)) ws)
                 a)).
Proof.
  change (MAX_ARGS - 1)%nat with 63%nat.
  revert a. induction ws as [|t ws IH]; intros a Hws; simpl.
  - rewrite take_nil, app_nil_r. by destruct a.
  - destruct (Nat.ltb_spec (length (acc_argv a)) 63) as [Hlt|Hge].
    + replace (63 - length (acc_argv a))%nat
        with (S (63 - (length (acc_argv a) + 1)))%nat in * by lia.
      simpl in Hws. apply Forall_cons in Hws as [Ht Hws].
      apply is_word_branches in Ht as (-> & -> & -> & ->).
      rewrite IH; simpl; rewrite length_app; simpl; [|done].
      unfold with_argv. simpl. do 3 f_equal.
      by rewrite <- app_assoc.
    + replace (63 - length (acc_argv a))%nat with 0%nat by lia.
      simpl. rewrite app_nil_r. by destruct a.
Qed.

(** A redirection recorded by the loop stays in the command. *)
Lemma parse_command_loop_keeps ws a c :
  parse_command_loop ws a = Parsed c →
  (is_Some (acc_input a) → is_Some (input_file c)) ∧
  (is_Some (acc_output a) → is_Some (output_file c)).
Proof.
  remember (length ws) as n eqn:Hn.
  revert ws a Hn. induction (lt_wf n) as [n _ IH]. intros ws a Hn H.
  assert (∀ c', Parsed c' = Parsed c → input_file c' = acc_input a →
                output_file c' = acc_output a →
                (is_Some (acc_input a) → is_Some (input_file c)) ∧
                (is_Some (acc_output a) → is_Some (output_file c))) as Hstop.
  { intros c' [= <-] -> ->. done. }
  destruct ws as [|t ws]; simpl in H; [by eapply Hstop|].
  destruct (_ <? _)%nat; [|by eapply Hstop].
  destruct (t =? "<").
  { destruct ws as [|f ws]; [done|]. destruct (acc_input a) eqn:Ei; [done|].
    eapply (IH (length ws)) in H; [|simpl in *; lia|done]. simpl in H.
    split; [by intros [? ?]|]. apply H. }
  destruct (t =? ">").
  { destruct ws as [|f ws]; [done|]. destruct (acc_output a) eqn:Eo; [done|].
    eapply (IH (length ws)) in H; [|simpl in *; lia|done]. simpl in H.
    split; [apply H|by intros [? ?]]. }
  destruct (t =? ">>").
  { destruct ws as [|f ws]; [done|]. destruct (acc_output a) eqn:Eo; [done|].
    eapply (IH (length ws)) in H; [|simpl in *; lia|done]. simpl in H.
    split; [apply H|by intros [? ?]]. }
  destruct (t =? "&").
  { destruct ws as [|f ws]; [by eapply Hstop|done]. }
  eapply (IH (length ws)) in H; [|simpl in *; lia|done]. apply H.
Qed.

(** A command without redirection and background flag was parsed from words
    alone, as far as the loop read. *)
Lemma parse_command_loop_plain ws a c :
  parse_command_loop ws a = Parsed c →
  input_file c = None → output_file c = None → background c = 0%Z →
  Forall (λ t, is_word t = true)
    (take (MAX_ARGS - 1 - length (acc_argv a)) ws).
Proof.
  change (MAX_ARGS - 1)%nat with 63%nat.
  remember (length ws) as n eqn:Hn.
  revert ws a Hn. induction (lt_wf n) as [n _ IH]. intros ws a Hn H Hi Ho Hb.
  destruct ws as [|t ws]; [by rewrite take_nil|]. simpl in H.
  destruct (Nat.ltb_spec (length (acc_argv a)) 63) as [Hlt|Hge];
    [|by replace (63 - length (acc_argv a))%nat with 0%nat by lia].
  destruct (t =? "<") eqn:E1.
  { destruct ws as [|f ws]; [done|]. destruct (acc_input a); [done|].
    apply parse_command_loop_keeps in H as [H _]. simpl in H.
    assert (is_Some (input_file c)) as [? ?] by (by apply H). congruence. }
  destruct (t =? ">") eqn:E2.
  { destruct ws as [|f ws]; [done|]. destruct (acc_output a); [done|].
    apply parse_command_loop_keeps in H as [_ H]. simpl in H.
    assert (is_Some (output_file c)) as [? ?] by (by apply H). congruence. }
  destruct (t =? ">>") eqn:E3.
  { destruct ws as [|f ws]; [done|]. destruct (acc_output a); [done|].
    apply parse_command_loop_keeps in H as [_ H]. simpl in H.
    assert (is_Some (output_file c)) as [? ?] by (by apply H). congruence. }
  destruct (t =? "&") eqn:E4.
  { destruct ws as [|f ws]; [|done]. by simplify_eq. }
  eapply (IH (length ws)) in H; [|simpl in *; lia|done..].
  simpl in H. rewrite length_app in H. simpl in H.
  replace (63 - length (acc_argv a))%nat
    with (S (63 - (length (acc_argv a) + 1)))%nat by lia.
  simpl. constructor; [|done].
  unfold is_word. by rewrite E1, E2, E3, E4.
Qed.

(** *** The splitting loop *)

Lemma split_loop_app pre rest seg cmds cmds' seg' :
  split_loop pre seg cmds = Parsed (cmds', seg') →
  split_loop (pre ++ rest) seg cmds = split_loop rest seg' cmds'.
Proof.
  revert seg cmds. induction pre as [|t pre IH]; intros seg cmds H; simpl in *.
  - by simplify_eq.
  - destruct (t =? "|").
    + destruct seg as [|s0 seg]; [done|].
      destruct (parse_command (s0 :: seg)); [|done]. by apply IH.
    + by apply IH.
Qed.

(** A segment that no continuation can save: the loop either reports its
    error at the next [|] or ends with the segment as the remaining tokens. *)
Lemma split_loop_doomed d post seg cmds :
  seg ≠ [] →
  (∀ more, parse_command (seg ++ more) = Rejected d) →
  split_loop post seg cmds = Rejected d ∨
  split_loop post seg cmds = Parsed (cmds, seg ++ post).
Proof.
  revert seg. induction post as [|t post IH]; intros seg Hne Hd; simpl.
  - right. by rewrite app_nil_r.
  - destruct (t =? "|").
    + left. destruct seg as [|s0 seg]; [done|].
      specialize (Hd []). rewrite app_nil_r in Hd. by rewrite Hd.
    + destruct (IH (seg ++ [t])) as [H|H].
      * by destruct seg.
      * intros more. rewrite <- app_assoc. apply Hd.
      * by left.
      * right. rewrite H. by rewrite <- app_assoc.
Qed.

Lemma has_background_spec toks :
  has_background toks = 1%Z ↔ last toks = Some "&".
Proof.
  unfold has_background. destruct (last toks) as [t|]; [|done].
  destruct (String.eqb_spec t "&") as [->|Hne]; [done|].
  split; [done|]. intros [= ?]. done.
Qed.

Lemma has_background_01 toks :
  has_background toks = 0%Z ∨ has_background toks = 1%Z.
Proof.
  unfold has_background. destruct (last toks) as [t|]; [|by left].
  destruct (t =? "&"); auto.
Qed.

Lemma parse_pipeline_background toks p :
  parse_pipeline toks = Parsed p → pl_background p = has_background toks.
Proof.
  unfold parse_pipeline. intros H.
  destruct (_ =? 0)%Z; [done|].
  destruct (split_loop toks [] []) as [[cmds remaining]|]; [|done].
  destruct remaining; [done|].
  destruct (parse_command _); [|done]. by simplify_eq.
Qed.

Lemma split_loop_words ws tail seg cmds :
  Forall (λ t, (t =? "|") = false) ws →
  split_loop (ws ++ tail) seg cmds = split_loop tail (seg ++ ws) cmds.
Proof.
  intros Hws. revert seg. induction Hws as [|t ws Ht Hws IH]; intros seg.
  - by rewrite app_nil_r.
  - simpl. rewrite Ht, IH, <- app_assoc. done.
Qed.

Lemma pipe_count_nonneg toks : (pipe_count toks + 1 =? 0)%Z = false.
Proof. unfold pipe_count. apply Z.eqb_neq. lia. Qed.

Lemma last_snoc_take (l : list string) y :
  take (length (l ++ [y]) - 1) (l ++ [y]) = l.
Proof.
  rewrite length_app. simpl.
  replace (length l + 1 - 1)%nat with (length l) by lia.
  by rewrite take_app_length.
Qed.

(** What is copied for the last command still has a token after the [&]. *)
Lemma last_segment_keeps_amp bg ws x post :
  x :: post ≠ ["&"] →
  ∃ post', last_segment bg (ws ++ "&" :: x :: post) = ws ++ "&" :: x :: post'.
Proof.
  intros Hne. unfold last_segment.
  destruct (last (ws ++ "&" :: x :: post)) as [t|] eqn:Hlast; [|by eauto].
  destruct ((bg =? 1)%Z && (t =? "&")) eqn:Hstrip; [|by eauto].
  apply andb_true_iff in Hstrip as [_ Ht%String.eqb_eq]. subst t.
  destruct post as [|y post _] using rev_ind.
  - rewrite last_app in Hlast. simpl in Hlast. by simplify_eq.
  - exists post.
    replace (ws ++ "&" :: x :: post ++ [y])
      with ((ws ++ "&" :: x :: post) ++ [y]).
    + by rewrite last_snoc_take.
    + rewrite <- app_assoc. done.
Qed.

(** The loop never shrinks argv. *)
Lemma parse_command_loop_argv ws a c args :
  parse_command_loop ws a = Parsed c → argv c = Some args →
  (length (acc_argv a) ≤ length args)%nat.
Proof.
  remember (length ws) as n eqn:Hn.
  revert ws a Hn. induction (lt_wf n) as [n _ IH]. intros ws a Hn H Hargs.
  assert (∀ c', Parsed c' = Parsed c → argv c' = Some (acc_argv a) →
                (length (acc_argv a) ≤ length args)%nat) as Hstop.
  { intros c' [= <-] Hc'. rewrite Hargs in Hc'. by simplify_eq. }
  destruct ws as [|t ws]; simpl in H; [by eapply Hstop|].
  destruct (_ <? _)%nat; [|by eapply Hstop].
  destruct (t =? "<").
  { destruct ws as [|f ws]; [done|]. destruct (acc_input a); [done|].
    eapply (IH (length ws)) in H; [done|simpl in *; lia|done|done]. }
  destruct (t =? ">").
  { destruct ws as [|f ws]; [done|]. destruct (acc_output a); [done|].
    eapply (IH (length ws)) in H; [done|simpl in *; lia|done|done]. }
  destruct (t =? ">>").
  { destruct ws as [|f ws]; [done|]. destruct (acc_output a); [done|].
    eapply (IH (length ws)) in H; [done|simpl in *; lia|done|done]. }
  destruct (t =? "&").
  { destruct ws as [|f ws]; [by eapply Hstop|done]. }
  eapply (IH (length ws)) in H; [|simpl in *; lia|done|done].
  simpl in H. rewrite length_app in H. simpl in H. lia.
Qed.

(** A prefix the loop accepts with room left in argv, then an [&] that is
    not the last token of the array: the [&] is reported. *)
Lemma parse_command_loop_amp_after ws a c args x rest :
  parse_command_loop ws a = Parsed c → argv c = Some args →
  (length args < MAX_ARGS - 1)%nat →
  parse_command_loop (ws ++ "&" :: x :: rest) a = Rejected (Some AmpNotAtEnd).
Proof.
  change (MAX_ARGS - 1)%nat with 63%nat.
  remember (length ws) as n eqn:Hn.
  revert ws a Hn. induction (lt_wf n) as [n _ IH].
  intros ws a Hn H Hargs Hlen.
  pose proof (parse_command_loop_argv _ _ _ _ H Hargs) as Hmono.
  destruct ws as [|t ws]; simpl in *.
  { destruct (Nat.ltb_spec (length (acc_argv a)) 63); [done|lia]. }
  destruct (Nat.ltb_spec (length (acc_argv a)) 63); [|lia].
  destruct (t =? "<").
  { destruct ws as [|f ws]; [done|]. simpl.
    destruct (acc_input a); [done|].
    eapply IH; [|done|done|done|done]. simpl in *. lia. }
  destruct (t =? ">").
  { destruct ws as [|f ws]; [done|]. simpl.
    destruct (acc_output a); [done|].
    eapply IH; [|done|done|done|done]. simpl in *. lia. }
  destruct (t =? ">>").
  { destruct ws as [|f ws]; [done|]. simpl.
    destruct (acc_output a); [done|].
    eapply IH; [|done|done|done|done]. simpl in *. lia. }
  destruct (t =? "&").
  { destruct ws as [|f ws]; [done|done]. }
  eapply IH; [|done|done|done|done]. simpl in *. lia.
Qed.

Lemma parse_command_amp_after ws x rest :
  scanned_prefix ws →
  parse_command (ws ++ "&" :: x :: rest) = Rejected (Some AmpNotAtEnd).
Proof.
  intros [_ [->|(c & args & Hc & Hargs & Hlen)]]; [done|].
  unfold parse_command in *.
  destruct ws as [|t ws]; [done|].
  change ((t :: ws) ++ "&" :: x :: rest)
    with (t :: (ws ++ "&" :: x :: rest)).
  change (t :: (ws ++ "&" :: x :: rest))
    with ((t :: ws) ++ "&" :: x :: rest).
  by eapply parse_command_loop_amp_after.
Qed.

(** An [&] followed by a further token of its segment, reached by the scan:
    parse_pipeline reports it. *)
Lemma misplaced_amp_rejected pre cmds ws x post :
  split_loop pre [] [] = Parsed (cmds, []) →
  scanned_prefix ws →
  x ≠ "|" → x :: post ≠ ["&"] →
  parse_pipeline (pre ++ ws ++ "&" :: x :: post)
  = Rejected (Some AmpNotAtEnd).
Proof.
  intros Hpre Hws Hx Hne. unfold parse_pipeline.
  rewrite pipe_count_nonneg.
  rewrite (split_loop_app _ _ _ _ _ _ Hpre).
  rewrite split_loop_words by apply Hws. simpl.
  apply String.eqb_neq in Hx. rewrite Hx.
  destruct (split_loop_doomed (Some AmpNotAtEnd) post
              ((ws ++ ["&"]) ++ [x]) cmds) as [->| ->].
  - by destruct ws.
  - intros more. rewrite <- !app_assoc. simpl.
    by apply parse_command_amp_after.
  - done.
  - rewrite <- !app_assoc. simpl.
    destruct (ws ++ "&" :: x :: post) eqn:E; [by destruct ws|].
    rewrite <- E.
    destruct (last_segment_keeps_amp
                (has_background (pre ++ ws ++ "&" :: x :: post)) ws x post Hne)
      as [post' ->].
    by rewrite parse_command_amp_after.
Qed.

End ParserFacts.

(** * Facts about the lexer *)

Module LexerFacts.
Import Parser.

Local Open Scope char_scope.
Local Open Scope list_scope.

(** *** Termination: the loop consumes its input *)

Lemma skip_space_length p : (length (skip_space p) ≤ length p)%nat.
Proof.
  induction p as [|c p IH]; simpl; [done|].
  destruct (isspace c); simpl; lia.
Qed.

Lemma scan_braced_length p name :
  (length (snd (scan_braced p name)) ≤ length p)%nat.
Proof.
  revert name. induction p as [|c p IH]; intros name; simpl; [done|].
  destruct (_ && _ && _); simpl; [|done]. specialize (IH (name ++ [c])). lia.
Qed.

Lemma scan_plain_length p name :
  (length (snd (scan_plain p name)) ≤ length p)%nat.
Proof.
  revert name. induction p as [|c p IH]; intros name; simpl; [done|].
  destruct (_ && _); simpl; [|done]. specialize (IH (name ++ [c])). lia.
Qed.

Lemma scan_variable_length p :
  (length (snd (scan_variable p)) ≤ length p)%nat.
Proof.
  unfold scan_variable.
  assert (∀ q, (length (snd (scan_plain q [])) ≤ length q)%nat) as Hplain
    by (intros; apply scan_plain_length).
  destruct p as [|c p]; [apply Hplain|].
  destruct (Ascii.eqb_spec c "{") as [->|Hne].
  - pose proof (scan_braced_length p []) as Hb.
    destruct (scan_braced p []) as [name q]. simpl in *.
    destruct q as [|c q]; [simpl; lia|].
    destruct (Ascii.eqb_spec c "}") as [->|Hne]; simpl in *; [lia|].
    destruct c as [[] [] [] [] [] [] [] []]; simpl; lia || done.
  - specialize (Hplain (c :: p)).
    destruct c as [[] [] [] [] [] [] [] []]; done.
Qed.

Lemma expand_into_length env p lx :
  (length (fst (expand_into env p lx)) ≤ length p)%nat.
Proof.
  unfold expand_into. pose proof (scan_variable_length p) as H.
  destruct (scan_variable p) as [name q]. simpl in H.
  by destruct (expand_variable env name).
Qed.

Lemma lex_step_length env c p lx :
  (length (fst (lex_step env c p lx)) ≤ length p)%nat.
Proof.
  unfold lex_step.
  pose proof (skip_space_length p). pose proof (expand_into_length env p lx).
  destruct (state lx);
    repeat match goal with
    | |- context [if ?b then _ else _] => destruct b
    end; simpl; lia.
Qed.

Lemma lex_loop_defined fuel env p lx :
  (length p < fuel)%nat → is_Some (lex_loop fuel env p lx).
Proof.
  revert p lx. induction fuel as [|fuel IH]; intros p lx Hlen; [lia|].
  simpl. destruct p as [|c p]; [done|].
  destruct (_ <? _)%nat; [|done].
  pose proof (lex_step_length env c p lx) as Hstep.
  destruct (lex_step env c p lx) as [q lx']. simpl in *.
  apply IH. lia.
Qed.

(** tokenize always returns. *)
Lemma tokenize_defined env heap input : is_Some (tokenize env heap input).
Proof.
  unfold tokenize. destruct (skip_space (c_str input)) as [|c p] eqn:E; [done|].
  apply fmap_is_Some, lex_loop_defined. lia.
Qed.

(** *** Blank lines *)

Lemma until_nul_spaces l : Forall (λ c, isspace c = true) l → until_nul l = l.
Proof.
  induction 1 as [|c l Hc _ IH]; simpl; [done|].
  destruct (Ascii.eqb_spec c NUL) as [->|_]; [done|]. by rewrite IH.
Qed.

Lemma skip_space_spaces l : Forall (λ c, isspace c = true) l → skip_space l = [].
Proof. induction 1 as [|c l Hc _ IH]; simpl; [done|]. by rewrite Hc. Qed.

(** *** The token under construction *)

Lemma put_char_appends c lx :
  (token_buf_pos lx < MAX_INPUT_SIZE - 1)%nat →
  length (token_buf lx) = MAX_INPUT_SIZE →
  current_token (put_char c lx) = current_token lx ++ [c] ∧
  token_buf_pos (put_char c lx) = S (token_buf_pos lx) ∧
  length (token_buf (put_char c lx)) = MAX_INPUT_SIZE ∧
  tokens (put_char c lx) = tokens lx ∧ state (put_char c lx) = state lx.
Proof.
  intros Hpos Hlen. unfold put_char, current_token.
  destruct (Nat.ltb_spec (token_buf_pos lx) (MAX_INPUT_SIZE - 1)); [|lia].
  simpl. split_and!; [|done|by rewrite length_insert|done..].
  erewrite take_S_r.
  - by rewrite take_insert_ge by lia.
  - apply list_lookup_insert_eq. unfold MAX_INPUT_SIZE in *. lia.
Qed.

Lemma put_char_full c lx :
  ¬ (token_buf_pos lx < MAX_INPUT_SIZE - 1)%nat → put_char c lx = lx.
Proof.
  intros Hpos. unfold put_char.
  by destruct (Nat.ltb_spec (token_buf_pos lx) (MAX_INPUT_SIZE - 1)).
Qed.

(** *** Two runs that differ in the content malloc left in token_buf *)

Lemma agree_put_char c lx1 lx2 :
  agree lx1 lx2 → agree (put_char c lx1) (put_char c lx2).
Proof.
  intros [Ht Hp Hs H1 H2 Hb Hc].
  destruct (decide (token_buf_pos lx1 < MAX_INPUT_SIZE - 1)%nat) as [Hlt|Hge].
  - destruct (put_char_appends c lx1) as (A1 & A2 & A3 & A4 & A5); [done..|].
    destruct (put_char_appends c lx2) as (B1 & B2 & B3 & B4 & B5);
      [lia|done|].
    split; try congruence. rewrite A2. unfold MAX_INPUT_SIZE in *. lia.
  - rewrite !put_char_full by lia. by split.
Qed.

Lemma agree_put_chars v lx1 lx2 :
  agree lx1 lx2 → agree (put_chars v lx1) (put_chars v lx2).
Proof.
  revert lx1 lx2. induction v as [|c v IH]; intros lx1 lx2 H; simpl; [done|].
  rewrite <- (agree_pos _ _ H).
  destruct (_ <? _)%nat; [|done]. by apply IH, agree_put_char.
Qed.

Lemma agree_set_state st lx1 lx2 :
  agree lx1 lx2 → agree (set_state st lx1) (set_state st lx2).
Proof. intros [Ht Hp Hs H1 H2 Hb Hc]. by split. Qed.

(** With a NUL written at [pos], what strdup copies lies before [pos]. *)
Lemma until_nul_insert_nul buf pos :
  (pos < length buf)%nat →
  until_nul (<[pos := NUL]> buf) = until_nul (take pos buf).
Proof.
  revert pos. induction buf as [|c buf IH]; intros [|pos] Hlen; simpl in *;
    [lia|lia|done|].
  destruct (c =? NUL); [done|]. f_equal. apply IH. lia.
Qed.

Lemma agree_commit_token lx1 lx2 :
  agree lx1 lx2 → agree (commit_token lx1) (commit_token lx2).
Proof.
  intros [Ht Hp Hs H1 H2 Hb Hc]. unfold commit_token.
  split; simpl; rewrite ?length_insert; try done.
  - unfold strdup. rewrite !until_nul_insert_nul by lia.
    unfold current_token in Hc. by rewrite Ht, Hc.
  - unfold MAX_INPUT_SIZE. lia.
Qed.

Lemma agree_expand_into env p lx1 lx2 :
  agree lx1 lx2 →
  fst (expand_into env p lx1) = fst (expand_into env p lx2) ∧
  agree (snd (expand_into env p lx1)) (snd (expand_into env p lx2)).
Proof.
  intros H. unfold expand_into. destruct (scan_variable p) as [name q].
  destruct (expand_variable env name); simpl; [|done].
  split; [done|]. by apply agree_put_chars.
Qed.

Lemma agree_lex_step env c p lx1 lx2 :
  agree lx1 lx2 →
  fst (lex_step env c p lx1) = fst (lex_step env c p lx2) ∧
  agree (snd (lex_step env c p lx1)) (snd (lex_step env c p lx2)).
Proof.
  intros H. unfold lex_step.
  rewrite <- (agree_state _ _ H), <- (agree_pos _ _ H).
  pose proof (agree_expand_into env p _ _ H) as [He1 He2].
  destruct (state lx1);
    repeat match goal with
    | |- context [if ?b then _ else _] => destruct b
    end; simpl;
    auto using agree_put_char, agree_set_state, agree_commit_token.
Qed.

Lemma agree_lex_loop fuel env p lx1 lx2 :
  agree lx1 lx2 →
  match lex_loop fuel env p lx1, lex_loop fuel env p lx2 with
  | Some r1, Some r2 => agree r1 r2
  | None, None => True
  | _, _ => False
  end.
Proof.
  revert p lx1 lx2. induction fuel as [|fuel IH]; intros p lx1 lx2 H; simpl;
    [done|].
  destruct p as [|c p]; [done|].
  rewrite <- (agree_tokens _ _ H).
  destruct (_ <? _)%nat; [|done].
  pose proof (agree_lex_step env c p _ _ H) as [Hq Ha].
  destruct (lex_step env c p lx1) as [q1 l1].
  destruct (lex_step env c p lx2) as [q2 l2]. simpl in *. subst q2.
  by apply IH.
Qed.

Lemma agree_finish lx1 lx2 : agree lx1 lx2 → finish lx1 = finish lx2.
Proof.
  intros H. unfold finish.
  rewrite <- (agree_state _ _ H), <- (agree_pos _ _ H).
  destruct (state lx1); [|done..].
  destruct (_ <? _)%nat.
  - by rewrite (agree_tokens _ _ (agree_commit_token _ _ H)).
  - by rewrite (agree_tokens _ _ H).
Qed.

Lemma tokenize_heap_independent env heap1 heap2 input :
  length heap1 = MAX_INPUT_SIZE → length heap2 = MAX_INPUT_SIZE →
  tokenize env heap1 input = tokenize env heap2 input.
Proof.
  intros H1 H2. unfold tokenize.
  destruct (skip_space (c_str input)) as [|c p]; [done|].
  set (fuel := S (length (c :: p))).
  pose proof (agree_lex_loop fuel env (c :: p)
    {| tokens := []; token_buf := heap1; token_buf_pos := 0%nat;
       state := STATE_NORMAL |}
    {| tokens := []; token_buf := heap2; token_buf_pos := 0%nat;
       state := STATE_NORMAL |}) as Hloop.
  destruct (lex_loop fuel env (c :: p) _) as [r1|];
    destruct (lex_loop fuel env (c :: p) _) as [r2|]; simpl.
  - f_equal. apply agree_finish, Hloop.
    split; simpl; try done. unfold MAX_INPUT_SIZE. lia.
  - exfalso. apply Hloop. split; simpl; try done. unfold MAX_INPUT_SIZE. lia.
  - exfalso. apply Hloop. split; simpl; try done. unfold MAX_INPUT_SIZE. lia.
  - done.
Qed.

Lemma tokenize_return_length env heap input r toks :
  tokenize env heap input = Some r → tk_tokens r = Some toks →
  tk_return r = Z.of_nat (length toks).
Proof.
  unfold tokenize. intros H Ht.
  destruct (skip_space (c_str input)); [by simplify_eq|].
  destruct (lex_loop _ _ _ _) as [lx|]; simplify_eq/=.
  unfold finish in *. destruct (state lx); simplify_eq/=. done.
Qed.

(** ** The statements about the lexer *)

(** *** A token that fills the buffer *)

Lemma letters_buffer_length k :
  (k ≤ MAX_INPUT_SIZE)%nat → length (letters_buffer k) = MAX_INPUT_SIZE.
Proof.
  intros Hk. unfold letters_buffer.
  rewrite length_app, !length_replicate. lia.
Qed.

Lemma until_nul_letters n l :
  until_nul (replicate n "a" ++ l) = replicate n "a" ++ until_nul l.
Proof. induction n as [|n IH]; simpl; [done|]. by rewrite IH. Qed.

Lemma letters_snoc k (l : list ascii) :
  replicate k "a" ++ "a" :: l = replicate (S k) "a" ++ l.
Proof. induction k as [|k IH]; simpl; [done|]. by rewrite IH. Qed.

Lemma put_letter k st :
  (k < MAX_INPUT_SIZE - 1)%nat →
  put_char "a" (after_letters k st) = after_letters (S k) st.
Proof.
  intros Hk. unfold put_char, after_letters. simpl token_buf_pos.
  destruct (Nat.ltb_spec k (MAX_INPUT_SIZE - 1)); [|lia].
  simpl token_buf. simpl tokens. simpl state. f_equal.
  unfold letters_buffer.
  rewrite insert_app_r_alt by (rewrite length_replicate; lia).
  rewrite length_replicate, Nat.sub_diag.
  replace (MAX_INPUT_SIZE - k)%nat with (S (MAX_INPUT_SIZE - S k))
    by (unfold MAX_INPUT_SIZE in *; lia).
  change (<[0%nat := "a"]> (replicate (S (MAX_INPUT_SIZE - S k)) "x"))
    with ("a" :: replicate (MAX_INPUT_SIZE - S k) "x").
  by rewrite letters_snoc.
Qed.

Lemma lex_loop_turn fuel env c p k st :
  lex_loop (S fuel) env (c :: p) (after_letters k st) =
    lex_loop fuel env (fst (lex_step env c p (after_letters k st)))
      (snd (lex_step env c p (after_letters k st))).
Proof.
  simpl. by destruct (lex_step env c p (after_letters k st)).
Qed.

Lemma lex_loop_letters n fuel env rest k :
  (k + n ≤ MAX_INPUT_SIZE - 1)%nat →
  lex_loop (n + fuel) env (replicate n "a" ++ rest)
    (after_letters k STATE_DOUBLE_QUOTE)
  = lex_loop fuel env rest (after_letters (k + n) STATE_DOUBLE_QUOTE).
Proof.
  revert k. induction n as [|n IH]; intros k Hk.
  - by rewrite Nat.add_0_r.
  - change (S n + fuel)%nat with (S (n + fuel)).
    change (replicate (S n) "a" ++ rest)
      with ("a" :: (replicate n "a" ++ rest)).
    rewrite lex_loop_turn.
    assert (lex_step env "a" (replicate n "a" ++ rest)
              (after_letters k STATE_DOUBLE_QUOTE)
            = (replicate n "a" ++ rest,
               put_char "a" (after_letters k STATE_DOUBLE_QUOTE))) as ->
      by done.
    cbn [fst snd]. rewrite put_letter by lia.
    rewrite IH by lia. do 2 f_equal. lia.
Qed.

(** C5 as stated fails at the size limit of a token: after the 4095 letters
    of [long_line] the lexer is in STATE_ESCAPE with a full buffer, the turn on
    the escaped [n] appends nothing, and the token of the line is the 4095
    letters alone. *)
Lemma escape_dropped_at_limit :
  ∃ lx,
    lex_loop (S (length long_prefix)) no_environment long_prefix
      {| tokens := []; token_buf := sample_heap; token_buf_pos := 0;
         state := STATE_NORMAL |} = Some lx ∧
    state lx = STATE_ESCAPE ∧
    token_buf_pos lx = (MAX_INPUT_SIZE - 1)%nat ∧
    current_token (snd (lex_step no_environment "n" [dquote] lx))
    = current_token lx ∧
    tokenize no_environment sample_heap long_line =
      Some {| tk_return := 1;
              tk_tokens :=
                Some [string_of_list_ascii
                        (replicate (MAX_INPUT_SIZE - 1) "a")];
              tk_stderr := None |}.
Proof.
  exists (after_letters (MAX_INPUT_SIZE - 1) STATE_ESCAPE).
  assert (∀ fuel rest,
            lex_loop (S (MAX_INPUT_SIZE - 1 + fuel)) no_environment
              (dquote :: replicate (MAX_INPUT_SIZE - 1) "a" ++ rest)
              {| tokens := []; token_buf := sample_heap; token_buf_pos := 0;
                 state := STATE_NORMAL |}
            = lex_loop fuel no_environment rest
                (after_letters (MAX_INPUT_SIZE - 1) STATE_DOUBLE_QUOTE))
    as Hletters.
  { intros fuel rest.
    change {| tokens := []; token_buf := sample_heap; token_buf_pos := 0;
              state := STATE_NORMAL |} with (after_letters 0 STATE_NORMAL).
    rewrite lex_loop_turn.
    change (lex_step no_environment dquote
              (replicate (MAX_INPUT_SIZE - 1) "a" ++ rest)
              (after_letters 0 STATE_NORMAL))
      with (replicate (MAX_INPUT_SIZE - 1) "a" ++ rest,
            after_letters 0 STATE_DOUBLE_QUOTE).
    cbn [fst snd]. by rewrite lex_loop_letters. }
  split_and!.
  - unfold long_prefix.
    rewrite length_cons, length_app, length_replicate. simpl length.
    replace (S (S (MAX_INPUT_SIZE - 1 + 1)))
      with (S (MAX_INPUT_SIZE - 1 + 2)) by lia.
    rewrite Hletters. rewrite lex_loop_turn. reflexivity.
  - reflexivity.
  - reflexivity.
  - reflexivity.
  - assert (skip_space (c_str long_line)
            = dquote :: replicate (MAX_INPUT_SIZE - 1) "a"
                          ++ ["\"; "n"; dquote]) as Hin.
    { unfold c_str, long_line, long_prefix.
      rewrite list_ascii_of_string_of_list_ascii.
      rewrite <- app_comm_cons, <- app_assoc.
      change (until_nul (dquote :: ?l)) with (dquote :: until_nul l).
      by rewrite until_nul_letters. }
    assert (length (dquote :: replicate (MAX_INPUT_SIZE - 1) "a"
                      ++ ["\"; "n"; dquote])
            = (MAX_INPUT_SIZE - 1 + 4)%nat) as Hlen.
    { rewrite length_cons, length_app, length_replicate. simpl length. lia. }
    unfold tokenize. rewrite Hin. cbv iota. rewrite Hlen.
    rewrite Hletters.
    rewrite lex_loop_turn.
    change (lex_step no_environment "\" ["n"; dquote]
              (after_letters (MAX_INPUT_SIZE - 1) STATE_DOUBLE_QUOTE))
      with (["n"; dquote], after_letters (MAX_INPUT_SIZE - 1) STATE_ESCAPE).
    cbn [fst snd]. rewrite lex_loop_turn.
    assert (lex_step no_environment "n" [dquote]
              (after_letters (MAX_INPUT_SIZE - 1) STATE_ESCAPE)
            = ([dquote], after_letters (MAX_INPUT_SIZE - 1) STATE_DOUBLE_QUOTE))
      as ->.
    { unfold lex_step. simpl state. by f_equal. }
    cbn [fst snd]. rewrite lex_loop_turn.
    change (lex_step no_environment dquote []
              (after_letters (MAX_INPUT_SIZE - 1) STATE_DOUBLE_QUOTE))
      with ([] : list ascii, after_letters (MAX_INPUT_SIZE - 1) STATE_NORMAL).
    cbn [fst snd]. reflexivity.
Qed.

(** C5, amended: inside double quotes, a backslash followed by a character
    [c] appends exactly one character to the current token as long as the
    token holds fewer than MAX_INPUT_SIZE - 1 bytes, and nothing once it holds
    that many: newline for n, tab for t, carriage return for r, and
    backslash, double quote, single quote and NUL for themselves and 0, [c]
    itself otherwise; in both cases the lexer passes through STATE_ESCAPE and
    is back in STATE_DOUBLE_QUOTE, at the character after [c]. *)
Theorem escape_appends_one env c p lx :
  state lx = STATE_DOUBLE_QUOTE →
  length (token_buf lx) = MAX_INPUT_SIZE →
  let r1 := lex_step env "\" (c :: p) lx in
  let r2 := lex_step env c p (snd r1) in
  (fst r1 = c :: p ∧ state (snd r1) = STATE_ESCAPE ∧
   current_token (snd r1) = current_token lx) ∧
  (fst r2 = p ∧ state (snd r2) = STATE_DOUBLE_QUOTE ∧
   tokens (snd r2) = tokens lx) ∧
  ((token_buf_pos lx < MAX_INPUT_SIZE - 1)%nat →
   current_token (snd r2) = current_token lx ++ [process_escape c]) ∧
  (¬ (token_buf_pos lx < MAX_INPUT_SIZE - 1)%nat →
   current_token (snd r2) = current_token lx) ∧
  (process_escape "n" = "010" ∧ process_escape "t" = "009" ∧
   process_escape "r" = "013" ∧ process_escape "\" = "\" ∧
   process_escape dquote = dquote ∧ process_escape "'" = "'" ∧
   process_escape "0" = NUL ∧
   (c ∉ ["n"; "t"; "r"; "\"; dquote; "'"; "0"] → process_escape c = c)).
Proof.
  intros Hst Hlen.
  assert (lex_step env "\" (c :: p) lx
          = (c :: p, set_state STATE_ESCAPE lx)) as ->.
  { unfold lex_step. by rewrite Hst. }
  cbn [fst snd].
  assert (lex_step env c p (set_state STATE_ESCAPE lx)
          = (p, set_state STATE_DOUBLE_QUOTE
                  (put_char (process_escape c) (set_state STATE_ESCAPE lx))))
    as -> by done.
  cbn [fst snd]. split_and!; try done.
  - destruct (decide (token_buf_pos lx < MAX_INPUT_SIZE - 1)%nat) as [Hpos|Hpos].
    + by destruct (put_char_appends (process_escape c)
                     (set_state STATE_ESCAPE lx)) as (_ & _ & _ & Htok & _).
    + by rewrite put_char_full.
  - intros Hpos.
    by destruct (put_char_appends (process_escape c)
                   (set_state STATE_ESCAPE lx)) as (Hcur & _).
  - intros Hpos. by rewrite put_char_full.
  - intros Hc. unfold process_escape.
    repeat match goal with
    | |- context [(c =? ?x)%char] =>
        destruct (Ascii.eqb_spec c x) as [->|?];
        [exfalso; apply Hc, list_elem_of_In; simpl; tauto|]
    end.
    done.
Qed.

Lemma escape_appends_one_witness :
  let lx := {| tokens := []; token_buf := sample_heap; token_buf_pos := 0;
               state := STATE_DOUBLE_QUOTE |} in
  let r1 := lex_step no_environment "\" ["t"; dquote] lx in
  let r2 := lex_step no_environment "t" [dquote] (snd r1) in
  current_token (snd r2) = ["009"] ∧ state (snd r2) = STATE_DOUBLE_QUOTE.
Proof.
  intros lx r1 r2.
  destruct (escape_appends_one no_environment "t" [dquote] lx)
    as (_ & (_ & Hs & _) & Hc & _); [reflexivity|reflexivity|].
  split; [apply Hc; unfold MAX_INPUT_SIZE; simpl; lia|exact Hs].
Defined.

(** An appended NUL ends the token when strdup copies it. *)
Example escaped_nul_ends_token :
  tokenize no_environment sample_heap
    (String dquote ("a\0b" ++ String dquote EmptyString)) =
    Some {| tk_return := 1; tk_tokens := Some ["a"%string];
            tk_stderr := None |}.
Proof. by vm_compute. Qed.

(** C8: tokenize is a function of the input line and of the environment
    alone: it always returns, and two runs on the same line in the same
    environment return the same value, the same token array and the same
    diagnostic, whatever the block of MAX_INPUT_SIZE bytes that malloc hands
    out for token_buf holds each time. *)
Theorem tokenize_deterministic env heap1 heap2 input :
  length heap1 = MAX_INPUT_SIZE → length heap2 = MAX_INPUT_SIZE →
  ∃ r, tokenize env heap1 input = Some r ∧ tokenize env heap2 input = Some r.
Proof.
  intros H1 H2. destruct (tokenize_defined env heap1 input) as [r Hr].
  exists r. split; [done|].
  by rewrite <- (tokenize_heap_independent env heap1 heap2).
Qed.

Lemma tokenize_deterministic_witness :
  ∃ r, tokenize no_environment sample_heap "echo 'a b' c" = Some r ∧
       tokenize no_environment (replicate MAX_INPUT_SIZE "y")
         "echo 'a b' c" = Some r.
Proof.
  apply tokenize_deterministic; vm_compute; reflexivity.
Defined.

(** C10: on an empty line and on a line of whitespace only, tokenize
    returns 0, stores NULL for the token array and prints no diagnostic. *)
Theorem blank_line_no_tokens env heap input :
  Forall (λ c, isspace c = true) (list_ascii_of_string input) →
  tokenize env heap input =
    Some {| tk_return := 0; tk_tokens := None; tk_stderr := None |}.
Proof.
  intros Hsp. unfold tokenize, c_str.
  rewrite until_nul_spaces by done. by rewrite skip_space_spaces.
Qed.

Lemma blank_line_no_tokens_witness :
  tokenize no_environment sample_heap "   " =
    Some {| tk_return := 0; tk_tokens := None; tk_stderr := None |}.
Proof.
  apply blank_line_no_tokens. repeat constructor.
Defined.

End LexerFacts.

(** * The statements about the parser *)

Module ParserStatements.
Import Parser ParserFacts LexerFacts.

Local Open Scope string_scope.
Local Open Scope list_scope.

(** *** Quoting and operators *)

(** C2 as stated fails: the operator characters of these two lines are all
    inside quotes, yet the quoted [>] is taken as a redirection to the file f
    and the quoted [|] as a pipe between echo and f. *)
Lemma quoted_operator_interpreted :
  let redirected :=
    LineCommand {| argv := Some ["echo"]; input_file := None;
                   output_file := Some "f"; append_mode := 0;
                   background := 0 |} in
  let piped :=
    LinePipeline
      {| commands :=
           [{| argv := Some ["echo"]; input_file := None;
               output_file := None; append_mode := 0; background := 0 |};
            {| argv := Some ["f"]; input_file := None;
               output_file := None; append_mode := 0; background := 0 |}];
         num_commands := 2; pl_background := 0 |} in
  (operators_only_quoted quoted_redirect_line = true ∧
   read_line no_environment sample_heap quoted_redirect_line
   = LineParsed redirected ∧
   ¬ words_only redirected) ∧
  (operators_only_quoted quoted_pipe_line = true ∧
   read_line no_environment sample_heap quoted_pipe_line
   = LineParsed piped ∧
   ¬ words_only piped).
Proof.
  split; (split; [by vm_compute|split; [by vm_compute|]]);
    by intros [args ?].
Qed.

(** C2, amended: the parser goes by the spelling of a token alone, the lexer
    keeping no trace of quotes. On every line that has a token, every token
    is treated as a word (the line is one command without redirection or
    background flag) if and only if no token is spelled [|] and none of the
    first MAX_ARGS - 1 tokens is spelled [<], [>], [>>] or [&], quoted or
    not. So on a line none of whose tokens is spelled exactly as an operator
    (a quoted operator character sharing its token with other characters),
    the line is one command whose argv holds the tokens (the first
    MAX_ARGS - 1 of them). *)
Theorem spelling_decides env heap line r toks :
  tokenize env heap line = Some r → tk_tokens r = Some toks → toks ≠ [] →
  ((∃ l, read_line env heap line = LineParsed l ∧ words_only l) ↔
   (has_pipe toks = false ∧
    Forall (λ t, is_word t = true) (take (MAX_ARGS - 1) toks))) ∧
  (Forall (λ t, is_operator t = false) toks →
   read_line env heap line =
     LineParsed
       (LineCommand {| argv := Some (take (MAX_ARGS - 1) toks);
                       input_file := None; output_file := None;
                       append_mode := 0; background := 0 |})).
Proof.
  intros Hr Htoks Hne.
  assert (read_line env heap line =
          match shell_parse toks with
          | Parsed l => LineParsed l
          | Rejected d => LineParseError d
          end) as Hread.
  { unfold read_line. rewrite Hr.
    rewrite (tokenize_return_length _ _ _ _ _ Hr Htoks), Htoks.
    destruct (Z.ltb_spec (Z.of_nat (length toks)) 0); [lia|].
    destruct (Z.eqb_spec (Z.of_nat (length toks)) 0) as [Hz|_]; [|done].
    destruct toks; [done|simpl in Hz; lia]. }
  assert (has_pipe toks = false →
          Forall (λ t, is_word t = true) (take (MAX_ARGS - 1) toks) →
          read_line env heap line =
            LineParsed
              (LineCommand {| argv := Some (take (MAX_ARGS - 1) toks);
                              input_file := None; output_file := None;
                              append_mode := 0; background := 0 |})) as Hwords.
  { intros Hp Hw. rewrite Hread. unfold shell_parse. rewrite Hp.
    unfold parse_command. destruct toks as [|t toks]; [done|].
    rewrite parse_command_loop_read_words; [done|].
    simpl acc_argv. simpl length. by rewrite Nat.sub_0_r. }
  split; [split|].
  - intros (l & Hl & args & ->). rewrite Hread in Hl. unfold shell_parse in Hl.
    destruct (has_pipe toks) eqn:Hp.
    { destruct (parse_pipeline toks); simplify_eq. }
    split; [done|].
    destruct (parse_command toks) as [c|] eqn:Hc; simplify_eq.
    unfold parse_command in Hc. destruct toks as [|t toks]; [done|].
    apply parse_command_loop_plain in Hc; [|done..]. exact Hc.
  - intros [Hp Hw]. eexists. split; [by apply Hwords|]. by eexists.
  - intros Hops. apply Hwords.
    + unfold has_pipe. apply not_true_is_false. intros Hp.
      apply existsb_exists in Hp as (t & Hin & Ht).
      rewrite Forall_forall in Hops.
      apply list_elem_of_In, Hops, is_operator_false in Hin as [Hin _].
      congruence.
    + apply Forall_take. apply (Forall_impl _ _ _ Hops). intros ? H'.
      by apply is_operator_false in H' as [? ?].
Qed.

Lemma spelling_decides_witness :
  read_line no_environment sample_heap "echo 'a|b' '>>x'" =
    LineParsed
      (LineCommand {| argv := Some ["echo"; "a|b"; ">>x"];
                      input_file := None; output_file := None;
                      append_mode := 0; background := 0 |}).
Proof.
  destruct (spelling_decides no_environment sample_heap "echo 'a|b' '>>x'"
              {| tk_return := 3; tk_tokens := Some ["echo"; "a|b"; ">>x"];
                 tk_stderr := None |} ["echo"; "a|b"; ">>x"])
    as [_ Hwords].
  - vm_compute. reflexivity.
  - reflexivity.
  - discriminate.
  - apply Hwords. repeat constructor.
Defined.

(** *** Commands without a program name *)

(** C3 (the code departs from it): a segment made of a redirection alone is
    accepted, with an empty argv: by parse_command on the line [< f], and by
    parse_pipeline for the second command of [ls | > out]. Only a segment
    without any token is rejected. *)
Theorem redirection_only_segment_accepted :
  parse_command ["<"; "f"] =
    Parsed {| argv := Some []; input_file := Some "f"; output_file := None;
              append_mode := 0; background := 0 |} ∧
  read_line no_environment sample_heap "< f" =
    LineParsed
      (LineCommand {| argv := Some []; input_file := Some "f";
                      output_file := None; append_mode := 0;
                      background := 0 |}) ∧
  parse_pipeline ["ls"; "|"; ">"; "out"] =
    Parsed
      {| commands :=
           [{| argv := Some ["ls"]; input_file := None; output_file := None;
               append_mode := 0; background := 0 |};
            {| argv := Some []; input_file := None; output_file := Some "out";
               append_mode := 0; background := 0 |}];
         num_commands := 2; pl_background := 0 |} ∧
  parse_pipeline ["ls"; "|"] = Rejected (Some (UnexpectedToken "|")).
Proof. by vm_compute. Qed.

(** *** The background operator *)

(** C4 as stated fails: both sequences have an [&] before the final
    position; the first is rejected with the diagnostic of the empty segment
    met first, the second is accepted, the [&] being the operand of [<]. *)
Lemma amp_before_end_not_reported :
  (amp_before_end ["|"; "a"; "&"; "b"] ∧
   parse_pipeline ["|"; "a"; "&"; "b"]
   = Rejected (Some (UnexpectedToken "|"))) ∧
  (amp_before_end ["cat"; "<"; "&"; "x"; "|"; "wc"] ∧
   parse_pipeline ["cat"; "<"; "&"; "x"; "|"; "wc"] =
     Parsed
       {| commands :=
            [{| argv := Some ["cat"; "x"]; input_file := Some "&";
                output_file := None; append_mode := 0; background := 0 |};
             {| argv := Some ["wc"]; input_file := None; output_file := None;
                append_mode := 0; background := 0 |}];
          num_commands := 2; pl_background := 0 |}).
Proof.
  split; (split; [|by vm_compute]).
  - by exists ["|"; "a"], ["b"].
  - by exists ["cat"; "<"], ["x"; "|"; "wc"].
Qed.

(** C4, amended: an [&] followed by a further token of its own pipe segment
    (the trailing [&] of the whole sequence set aside) and reached by the
    scan, that is with every earlier segment accepted and the tokens before
    it in its segment none or an accepted command of fewer than MAX_ARGS - 1
    arguments, makes parse_pipeline fail with the diagnostic
    [& must be at end of command], as it makes parse_command fail on a line
    without pipe; and when parse_pipeline succeeds, the background flag of
    the pipeline is 1 if the last token of the sequence is [&] and 0
    otherwise. *)
Theorem misplaced_amp_and_background :
  (∀ pre cmds ws x post,
     split_loop pre [] [] = Parsed (cmds, []) →
     scanned_prefix ws →
     x ≠ "|" → x :: post ≠ ["&"] →
     parse_pipeline (pre ++ ws ++ "&" :: x :: post)
     = Rejected (Some AmpNotAtEnd)) ∧
  (∀ ws x post,
     scanned_prefix ws →
     parse_command (ws ++ "&" :: x :: post) = Rejected (Some AmpNotAtEnd)) ∧
  diag_message AmpNotAtEnd
  = "myshell: syntax error: & must be at end of command" ∧
  (∀ toks p,
     parse_pipeline toks = Parsed p →
     (pl_background p = 1 ∧ last toks = Some "&") ∨
     (pl_background p = 0 ∧ last toks ≠ Some "&")).
Proof.
  split; [|split; [|split]].
  - apply misplaced_amp_rejected.
  - intros. by apply parse_command_amp_after.
  - reflexivity.
  - intros toks p Hp. apply parse_pipeline_background in Hp.
    pose proof (has_background_spec toks) as Hs.
    destruct (has_background_01 toks) as [H0|H1].
    + right. split; [congruence|]. intros Hl. apply Hs in Hl. lia.
    + left. split; [congruence|]. by apply Hs.
Qed.

Lemma misplaced_amp_and_background_witness :
  parse_pipeline (["ls"; "|"] ++ ["grep"; "x"] ++ "&" :: "y" :: ["|"; "wc"])
  = Rejected (Some AmpNotAtEnd) ∧
  parse_command (["sleep"; "10"] ++ "&" :: "x" :: [])
  = Rejected (Some AmpNotAtEnd) ∧
  ((pl_background
      {| commands := [sample_word_command "ls"; sample_word_command "wc"];
         num_commands := 2; pl_background := 1 |} = 1 ∧
    last ["ls"; "|"; "wc"; "&"] = Some "&") ∨
   (pl_background
      {| commands := [sample_word_command "ls"; sample_word_command "wc"];
         num_commands := 2; pl_background := 1 |} = 0 ∧
    last ["ls"; "|"; "wc"; "&"] ≠ Some "&")).
Proof.
  destruct misplaced_amp_and_background as (Hamp & Hcmd & _ & Hbg).
  assert (scanned_prefix ["grep"; "x"]) as Hgrep.
  { split; [repeat constructor|]. right. do 2 eexists.
    split; [reflexivity|]. split; [reflexivity|]. vm_compute. lia. }
  assert (scanned_prefix ["sleep"; "10"]) as Hsleep.
  { split; [repeat constructor|]. right. do 2 eexists.
    split; [reflexivity|]. split; [reflexivity|]. vm_compute. lia. }
  split; [|split].
  - apply (Hamp ["ls"; "|"] [sample_word_command "ls"]);
      [reflexivity|exact Hgrep|discriminate|discriminate].
  - apply Hcmd. exact Hsleep.
  - apply Hbg. reflexivity.
Defined.

(** The sequences the amended statement leaves aside. An [&] that ends a
    segment before a [|] is accepted and sets the flag of that command only;
    so is an [&] beyond the MAX_ARGS - 1 arguments parse_command reads. *)
Example amp_ending_inner_segment :
  parse_pipeline ["ls"; "&"; "|"; "cat"] =
    Parsed
      {| commands :=
           [{| argv := Some ["ls"]; input_file := None; output_file := None;
               append_mode := 0; background := 1 |};
            {| argv := Some ["cat"]; input_file := None; output_file := None;
               append_mode := 0; background := 0 |}];
         num_commands := 2; pl_background := 0 |}.
Proof. by vm_compute. Qed.

Example amp_beyond_argument_limit :
  parse_command (replicate 63 "a" ++ ["&"; "b"]) =
    Parsed {| argv := Some (replicate 63 "a"); input_file := None;
              output_file := None; append_mode := 0; background := 0 |}.
Proof. by vm_compute. Qed.

End ParserStatements.

(** * Facts about the executor *)

Module ExecutorFacts.
Import Jobs Parser Executor Executor.Wait Signals ExecutorNotions.

(** *** Status words *)

Lemma land_127_range s : 0 ≤ Z.land s 127 ≤ 127.
Proof.
  change (Z.land s 127) with (Z.land s (Z.ones 7)).
  rewrite Z.land_ones by lia.
  pose proof (Z.mod_pos_bound s (2 ^ 7) ltac:(lia)).
  change (2 ^ 7) with 128 in *. lia.
Qed.

(** A child killed by a signal did not exit: the two tests exclude each
    other, so the order of the tests in the code does not matter. *)
Lemma WIFSIGNALED_not_WIFEXITED s :
  WIFSIGNALED s = true → WIFEXITED s = false.
Proof.
  unfold WIFSIGNALED, WIFEXITED, WTERMSIG. intros H.
  destruct (Z.eqb_spec (Z.land s 127) 0) as [E|]; [|done].
  rewrite E in H. by vm_compute in H.
Qed.

Lemma WIFSIGNALED_WTERMSIG s :
  WIFSIGNALED s = true → 1 ≤ WTERMSIG s ≤ 126.
Proof.
  unfold WIFSIGNALED, WTERMSIG, to_schar. intros H.
  pose proof (land_127_range s) as Hr.
  destruct (Z.land s 127) as [|v|v] eqn:E; [by vm_compute in H| |lia].
  destruct (decide (Z.pos v = 127)) as [Hv|Hv];
    [rewrite Hv in H; by vm_compute in H|].
  lia.
Qed.


Lemma decode_status_exited other s :
  WIFEXITED s = true → decode_status other s = (WEXITSTATUS s, false).
Proof. unfold decode_status. by intros ->. Qed.

Lemma decode_status_signaled other s :
  WIFSIGNALED s = true → decode_status other s = (128 + WTERMSIG s, false).
Proof.
  unfold decode_status. intros H.
  by rewrite (WIFSIGNALED_not_WIFEXITED s H), H.
Qed.

(** *** The loops of execute_pipeline *)

Lemma fork_loop_forked os i count pids :
  (∀ k, (i ≤ k < i + count)%nat → 0 < po_fork os k) →
  fork_loop os i count pids = Forked (pids ++ map (po_fork os) (seq i count)).
Proof.
  revert i pids. induction count as [|count IH]; intros i pids Hf; simpl.
  - by rewrite app_nil_r.
  - pose proof (Hf i ltac:(lia)).
    destruct (Z.eqb_spec (po_fork os i) (-1)); [lia|].
    destruct (Z.eqb_spec (po_fork os i) 0); [lia|].
    rewrite IH by (intros; apply Hf; lia). by rewrite <- app_assoc.
Qed.

Lemma pipes_created_true os n :
  (∀ i, (i < n)%nat → po_pipe os i ≠ -1) → pipes_created os n = true.
Proof.
  intros Hp. unfold pipes_created. apply forallb_forall. intros i Hi.
  apply in_seq in Hi. apply negb_true_iff, Z.eqb_neq, Hp. lia.
Qed.

Lemma fork_loop_others others os i count pids :
  fork_loop (with_other_statuses others os) i count pids
  = fork_loop os i count pids.
Proof.
  revert i pids. induction count as [|count IH]; intros i pids; simpl; [done|].
  by rewrite IH.
Qed.

(** The non-blocking waits do not enter the result. *)
Lemma execute_pipeline_others eb others os p js :
  execute_pipeline eb (with_other_statuses others os) p js
  = execute_pipeline eb os p js.
Proof.
  unfold execute_pipeline. rewrite fork_loop_others. reflexivity.
Qed.

(** The run of a pipeline of two or more commands once its children are
    forked: the background path, or the wait on the last child and the
    decoding of its status. *)
Lemma execute_pipeline_forked eb os p js c1 c2 cs :
  commands p = c1 :: c2 :: cs →
  well_formed p → children_forked os p →
  execute_pipeline eb os p js =
    if negb (pl_background p =? 0) then
      cmd_str ← pipeline_string (commands p);
      '(_, js') ← add_job (po_fork os 0) cmd_str JOB_RUNNING
                    (po_strdup_ok os) js;
      Some (Returned 0, js')
    else
      let '(waited_pid, status) := po_wait_last os in
      let '(last_status, stopped) :=
        if waited_pid =? last_pid os p then decode_status 0 status
        else (0, false) in
      if stopped then
        cmd_str ← pipeline_string (commands p);
        '(_, js') ← add_job (po_fork os 0) cmd_str JOB_STOPPED
                      (po_strdup_ok os) js;
        Some (Returned last_status, js')
      else Some (Returned last_status, js).
Proof.
  intros Hcs Hnum Hrep. unfold well_formed in Hnum.
  unfold children_forked in Hrep. unfold last_pid. rewrite Hcs in Hrep.
  destruct Hrep as (Hmp & Hpipes & Hin & Hout & Hmpid & Hfork).
  unfold execute_pipeline. rewrite Hnum, Hcs in *. simpl length in *.
  rewrite Nat2Z.id.
  destruct (Z.eqb_spec (Z.of_nat (S (S (length cs)))) 0); [lia|].
  destruct (Z.eqb_spec (Z.of_nat (S (S (length cs)))) 1); [lia|].
  rewrite Hmp, Hmpid. simpl negb. cbv iota.
  rewrite pipes_created_true by done. simpl negb. cbv iota.
  destruct (Z.eqb_spec (po_dup_stdin os) (-1)); [done|].
  destruct (Z.eqb_spec (po_dup_stdout os) (-1)); [done|].
  simpl orb. cbv iota.
  rewrite fork_loop_forked by (intros; apply Hfork; lia).
  rewrite app_nil_l.
  assert (map (po_fork os) (seq 0 (S (S (length cs)))) !! 0%nat
          = Some (po_fork os 0)) as -> by done.
  assert (map (po_fork os) (seq 0 (S (S (length cs))))
            !! (S (S (length cs)) - 1)%nat
          = Some (po_fork os (S (S (length cs)) - 1))) as ->.
  { rewrite list_lookup_fmap, lookup_seq_lt by lia. done. }
  simpl default.
  rewrite take_ge by (simpl; lia).
  destruct (negb (pl_background p =? 0)); [done|].
  destruct (po_wait_last os) as [waited_pid status].
  destruct (if waited_pid =? _ then _ else _) as [last_status stopped].
  done.
Qed.

(** The run of a pipeline of two or more commands up to the decoding of the
    status of its last child. *)
Lemma execute_pipeline_waits eb os p js s c1 c2 cs :
  commands p = c1 :: c2 :: cs →
  well_formed p → foreground p → last_child_reported os p s →
  execute_pipeline eb os p js =
    let '(last_status, stopped) := decode_status 0 s in
    if stopped then
      cmd_str ← pipeline_string (commands p);
      '(_, js') ← add_job (po_fork os 0) cmd_str JOB_STOPPED
                    (po_strdup_ok os) js;
      Some (Returned last_status, js')
    else Some (Returned last_status, js).
Proof.
  intros Hcs Hnum [Hfg _] Hrep.
  assert (children_forked os p ∧
          po_wait_last os = (last_pid os p, s)) as [Hforked Hwait].
  { unfold last_child_reported in Hrep.
    unfold children_forked, last_pid. rewrite Hcs in *.
    destruct Hrep as (? & ? & ? & ? & ? & ? & ?). by split_and!. }
  rewrite (execute_pipeline_forked eb os p js c1 c2 cs) by done.
  rewrite Hfg, Hwait. simpl negb. cbv iota. rewrite Z.eqb_refl.
  destruct (decode_status 0 s) as [last_status stopped]. done.
Qed.

(** The run of a single external command once its child is forked: the
    background path, or the wait and the decoding of the status. *)
Lemma execute_command_forked eb os c js prog args :
  argv c = Some (prog :: args) → is_builtin prog = false →
  co_dup_stdin os ≠ -1 → co_dup_stdout os ≠ -1 →
  (is_Some (input_file c) →
   co_open_input os ≠ -1 ∧ co_dup2_input os ≠ -1) →
  (is_Some (output_file c) →
   co_open_output os ≠ -1 ∧ co_dup2_output os ≠ -1) →
  0 < co_fork os →
  execute_command eb os c js =
    if negb (background c =? 0) then
      cmd_str ← command_string (prog :: args);
      '(_, js') ← add_job (if co_getpgid os =? -1 then co_fork os
                           else co_getpgid os)
                    cmd_str JOB_RUNNING (co_strdup_ok os) js;
      Some (Returned 0, js')
    else
      let '(ret, child_status) := co_waitpid os in
      if ret =? -1 then Some (Returned (-1), js)
      else
        let '(status, stopped) := decode_status (-1) child_status in
        if stopped then
          cmd_str ← command_string (prog :: args);
          '(_, js') ← add_job (co_fork os) cmd_str JOB_STOPPED
                        (co_strdup_ok os) js;
          Some (Returned status, js')
        else Some (Returned status, js).
Proof.
  intros Hargv Hb Hin Hout Hif Hof Hfork.
  unfold execute_command. rewrite Hargv, Hb.
  destruct (Z.eqb_spec (co_dup_stdin os) (-1)); [done|].
  destruct (Z.eqb_spec (co_dup_stdout os) (-1)); [done|].
  simpl orb. cbv iota.
  assert (bool_decide (is_Some (input_file c)) && (co_open_input os =? -1)
          = false) as ->.
  { case_bool_decide as Hi; [|done]. destruct (Hif Hi) as [? _].
    by apply Z.eqb_neq. }
  assert (bool_decide (is_Some (input_file c)) && (co_dup2_input os =? -1)
          = false) as ->.
  { case_bool_decide as Hi; [|done]. destruct (Hif Hi) as [_ ?].
    by apply Z.eqb_neq. }
  assert (bool_decide (is_Some (output_file c)) && (co_open_output os =? -1)
          = false) as ->.
  { case_bool_decide as Hi; [|done]. destruct (Hof Hi) as [? _].
    by apply Z.eqb_neq. }
  assert (bool_decide (is_Some (output_file c)) && (co_dup2_output os =? -1)
          = false) as ->.
  { case_bool_decide as Hi; [|done]. destruct (Hof Hi) as [_ ?].
    by apply Z.eqb_neq. }
  destruct (Z.eqb_spec (co_fork os) (-1)); [lia|].
  destruct (Z.eqb_spec (co_fork os) 0); [lia|].
  done.
Qed.

(** The run of the single external command of a one-command pipeline up to
    the decoding of the status of its child. *)
Lemma execute_command_waits eb os c js prog args :
  argv c = Some (prog :: args) → is_builtin prog = false →
  background c = 0 →
  co_dup_stdin os ≠ -1 → co_dup_stdout os ≠ -1 →
  (is_Some (input_file c) →
   co_open_input os ≠ -1 ∧ co_dup2_input os ≠ -1) →
  (is_Some (output_file c) →
   co_open_output os ≠ -1 ∧ co_dup2_output os ≠ -1) →
  0 < co_fork os → fst (co_waitpid os) ≠ -1 →
  execute_command eb os c js =
    let '(status, stopped) := decode_status (-1) (snd (co_waitpid os)) in
    if stopped then
      cmd_str ← command_string (prog :: args);
      '(_, js') ← add_job (co_fork os) cmd_str JOB_STOPPED
                    (co_strdup_ok os) js;
      Some (Returned status, js')
    else Some (Returned status, js).
Proof.
  intros Hargv Hb Hbg Hin Hout Hif Hof Hfork Hwait.
  rewrite (execute_command_forked eb os c js prog args) by done.
  rewrite Hbg. simpl negb. cbv iota.
  destruct (co_waitpid os) as [ret child_status]. simpl in *.
  destruct (Z.eqb_spec ret (-1)); [done|]. done.
Qed.

(** ** The executor's wait reports the last child *)

(** For a foreground pipeline whose run reaches the wait on its last child,
    that wait reporting the child with status word [s], the value
    execute_pipeline returns is WEXITSTATUS(s) when the child exited and
    128 + WTERMSIG(s) when a signal killed it, the job table being left as it
    was; and the answers to the non-blocking waits on the other children
    change nothing in what execute_pipeline returns. *)
Lemma pipeline_status_is_last_command eb os p js s :
  well_formed p → foreground p → last_child_reported os p s →
  (WIFEXITED s = true →
   execute_pipeline eb os p js = Some (Returned (WEXITSTATUS s), js)) ∧
  (WIFSIGNALED s = true →
   execute_pipeline eb os p js = Some (Returned (128 + WTERMSIG s), js)) ∧
  (∀ others,
     execute_pipeline eb (with_other_statuses others os) p js
     = execute_pipeline eb os p js).
Proof.
  intros Hwf Hfg Hrep. split_and!; [| |intros; apply execute_pipeline_others].
  - intros Hs. destruct (commands p) as [|c1 [|c2 cs]] eqn:Hcs.
    + unfold last_child_reported in Hrep. by rewrite Hcs in Hrep.
    + unfold last_child_reported in Hrep. rewrite Hcs in Hrep.
      destruct Hrep
        as ((prog & args & Ha & Hb) & Hin & Hout & Hif & Hof & Hfork & Hw & Hst).
      destruct Hfg as [_ Hbg]. specialize (Hbg c1 Hcs).
      unfold well_formed in Hwf. rewrite Hcs in Hwf.
      unfold execute_pipeline. rewrite Hwf, Hcs. simpl.
      rewrite (execute_command_waits eb _ c1 js prog args
                 Ha Hb Hbg Hin Hout Hif Hof Hfork Hw).
      by rewrite Hst, decode_status_exited.
    + rewrite (execute_pipeline_waits eb os p js s c1 c2 cs) by done.
      by rewrite decode_status_exited.
  - intros Hs. destruct (commands p) as [|c1 [|c2 cs]] eqn:Hcs.
    + unfold last_child_reported in Hrep. by rewrite Hcs in Hrep.
    + unfold last_child_reported in Hrep. rewrite Hcs in Hrep.
      destruct Hrep
        as ((prog & args & Ha & Hb) & Hin & Hout & Hif & Hof & Hfork & Hw & Hst).
      destruct Hfg as [_ Hbg]. specialize (Hbg c1 Hcs).
      unfold well_formed in Hwf. rewrite Hcs in Hwf.
      unfold execute_pipeline. rewrite Hwf, Hcs. simpl.
      rewrite (execute_command_waits eb _ c1 js prog args
                 Ha Hb Hbg Hin Hout Hif Hof Hfork Hw).
      by rewrite Hst, decode_status_signaled.
    + rewrite (execute_pipeline_waits eb os p js s c1 c2 cs) by done.
      by rewrite decode_status_signaled.
Qed.

Lemma pipeline_status_is_last_command_sample :
  execute_pipeline no_builtin (sample_os 768) sample_pipeline init_jobs
  = Some (Returned 3, init_jobs) ∧
  execute_pipeline no_builtin (sample_os 9) sample_pipeline init_jobs
  = Some (Returned 137, init_jobs).
Proof.
  assert (well_formed sample_pipeline) as Hwf by reflexivity.
  assert (foreground sample_pipeline) as Hfg.
  { split; [reflexivity|]. intros c Hc. discriminate Hc. }
  assert (∀ s, last_child_reported (sample_os s) sample_pipeline s) as Hrep.
  { intros s. simpl. split_and!; try done; intros; simpl; lia. }
  split.
  - destruct (pipeline_status_is_last_command no_builtin (sample_os 768)
                sample_pipeline init_jobs 768 Hwf Hfg (Hrep 768))
      as (Hexited & _ & _).
    apply Hexited. reflexivity.
  - destruct (pipeline_status_is_last_command no_builtin (sample_os 9)
                sample_pipeline init_jobs 9 Hwf Hfg (Hrep 9))
      as (_ & Hsignaled & _).
    apply Hsignaled. reflexivity.
Defined.

(** ** The handler waits for the last child first *)

(** The forks and the calls before them are the same whatever is found at
    the wait. *)
Lemma children_forked_wait_with cs held os p :
  children_forked os p → children_forked (wait_with cs held os p) p.
Proof.
  unfold children_forked. destruct (commands p) as [|c1 [|c2 l]]; done.
Qed.

Lemma last_pid_wait_with cs held os p :
  last_pid (wait_with cs held os p) p = last_pid os p.
Proof. unfold last_pid. destruct (commands p) as [|c1 [|c2 l]]; done. Qed.

Lemma last_pid_pos os p : children_forked os p → 0 < last_pid os p.
Proof.
  unfold children_forked, last_pid.
  destruct (commands p) as [|c1 [|c2 l]]; [done| |].
  - intros (_ & _ & _ & _ & _ & H). done.
  - intros (_ & _ & _ & _ & _ & H). apply H. simpl. lia.
Qed.

(** The last child is still to be waited for: the executor's wait reports
    it. *)
Lemma wait_with_reported cs held os p c :
  children_forked os p →
  find (λ c, bool_decide (child_pid c = last_pid os p)) cs = Some c →
  last_child_reported (wait_with cs held os p) p (child_status c).
Proof.
  intros Hforked Hfind.
  pose proof (last_pid_pos os p Hforked) as Hpos.
  unfold last_child_reported, children_forked, last_pid in *.
  unfold wait_with, waitpid_ended, last_pid.
  destruct (commands p) as [|c1 [|c2 l]]; [done| |].
  - rewrite Hfind. simpl. destruct Hforked as (? & ? & ? & ? & ? & ?).
    split_and!; try done. lia.
  - rewrite Hfind. simpl. destruct Hforked as (? & ? & ? & ? & ? & ?).
    by split_and!.
Qed.

(** No child is left to wait for: the executor's wait fails, and the value
    returned is the -1 of the error path for a single command, the initial
    0 of last_status for a pipeline. *)
Lemma execute_pipeline_nothing_to_wait eb held os p js :
  well_formed p → foreground p → children_forked os p →
  execute_pipeline eb (wait_with [] held os p) p js
  = Some (Returned (if bool_decide (length (commands p) = 1%nat)
                    then -1 else 0), js).
Proof.
  intros Hwf Hfg Hforked.
  pose proof (last_pid_pos os p Hforked) as Hpos.
  pose proof (children_forked_wait_with [] held os p Hforked) as Hforked'.
  destruct (commands p) as [|c1 [|c2 l]] eqn:Hcs.
  - unfold children_forked in Hforked. by rewrite Hcs in Hforked.
  - unfold children_forked in Hforked'. rewrite Hcs in Hforked'.
    destruct Hforked'
      as ((prog & args & Ha & Hb) & Hin & Hout & Hif & Hof & Hfork).
    destruct Hfg as [_ Hbg]. specialize (Hbg c1 Hcs).
    unfold well_formed in Hwf. rewrite Hcs in Hwf.
    unfold execute_pipeline. rewrite Hwf, Hcs.
    change (Z.of_nat (length [c1]) =? 0) with false.
    change (Z.of_nat (length [c1]) =? 1) with true. cbv iota.
    rewrite (execute_command_forked eb _ c1 js prog args
               Ha Hb Hin Hout Hif Hof Hfork).
    rewrite Hbg. done.
  - rewrite (execute_pipeline_forked eb _ p js c1 c2 l) by done.
    destruct Hfg as [-> _]. rewrite last_pid_wait_with.
    change (po_wait_last (wait_with [] held os p)) with (-1, held).
    simpl negb. cbv iota beta.
    destruct (Z.eqb_spec (-1) (last_pid os p)); [lia|]. done.
Qed.

(** C1: a foreground pipeline whose children are forked and whose last
    child has ended with status word [child_status c], [cs] being the
    children not yet waited for. When the executor's wait finds the child,
    the value returned is the status of the last command: WEXITSTATUS when
    it exited, 128 + WTERMSIG when a signal killed it. When the SIGCHLD
    handler has run before that wait, its [waitpid(-1, ...)] has taken the
    child; the executor's wait fails and the value returned is -1 for a
    single command and 0 for a pipeline of two or more, whatever the status
    of the last command was, where executor.h promises the exit status of
    the last command and the handler's comment leaves foreground children
    to the executor. *)
Theorem handler_takes_last_status eb os p js cs c held :
  well_formed p → foreground p → children_forked os p →
  find (λ c, bool_decide (child_pid c = last_pid os p)) cs = Some c →
  (WIFEXITED (child_status c) = true →
   execute_pipeline eb (wait_with cs held os p) p js
   = Some (Returned (WEXITSTATUS (child_status c)), js)) ∧
  (WIFSIGNALED (child_status c) = true →
   execute_pipeline eb (wait_with cs held os p) p js
   = Some (Returned (128 + WTERMSIG (child_status c)), js)) ∧
  (let '(cs', js') := run_sigchld_handler cs js in
   execute_pipeline eb (wait_with cs' held os p) p js'
   = Some (Returned (if bool_decide (length (commands p) = 1%nat)
                     then -1 else 0), js')).
Proof.
  intros Hwf Hfg Hforked Hfind.
  pose proof (wait_with_reported cs held os p c Hforked Hfind) as Hrep.
  destruct (pipeline_status_is_last_command eb _ p js _ Hwf Hfg Hrep)
    as (Hexited & Hsignaled & _).
  split_and!; [done|done|].
  unfold run_sigchld_handler.
  by apply execute_pipeline_nothing_to_wait.
Qed.

Lemma handler_takes_last_status_witness :
  (execute_pipeline no_builtin
     (wait_with exit_7_pipeline_children 0 (sample_os 0) exit_7_pipeline)
     exit_7_pipeline init_jobs
   = Some (Returned 7, init_jobs) ∧
   execute_pipeline no_builtin
     (wait_with (fst (run_sigchld_handler exit_7_pipeline_children init_jobs))
        0 (sample_os 0) exit_7_pipeline)
     exit_7_pipeline
     (snd (run_sigchld_handler exit_7_pipeline_children init_jobs))
   = Some (Returned 0, init_jobs)) ∧
  (execute_pipeline no_builtin
     (wait_with exit_7_single_child 0 (sample_os 0) exit_7_single)
     exit_7_single init_jobs
   = Some (Returned 7, init_jobs) ∧
   execute_pipeline no_builtin
     (wait_with (fst (run_sigchld_handler exit_7_single_child init_jobs))
        0 (sample_os 0) exit_7_single)
     exit_7_single
     (snd (run_sigchld_handler exit_7_single_child init_jobs))
   = Some (Returned (-1), init_jobs)).
Proof.
  assert (∀ p, foreground p → well_formed p →
            children_forked (sample_os 0) p →
            ∀ cs c,
              find (λ c, bool_decide (child_pid c = last_pid (sample_os 0) p))
                cs = Some c →
              WIFEXITED (child_status c) = true →
              execute_pipeline no_builtin (wait_with cs 0 (sample_os 0) p) p
                init_jobs
              = Some (Returned (WEXITSTATUS (child_status c)), init_jobs) ∧
              execute_pipeline no_builtin
                (wait_with (fst (run_sigchld_handler cs init_jobs)) 0
                   (sample_os 0) p)
                p (snd (run_sigchld_handler cs init_jobs))
              = Some (Returned (if bool_decide (length (commands p) = 1%nat)
                                then -1 else 0),
                      snd (run_sigchld_handler cs init_jobs))) as Hrun.
  { intros p Hfg Hwf Hforked cs c Hfind Hexited.
    destruct (handler_takes_last_status no_builtin (sample_os 0) p init_jobs
                cs c 0 Hwf Hfg Hforked Hfind) as (H1 & _ & H2).
    split; [by apply H1|exact H2]. }
  split.
  - apply (Hrun exit_7_pipeline) with
      (c := {| child_pid := 501; child_pgid := 500; child_status := 1792 |}).
    + split; [reflexivity|]. intros c Hc. discriminate Hc.
    + reflexivity.
    + simpl. split_and!; try done; intros; simpl; lia.
    + reflexivity.
    + reflexivity.
  - apply (Hrun exit_7_single) with
      (c := {| child_pid := 500; child_pgid := 500; child_status := 1792 |}).
    + split; [reflexivity|]. intros c Hc. by injection Hc as <-.
    + reflexivity.
    + simpl. split_and!; try done. by eexists _, _.
    + reflexivity.
    + reflexivity.
Defined.

End ExecutorFacts.

(** * Facts about the command history *)

Module HistoryFacts.
Import Parser History.

Lemma until_nul_idem l : until_nul (until_nul l) = until_nul l.
Proof.
  induction l as [|c l IH]; simpl; [done|].
  destruct (Ascii.eqb c NUL) eqn:E; simpl; [done|]. by rewrite E, IH.
Qed.

Lemma c_str_strdup l : c_str (strdup l) = until_nul l.
Proof.
  unfold c_str, strdup.
  by rewrite list_ascii_of_string_of_list_ascii, until_nul_idem.
Qed.

Lemma strdup_empty l : strdup l = EmptyString ↔ until_nul l = [].
Proof.
  unfold strdup. destruct (until_nul l); simpl; split; done.
Qed.

Lemma strdup_c_str s : strdup (list_ascii_of_string s) = string_of_list_ascii (c_str s).
Proof. done. Qed.

(** [strcmp] against a stored line. *)
Lemma same_c_str last cmd :
  strdup (list_ascii_of_string last) = last →
  c_str last = c_str cmd ↔ last = strdup (list_ascii_of_string cmd).
Proof.
  intros Hl. split.
  - intros E. rewrite <- Hl at 1. by rewrite !strdup_c_str, E.
  - intros ->. by rewrite c_str_strdup.
Qed.

Lemma entry_at_insert buf c n i x j :
  0 ≤ i → 0 ≤ j → (Z.to_nat i < length buf)%nat →
  entry_at {| history_buffer := <[Z.to_nat i := x]> buf;
              history_count := c; history_next := n |} j
  = if decide (i = j) then x
    else entry_at {| history_buffer := buf; history_count := c;
                     history_next := n |} j.
Proof.
  intros Hi Hj Hlen. unfold entry_at; simpl. case_decide as E.
  - subst j. by rewrite list_lookup_insert_eq.
  - rewrite list_lookup_insert_ne by lia. done.
Qed.

Lemma init_history_tracks : tracks init_history [].
Proof.
  split; [|split; [|split]].
  - unfold history_ok, init_history.
    cbn [history_buffer history_count history_next].
    rewrite length_replicate. unfold MAX_HISTORY. lia.
  - constructor.
  - done.
  - simpl. lia.
Qed.

Ltac rem_lia :=
  unfold MAX_HISTORY in *; Z.to_euclidean_division_equations; lia.

Lemma strdup_strdup l :
  strdup (list_ascii_of_string (strdup l)) = strdup l.
Proof.
  unfold strdup at 1. fold (c_str (strdup l)). by rewrite c_str_strdup.
Qed.

(** The test for a repeat looks at the most recent line. *)
Lemma repeat_test h log cmd :
  tracks h log →
  bool_decide (0 < history_count h) &&
    match entry_at h (Z.rem (history_next h - 1 + MAX_HISTORY) MAX_HISTORY) with
    | Some last => bool_decide (c_str last = c_str cmd)
    | None => false
    end
  = bool_decide (last log = Some (strdup (list_ascii_of_string cmd))).
Proof.
  intros (Hok & Hnul & Hcount & Hent).
  destruct (decide (0 < history_count h)) as [Hpos|Hzero].
  - rewrite bool_decide_true by done. simpl.
    specialize (Hent (history_count h - 1) ltac:(lia)).
    replace (history_next h - history_count h + (history_count h - 1)
             + MAX_HISTORY) with (history_next h - 1 + MAX_HISTORY)
      in Hent by lia.
    rewrite Hent, last_lookup.
    replace (Z.to_nat (Z.of_nat (length log) - history_count h
                       + (history_count h - 1)))
      with (pred (length log)) by lia.
    destruct (log !! pred (length log)) as [l|] eqn:El.
    + apply bool_decide_ext.
      rewrite same_c_str; [naive_solver|].
      rewrite Forall_forall in Hnul. apply Hnul.
      by eapply list_elem_of_lookup_2.
    + by rewrite bool_decide_false.
  - rewrite (bool_decide_false (0 < _)) by done. simpl.
    assert (log = []) as ->.
    { destruct log; [done|]. simpl in Hcount. rem_lia. }
    by rewrite bool_decide_false.
Qed.

Lemma add_to_history_tracks h log cmd :
  tracks h log → tracks (add_to_history (Some cmd) true h) (noted log cmd).
Proof.
  intros Htr. pose proof Htr as (Hok & Hnul & Hcount & Hent).
  pose proof Hok as (Hlen & Hc & Hn & Hsmall).
  unfold add_to_history, noted.
  rewrite (repeat_test h log cmd Htr).
  rewrite strdup_c_str.
  destruct (decide (c_str cmd = [])) as [E|E].
  { rewrite bool_decide_true by done.
    rewrite bool_decide_true by (by rewrite E). done. }
  rewrite (bool_decide_false (c_str cmd = [])) by done.
  rewrite (bool_decide_false (string_of_list_ascii _ = _)).
  2:{ destruct (c_str cmd); done. }
  case_bool_decide as Hrep; [done|].
  rewrite <- strdup_c_str.
  set (c := strdup (list_ascii_of_string cmd)).
  split; [|split; [|split]].
  - unfold history_ok. cbn [history_buffer history_count history_next].
    rewrite length_insert.
    split; [done|]. case_bool_decide; rem_lia.
  - apply Forall_app. split; [done|]. constructor; [|done].
    apply strdup_strdup.
  - cbn [history_count]. rewrite length_app. simpl.
    case_bool_decide; rem_lia.
  - destruct h as [buf cnt nxt].
    cbn [history_buffer history_count history_next] in *.
    rewrite length_app. simpl length.
    case_bool_decide as Hfull; intros i Hi;
      (rewrite entry_at_insert; [| lia | rem_lia | rem_lia]).
    + (* the ring has not wrapped *)
      specialize (Hsmall Hfull). subst nxt.
      assert (length log = Z.to_nat cnt) as Hl by rem_lia.
      case_decide as Hat.
      * rewrite lookup_app_r by rem_lia.
        replace (_ - _)%nat with 0%nat by rem_lia. done.
      * rewrite lookup_app_l by rem_lia.
        etrans; [|etrans; [apply (Hent i); rem_lia|]]; f_equal; rem_lia.
    + (* the oldest line is overwritten *)
      assert (cnt = 1000) as -> by rem_lia.
      case_decide as Hat.
      * rewrite lookup_app_r by rem_lia.
        replace (_ - _)%nat with 0%nat by rem_lia. done.
      * rewrite lookup_app_l by rem_lia.
        etrans; [|etrans; [apply (Hent (i + 1)); rem_lia|]]; f_equal; rem_lia.
Qed.

Lemma record_all_tracks cmds h log :
  tracks h log → tracks (record_all cmds h) (fold_left noted cmds log).
Proof.
  revert h log. induction cmds as [|cmd cmds IH]; intros h log Htr; [done|].
  simpl. apply IH. by apply add_to_history_tracks.
Qed.

Lemma tracks_get_all h log :
  tracks h log →
  get_all_history MAX_HISTORY h
  = (Z.of_nat (length (last_n 1000 log)), Some <$> last_n 1000 log).
Proof.
  intros (Hok & Hnul & Hcount & Hent).
  pose proof Hok as (Hlen & Hc & Hn & Hsmall).
  unfold get_all_history, last_n.
  replace (if bool_decide (history_count h < MAX_HISTORY)
           then history_count h else MAX_HISTORY)
    with (history_count h) by (case_bool_decide; lia).
  rewrite length_drop. f_equal; [rem_lia|].
  apply list_eq. intros i.
  rewrite !list_lookup_fmap, lookup_drop.
  destruct (decide (Z.of_nat i < history_count h)) as [Hin|Hout].
  - rewrite lookup_seq_lt by lia. simpl.
    rewrite (Hent (Z.of_nat i)) by lia.
    replace (Z.to_nat (Z.of_nat (length log) - history_count h + Z.of_nat i))
      with (length log - 1000 + i)%nat by rem_lia.
    destruct (lookup_lt_is_Some_2 log (length log - 1000 + i)) as [x Hx];
      [rem_lia|]. by rewrite Hx.
  - rewrite lookup_seq_ge by lia.
    rewrite (lookup_ge_None_2 log) by rem_lia. done.
Qed.

(** X1 (history.c, add_to_history and get_all_history): the ring buffer is a
    bounded log. After any sequence of successfully copied lines, starting
    from the initial statics, get_all_history returns the last MAX_HISTORY
    lines of the journal, oldest first, and their number; the journal is the
    sequence of lines without the empty ones and without the lines that
    repeat the one just before. *)
Theorem history_is_bounded_log (cmds : list string) :
  get_all_history MAX_HISTORY (record_all cmds init_history)
  = (Z.of_nat (length (last_n 1000 (journal cmds))),
     Some <$> last_n 1000 (journal cmds)).
Proof.
  apply tracks_get_all, record_all_tracks, init_history_tracks.
Qed.

(** X2 (history.c, get_history_entry): history numbers run from 1, the
    oldest line kept, to the count, the most recent one; any other index
    gives NULL. *)
Theorem history_entry_numbering (cmds : list string) (k : Z) :
  let h := record_all cmds init_history in
  let kept := last_n 1000 (journal cmds) in
  get_history_count h = Z.of_nat (length kept) ∧
  get_history_entry k h
  = if bool_decide (1 ≤ k ≤ Z.of_nat (length kept))
    then kept !! Z.to_nat (k - 1) else None.
Proof.
  intros h kept.
  destruct (record_all_tracks cmds init_history [] init_history_tracks)
    as (Hok & Hnul & Hcount & Hent).
  fold h in Hok, Hcount, Hent. fold (journal cmds) in Hnul, Hcount, Hent.
  assert (get_history_count h = Z.of_nat (length kept)) as Hk.
  { unfold get_history_count, kept, last_n. rewrite length_drop. rem_lia. }
  split; [done|]. unfold get_history_count in Hk.
  unfold get_history_entry. rewrite <- Hk.
  destruct (decide (1 ≤ k ≤ history_count h)) as [Hin|Hin].
  - rewrite (bool_decide_true (1 ≤ k ≤ _)) by done.
    rewrite !bool_decide_false by lia. simpl.
    unfold kept, last_n. rewrite lookup_drop.
    etrans; [|etrans; [apply (Hent (k - 1)); lia|]]; f_equal; rem_lia.
  - rewrite (bool_decide_false (1 ≤ k ≤ _)) by done.
    destruct (decide (k < 1)).
    + by rewrite bool_decide_true.
    + rewrite (bool_decide_true (history_count h < k)) by lia.
      by rewrite orb_true_r.
Qed.

(** X3 (history.c, add_to_history): a line typed twice in a row is recorded
    once, whatever the ring holds and whether or not the second copy could
    be allocated. *)
Theorem repeated_line_recorded_once (h : history) (cmd : string) (ok : bool) :
  history_ok h →
  let h1 := add_to_history (Some cmd) true h in
  add_to_history (Some cmd) ok h1 = h1.
Proof.
  intros (Hlen & Hc & Hn & Hsmall) h1. subst h1.
  unfold add_to_history at 2.
  destruct (bool_decide (c_str cmd = [])) eqn:Eempty.
  { unfold add_to_history. by rewrite Eempty. }
  match goal with |- context [if ?b then h else _] =>
    destruct b eqn:Erep end.
  { unfold add_to_history. by rewrite Eempty, Erep. }
  unfold add_to_history. rewrite Eempty, Erep.
  cbn [history_buffer history_count history_next].
  rewrite (bool_decide_true (0 < _)) by (clear Eempty Erep; case_bool_decide; rem_lia).
  replace (Z.rem (Z.rem (history_next h + 1) MAX_HISTORY - 1 + MAX_HISTORY)
                 MAX_HISTORY) with (history_next h) by rem_lia.
  unfold entry_at at 1. cbn [history_buffer].
  rewrite list_lookup_insert_eq by rem_lia. simpl.
  rewrite c_str_strdup. fold (c_str cmd).
  by rewrite (bool_decide_true (c_str cmd = c_str cmd)).
Qed.

Lemma repeated_line_recorded_once_witness :
  history_ok init_history ∧
  add_to_history (Some "ls"%string) false
    (add_to_history (Some "ls"%string) true init_history)
  = add_to_history (Some "ls"%string) true init_history.
Proof.
  assert (history_ok init_history) as Hok.
  { unfold history_ok, init_history.
    cbn [history_buffer history_count history_next].
    rewrite length_replicate. unfold MAX_HISTORY. lia. }
  split; [exact Hok|].
  exact (repeated_line_recorded_once init_history "ls"%string false Hok).
Defined.

(** X4 (history.c, add_to_history): when strdup fails the count and the
    write position stay as they were, yet the slot at the write position
    has been freed and holds NULL. As long as the ring has not wrapped no
    numbered entry changes; once it has, the oldest entry, number 1, reads
    NULL and the others are unchanged. *)
Theorem failed_copy_loses_oldest (h : history) (cmd : string) (k : Z) :
  history_ok h →
  let h' := add_to_history (Some cmd) false h in
  get_history_count h' = get_history_count h ∧
  (history_count h < MAX_HISTORY ∨ k ≠ 1 →
   get_history_entry k h' = get_history_entry k h) ∧
  (history_count h = MAX_HISTORY →
   c_str cmd ≠ [] →
   (∀ last, get_history_entry MAX_HISTORY h = Some last →
            c_str last ≠ c_str cmd) →
   get_history_entry 1 h' = None).
Proof.
  intros (Hlen & Hc & Hn & Hsmall) h'. subst h'.
  unfold add_to_history.
  destruct (bool_decide (c_str cmd = [])) eqn:Eempty.
  { split; [done|]. split; [done|]. intros _ Hne.
    by apply bool_decide_eq_true in Eempty. }
  match goal with |- context [if ?b then h else _] =>
    destruct b eqn:Erep end.
  { split; [done|]. split; [done|]. intros Hfull _ Hlast. exfalso.
    apply andb_true_iff in Erep as [_ Erep].
    unfold get_history_entry in Hlast.
    rewrite !bool_decide_false in Hlast by lia. simpl in Hlast.
    replace (history_next h - history_count h + MAX_HISTORY - 1 + MAX_HISTORY)
      with (history_next h - 1 + MAX_HISTORY + 1 * MAX_HISTORY - history_count h)
      in Hlast by lia.
    rewrite Hfull in Hlast.
    replace (history_next h - 1 + MAX_HISTORY + 1 * MAX_HISTORY - MAX_HISTORY)
      with (history_next h - 1 + MAX_HISTORY) in Hlast by lia.
    destruct (entry_at h _) as [last|]; [|done].
    apply bool_decide_eq_true in Erep. by eapply Hlast. }
  split; [done|].
  unfold get_history_entry. cbn [history_count history_next].
  split.
  - intros Hk.
    destruct (bool_decide (k < 1) || bool_decide (history_count h < k))
      eqn:Eout; [done|].
    apply orb_false_iff in Eout as [E1 E2].
    apply bool_decide_eq_false in E1, E2.
    destruct h as [buf cnt nxt].
    cbn [history_buffer history_count history_next] in *.
    rewrite entry_at_insert; [| lia | rem_lia | rem_lia].
    rewrite decide_False; [done|].
    destruct Hk as [Hk|Hk]; [specialize (Hsmall Hk)|]; rem_lia.
  - intros Hfull _ _.
    rewrite !bool_decide_false by rem_lia. simpl.
    destruct h as [buf cnt nxt].
    cbn [history_buffer history_count history_next] in *.
    rewrite entry_at_insert; [| lia | rem_lia | rem_lia].
    rewrite decide_True; [done|]. rem_lia.
Qed.

Lemma failed_copy_loses_oldest_witness :
  history_ok full_ring ∧
  get_history_entry 1 full_ring = Some "ls"%string ∧
  get_history_entry 1 (add_to_history (Some "pwd"%string) false full_ring)
  = None.
Proof.
  assert (history_ok full_ring) as Hok.
  { unfold history_ok, full_ring.
    cbn [history_buffer history_count history_next].
    rewrite length_replicate. unfold MAX_HISTORY. lia. }
  split; [exact Hok|]. split; [vm_compute; reflexivity|].
  destruct (failed_copy_loses_oldest full_ring "pwd"%string 1 Hok)
    as (_ & _ & Hlost).
  apply Hlost.
  - reflexivity.
  - vm_compute. discriminate.
  - intros last. vm_compute. intros [= <-]. discriminate.
Defined.

End HistoryFacts.

(** * Facts about lookups in the job table *)

Module JobListingFacts.
Import Jobs JobListing JobsFacts.

Lemma first_slot_intro (P : Job → Prop) `{∀ j, Decision (P j)} tbl i j :
  (i < MAX_JOBS)%nat → tbl !! i = Some j → P j →
  (∀ k j', (k < i)%nat → tbl !! k = Some j' → ¬ P j') →
  first_slot P tbl = Some i.
Proof.
  intros Hi Hj HP Hbefore. unfold first_slot.
  destruct (list_find P (take MAX_JOBS tbl)) as [[i' j']|] eqn:E; simpl.
  - apply list_find_Some in E as (Hl & HP' & Hmin).
    apply lookup_take_Some in Hl as [Hl Hi'].
    destruct (Nat.lt_trichotomy i i') as [Hlt|[->|Hgt]]; [|done|].
    + exfalso. eapply (Hmin i j); [|done..].
      by rewrite lookup_take_lt by lia.
    + exfalso. by eapply (Hbefore i' j').
  - exfalso. rewrite list_find_None, Forall_forall in E.
    eapply (E j); [|done]. apply (list_elem_of_lookup_2 _ i).
    by rewrite lookup_take_lt by lia.
Qed.

(** The result of a search depends only on where the predicate holds. *)
Lemma first_slot_ext (P Q : Job → Prop) `{∀ j, Decision (P j)}
    `{∀ j, Decision (Q j)} tbl tbl' :
  length tbl = length tbl' →
  (∀ i j j', tbl !! i = Some j → tbl' !! i = Some j' → P j ↔ Q j') →
  first_slot P tbl = first_slot Q tbl'.
Proof.
  intros Hlen Hsame.
  destruct (first_slot P tbl) as [i|] eqn:E.
  - apply first_slot_Some in E as (Hi & j & Hj & HP & Hmin).
    destruct (lookup_lt_is_Some_2 tbl' i) as [j' Hj'].
    { rewrite <- Hlen. by eapply lookup_lt_Some. }
    symmetry. eapply first_slot_intro; [done..| |].
    + by apply (Hsame i j j').
    + intros k b' Hk Hb' HQ.
      destruct (lookup_lt_is_Some_2 tbl k) as [b Hb].
      { rewrite Hlen. by eapply lookup_lt_Some. }
      apply (Hmin k b Hk Hb). by apply (Hsame k b b').
  - destruct (first_slot Q tbl') as [i|] eqn:E'; [|done].
    apply first_slot_Some in E' as (Hi & j' & Hj' & HQ & _).
    destruct (lookup_lt_is_Some_2 tbl i) as [j Hj].
    { rewrite Hlen. by eapply lookup_lt_Some. }
    exfalso. eapply (first_slot_None P tbl E i j); [done..|].
    by apply (Hsame i j j').
Qed.

(** What the loop of cleanup_jobs does to each slot. *)
Lemma cleanup_loop_map tbl n tbl' n' :
  cleanup_loop tbl n = Some (tbl', n') →
  tbl' = map (λ j, if is_done j then purged j else j) tbl.
Proof.
  revert n tbl' n'. induction tbl as [|j tbl IH]; intros n tbl' n' H.
  - simpl in H. by simplify_eq.
  - simpl in H. destruct (is_done j) eqn:Ed.
    + destruct (int_decr n) as [m|]; [|done]. simpl in H.
      destruct (cleanup_loop tbl m) as [[r k]|] eqn:E; [|done].
      simpl in H. simplify_eq. simpl. rewrite Ed. f_equal. by eapply IH.
    + destruct (cleanup_loop tbl n) as [[r k]|] eqn:E; [|done].
      simpl in H. simplify_eq. simpl. rewrite Ed. f_equal. by eapply IH.
Qed.

Lemma cleanup_loop_quiet tbl n :
  Forall (λ j, is_done j = false) tbl → cleanup_loop tbl n = Some (tbl, n).
Proof.
  induction 1 as [|j tbl Hj _ IH]; [done|]. simpl. by rewrite Hj, IH.
Qed.

Lemma is_done_cleaned j : is_done (if is_done j then purged j else j) = false.
Proof.
  destruct (is_done j) eqn:E; [|done].
  unfold is_done, purged. cbn [job_id status].
  by rewrite (bool_decide_false (0 ≠ 0)) by naive_solver.
Qed.

Lemma cleanup_jobs_table s s' :
  cleanup_jobs s = Some s' →
  length (job_table s) = MAX_JOBS →
  job_table s' = map (λ j, if is_done j then purged j else j) (job_table s).
Proof.
  unfold cleanup_jobs. intros H Hlen.
  destruct (cleanup_loop _ _) as [[tbl n]|] eqn:E; [|done].
  simpl in H. simplify_eq. simpl.
  apply cleanup_loop_map in E. subst tbl.
  rewrite drop_ge by lia. rewrite take_ge by lia. by rewrite app_nil_r.
Qed.

(** X8 (jobs.c, cleanup_jobs): cleanup_jobs frees exactly the slots in use
    whose status is Done: afterwards no slot in use is Done, every other
    slot is as before, and a second call changes nothing. *)
Theorem cleanup_jobs_frees_done (s s' : job_state) :
  length (job_table s) = MAX_JOBS →
  cleanup_jobs s = Some s' →
  Forall (λ j, in_use j → status j ≠ JOB_DONE) (job_table s') ∧
  (∀ i j, job_table s !! i = Some j →
          ¬ (in_use j ∧ status j = JOB_DONE) →
          job_table s' !! i = Some j) ∧
  (∀ i j, job_table s !! i = Some j →
          in_use j → status j = JOB_DONE →
          job_id <$> job_table s' !! i = Some 0) ∧
  cleanup_jobs s' = Some s'.
Proof.
  intros Hlen H. pose proof (cleanup_jobs_table s s' H Hlen) as Htbl.
  assert (∀ j, is_done j = true ↔ in_use j ∧ status j = JOB_DONE) as Hd.
  { intros j. unfold is_done, in_use.
    rewrite andb_true_iff, !bool_decide_eq_true. done. }
  split; [|split; [|split]].
  - rewrite Htbl, Forall_forall. intros j' Hin.
    apply list_elem_of_fmap in Hin as (j & -> & _).
    destruct (is_done j) eqn:E.
    + unfold in_use, purged; simpl. done.
    + intros Hu Hs. assert (is_done j = true) by (by apply Hd). congruence.
  - intros i j Hj Hnd. rewrite Htbl, list_lookup_fmap, Hj. simpl.
    destruct (is_done j) eqn:E; [|done]. by apply Hd in E.
  - intros i j Hj Hu Hs. rewrite Htbl, !list_lookup_fmap, Hj. simpl.
    rewrite (proj2 (Hd j)) by done. done.
  - unfold cleanup_jobs.
    rewrite cleanup_loop_quiet.
    + simpl. rewrite take_drop. by destruct s'.
    + apply Forall_take. rewrite Htbl, Forall_forall. intros j' Hin.
      apply list_elem_of_fmap in Hin as (j & -> & _). apply is_done_cleaned.
Qed.

Lemma cleanup_jobs_frees_done_witness :
  ∃ s', cleanup_jobs one_job_table = Some s' ∧
        job_id <$> job_table s' !! 0%nat = Some 0 ∧
        cleanup_jobs s' = Some s'.
Proof.
  destruct (cleanup_jobs one_job_table) as [s'|] eqn:E;
    [|vm_compute in E; discriminate].
  exists s'.
  destruct (cleanup_jobs_frees_done one_job_table s') as (_ & _ & Hfree & Hid).
  - vm_compute. reflexivity.
  - exact E.
  - split; [done|]. split; [|done].
    eapply (Hfree 0%nat); [vm_compute; reflexivity| |]; vm_compute; done.
Defined.

Lemma get_all_loop_spec tbl max_jobs count :
  get_all_loop tbl max_jobs count
  = let out := take (Z.to_nat (max_jobs - count)) (List.filter listed tbl) in
    (count + Z.of_nat (length out), out).
Proof.
  revert count. induction tbl as [|j tbl IH]; intros count.
  - simpl. rewrite take_nil. simpl. f_equal. lia.
  - simpl. case_bool_decide as Hc.
    + destruct (listed j) eqn:El.
      * rewrite IH. simpl.
        replace (Z.to_nat (max_jobs - count))
          with (S (Z.to_nat (max_jobs - (count + 1)))) by lia.
        simpl. f_equal. lia.
      * apply IH.
    + replace (Z.to_nat (max_jobs - count)) with 0%nat by lia.
      simpl. f_equal. lia.
Qed.

(** X9 (jobs.c, get_all_jobs): the loop copies, in slot order, the first
    max_jobs slots that are in use and not Done, and returns how many it
    copied; a free slot or a Done job is never listed. *)
Theorem get_all_jobs_lists_live_jobs (max_jobs : Z) (s : job_state) :
  let live := List.filter listed (take MAX_JOBS (job_table s)) in
  get_all_jobs max_jobs s
  = (Z.of_nat (length (take (Z.to_nat max_jobs) live)),
     take (Z.to_nat max_jobs) live) ∧
  Forall (λ j, job_id j ≠ 0 ∧ status j ≠ JOB_DONE)
         (snd (get_all_jobs max_jobs s)) ∧
  fst (get_all_jobs max_jobs s) ≤ Z.max 0 (Z.min max_jobs (Z.of_nat MAX_JOBS)).
Proof.
  intros live. unfold get_all_jobs. rewrite get_all_loop_spec.
  fold live. cbn zeta. rewrite Z.sub_0_r, Z.add_0_l.
  split; [done|]. cbn [fst snd]. split.
  - apply Forall_take. unfold live. rewrite Forall_forall. intros j Hj.
    apply list_elem_of_In, filter_In in Hj as [_ Hj].
    unfold listed in Hj. apply andb_true_iff in Hj as [H1 H2].
    by apply bool_decide_eq_true in H1, H2.
  - rewrite length_take.
    assert (length live ≤ MAX_JOBS)%nat.
    { unfold live. etrans; [apply filter_length_le|].
      rewrite length_take. lia. }
    lia.
Qed.

Lemma get_all_loop_map f tbl max_jobs count :
  (∀ j, listed (f j) = listed j) →
  (∀ j, listed j = true → f j = j) →
  get_all_loop (map f tbl) max_jobs count = get_all_loop tbl max_jobs count.
Proof.
  intros Hl Hf. revert count.
  induction tbl as [|j tbl IH]; intros count; [done|].
  simpl. rewrite Hl. destruct (listed j) eqn:E.
  - rewrite Hf by done. by rewrite IH.
  - by rewrite IH.
Qed.

(** X10 (jobs.c, cleanup_jobs and get_all_jobs): the jobs command does not
    see cleanup_jobs: the listing is the same before and after it. *)
Theorem cleanup_jobs_keeps_listing (max_jobs : Z) (s s' : job_state) :
  cleanup_jobs s = Some s' →
  get_all_jobs max_jobs s' = get_all_jobs max_jobs s.
Proof.
  unfold cleanup_jobs. intros H.
  destruct (cleanup_loop _ _) as [[tbl n]|] eqn:E; [|done].
  simpl in H. simplify_eq. unfold get_all_jobs. simpl.
  apply cleanup_loop_map in E. subst tbl.
  set (f := λ j, if is_done j then purged j else j).
  assert (take MAX_JOBS (map f (take MAX_JOBS (job_table s))
                         ++ drop MAX_JOBS (job_table s))
          = map f (take MAX_JOBS (job_table s))) as ->.
  { destruct (decide (MAX_JOBS ≤ length (job_table s))%nat).
    - apply take_app_length'. rewrite length_map, length_take. lia.
    - rewrite drop_ge by lia. rewrite app_nil_r.
      apply take_ge. rewrite length_map, length_take. lia. }
  apply get_all_loop_map; intros j; unfold f.
  - destruct (is_done j) eqn:Ed; [|done].
    unfold is_done in Ed. apply andb_true_iff in Ed as [_ Ed].
    apply bool_decide_eq_true in Ed.
    unfold listed, purged. cbn [job_id status]. rewrite Ed.
    rewrite (bool_decide_false (0 ≠ 0)) by naive_solver.
    rewrite (bool_decide_false (JOB_DONE ≠ JOB_DONE)) by naive_solver.
    by rewrite !andb_false_r.
  - intros Hl. destruct (is_done j) eqn:Ed; [|done].
    unfold is_done in Ed. apply andb_true_iff in Ed as [_ Ed].
    apply bool_decide_eq_true in Ed.
    unfold listed in Hl. apply andb_true_iff in Hl as [_ Hl].
    by apply bool_decide_eq_true in Hl.
Qed.

Lemma cleanup_jobs_keeps_listing_witness :
  ∃ s', cleanup_jobs one_job_table = Some s' ∧
        get_all_jobs 100 s' = get_all_jobs 100 one_job_table.
Proof.
  destruct (cleanup_jobs one_job_table) as [s'|] eqn:E;
    [|vm_compute in E; discriminate].
  exists s'. split; [done|].
  exact (cleanup_jobs_keeps_listing 100 one_job_table s' E).
Defined.

(** A call that keeps the ID of each slot or sets it to 0 keeps the IDs
    distinct. *)
Lemma ids_distinct_shrink s s' :
  (∀ i a', job_table s' !! i = Some a' →
           ∃ a, job_table s !! i = Some a ∧
                (job_id a' = job_id a ∨ job_id a' = 0)) →
  ids_distinct s → ids_distinct s'.
Proof.
  intros Hs Hd i k a' b' Ha' Hb' Hne Heq.
  destruct (Hs i a' Ha') as (a & Ha & [Hia|Hia]); [|done].
  destruct (Hs k b' Hb') as (b & Hb & [Hib|Hib]); [|congruence].
  apply (Hd i k a b Ha Hb); congruence.
Qed.

Lemma init_jobs_ids_distinct : ids_distinct init_jobs.
Proof.
  intros i k a b Ha _ Hne _. unfold init_jobs in Ha.
  cbn [job_table] in Ha.
  apply lookup_replicate in Ha as [-> _]. done.
Qed.

Lemma add_job_ids_distinct pg cmd st ok s r s' :
  ids_below s → ids_distinct s →
  add_job pg cmd st ok s = Some (r, s') → ids_distinct s'.
Proof.
  intros Hb Hd H. unfold add_job in H.
  case_decide; [by simplify_eq|].
  destruct (first_slot _ _) as [slot|] eqn:E; [|by simplify_eq].
  destruct (int_incr (next_job_id s)) as [next'|] eqn:En; [|done].
  simpl in H.
  assert (∀ (i : nat) a, job_table s !! i = Some a →
                         job_id a ≠ next_job_id s) as Hfresh.
  { intros i a Ha. unfold ids_below in Hb. rewrite Forall_forall in Hb.
    pose proof (Hb a (list_elem_of_lookup_2 _ _ _ Ha)). lia. }
  assert (∀ tbl' : list Job,
    (∀ (i : nat) a', tbl' !! i = Some a' →
       (i = slot ∧ job_id a' = next_job_id s) ∨
       (i ≠ slot ∧ job_table s !! i = Some a')) →
    ∀ (i k : nat) a b, tbl' !! i = Some a → tbl' !! k = Some b →
               job_id a ≠ 0 → job_id a = job_id b → i = k) as Hgen.
  { intros tbl' Ht i k a b Ha Hb' Hne Heq.
    destruct (Ht i a Ha) as [[-> Hia]|[Hi Hia]];
      destruct (Ht k b Hb') as [[-> Hib]|[Hk Hib]]; [done| | |].
    - exfalso. apply (Hfresh k b Hib). congruence.
    - exfalso. apply (Hfresh i a Hia). congruence.
    - by apply (Hd i k a b). }
  destruct ok.
  - destruct (int_incr (num_jobs s)) as [num'|]; [|done]. simpl in H.
    simplify_eq. unfold ids_distinct. simpl. apply Hgen.
    intros i a' Ha'. destruct (decide (i = slot)) as [->|Hi].
    + left. split; [done|].
      apply list_lookup_insert_Some in Ha' as [(_ & <- & _)|[? _]]; done.
    + right. by rewrite list_lookup_insert_ne in Ha'.
  - simplify_eq. unfold ids_distinct. simpl. apply Hgen.
    intros i a' Ha'. destruct (decide (i = slot)) as [->|Hi].
    + left. split; [done|].
      rewrite list_lookup_alter_eq in Ha'.
      destruct (job_table s !! slot); simpl in Ha'; by simplify_eq.
    + right. by rewrite list_lookup_alter_ne in Ha'.
Qed.

Lemma remove_job_ids_distinct id s s' :
  ids_distinct s → remove_job id s = Some s' → ids_distinct s'.
Proof.
  intros Hd H. unfold remove_job in H.
  destruct (first_slot _ _) as [slot|] eqn:E; [|by simplify_eq].
  destruct (int_decr (num_jobs s)) as [num'|]; [|done]. simpl in H.
  simplify_eq. revert Hd. apply ids_distinct_shrink. simpl.
  intros i a' Ha'. destruct (decide (i = slot)) as [->|Hi].
  - apply list_lookup_insert_Some in Ha' as [(_ & <- & Hlt)|[? _]]; [|done].
    destruct (lookup_lt_is_Some_2 (job_table s) slot Hlt) as [a Ha].
    exists a. split; [done|]. by right.
  - rewrite list_lookup_insert_ne in Ha' by done. exists a'. by split; [|left].
Qed.

Lemma cleanup_jobs_ids_distinct s s' :
  ids_distinct s → cleanup_jobs s = Some s' → ids_distinct s'.
Proof.
  intros Hd H. unfold cleanup_jobs in H.
  destruct (cleanup_loop _ _) as [[tbl n]|] eqn:E; [|done].
  simpl in H. simplify_eq. apply cleanup_loop_map in E. subst tbl.
  revert Hd. apply ids_distinct_shrink. simpl.
  intros i a' Ha'.
  destruct (decide (i < MAX_JOBS)%nat) as [Hi|Hi].
  - destruct (decide (i < length (job_table s))%nat) as [Hl|Hl].
    + rewrite lookup_app_l in Ha'
        by (rewrite length_map, length_take; lia).
      rewrite list_lookup_fmap, lookup_take_lt in Ha' by done.
      destruct (job_table s !! i) as [a|]; [|done]. simpl in Ha'.
      exists a. split; [done|]. simplify_eq.
      destruct (is_done a); [by right|by left].
    + apply lookup_lt_Some in Ha'.
      rewrite length_app, length_map, length_take, length_drop in Ha'. lia.
  - rewrite lookup_app_r in Ha' by (rewrite length_map, length_take; lia).
    rewrite length_map, length_take, lookup_drop in Ha'.
    exists a'. split; [|by left]. rewrite <- Ha'. f_equal.
    apply lookup_lt_Some in Ha'. lia.
Qed.

Lemma alter_set_status_ids_distinct st i s :
  ids_distinct s →
  ids_distinct {| job_table := alter (set_status st) i (job_table s);
                  next_job_id := next_job_id s;
                  num_jobs := num_jobs s |}.
Proof.
  apply ids_distinct_shrink. simpl. intros k a' Ha'.
  destruct (decide (k = i)) as [->|Hk].
  - rewrite list_lookup_alter_eq in Ha'.
    destruct (job_table s !! i) as [a|]; [|done]. simpl in Ha'.
    exists a. split; [done|]. simplify_eq. by left.
  - rewrite list_lookup_alter_ne in Ha' by done. exists a'. by split; [|left].
Qed.

Lemma run_op_ids_distinct o s r s' :
  1 ≤ next_job_id s → ids_below s → ids_distinct s →
  run_op o s = Some (r, s') → ids_distinct s'.
Proof.
  intros Hn Hb Hd H. destruct o; simpl in H.
  - destruct (add_job _ _ _ _ _) as [[v t]|] eqn:E; [|done].
    simpl in H. simplify_eq. by eapply add_job_ids_distinct.
  - destruct (remove_job _ _) as [t|] eqn:E; [|done].
    simpl in H. simplify_eq. by eapply remove_job_ids_distinct.
  - destruct (cleanup_jobs _) as [t|] eqn:E; [|done].
    simpl in H. simplify_eq. by eapply cleanup_jobs_ids_distinct.
  - simplify_eq. unfold update_job_status.
    destruct (find_job _ _); [|done]. by apply alter_set_status_ids_distinct.
  - simplify_eq. unfold update_job_status_by_pgid.
    destruct (find_job_by_pgid _ _); [|done].
    by apply alter_set_status_ids_distinct.
Qed.

Lemma run_ops_ids_distinct ops s rets s' :
  1 ≤ next_job_id s → ids_below s → ids_distinct s →
  run_ops ops s = Some (rets, s') → ids_distinct s'.
Proof.
  revert s rets s'. induction ops as [|o ops IH]; intros s rets s' Hn Hb Hd H.
  - simpl in H. by simplify_eq.
  - simpl in H. destruct (run_op o s) as [[r t]|] eqn:E; [|done].
    simpl in H. destruct (run_ops ops t) as [[rs u]|] eqn:E'; [|done].
    simpl in H. simplify_eq.
    destruct (run_op_next o s r t Hn Hb E) as (Hle & Hb' & _).
    eapply (IH t); [lia|done| |done]. by eapply run_op_ids_distinct.
Qed.

(** X5 (jobs.c): in every session from init_jobs, whatever the calls and
    whether or not strdup fails, no two slots in use hold the same job
    ID. *)
Theorem session_ids_distinct (ops : list job_op) (rets : list Z)
    (s : job_state) :
  run_ops ops init_jobs = Some (rets, s) → ids_distinct s.
Proof.
  apply run_ops_ids_distinct.
  - done.
  - apply init_jobs_ids_below.
  - apply init_jobs_ids_distinct.
Qed.

Lemma session_ids_distinct_witness :
  ∃ rets s, run_ops sample_session init_jobs = Some (rets, s) ∧
            ids_distinct s.
Proof.
  destruct (run_ops sample_session init_jobs) as [[rets s]|] eqn:E;
    [|vm_compute in E; discriminate].
  exists rets, s. split; [done|].
  exact (session_ids_distinct sample_session rets s E).
Defined.

(** X6 (jobs.c, add_job and find_job): a job that add_job stored is found
    under the ID returned, with the process group, command and status
    given, and the lookup of every other job is as before. *)
Theorem add_job_then_find (pg : Z) (cmd : string) (st : JobStatus)
    (s s' : job_state) (id : Z) :
  ids_below s →
  add_job pg cmd st true s = Some (id, s') →
  id ≠ -1 →
  job_of id s' = Some {| job_id := id; pgid := pg; command := Some cmd;
                         status := st |} ∧
  ∀ id', id' ≠ id → id' ≠ 0 → job_of id' s' = job_of id' s.
Proof.
  intros Hb H Hid. unfold add_job in H.
  case_decide; [by simplify_eq|].
  destruct (first_slot _ _) as [slot|] eqn:E; [|by simplify_eq].
  destruct (int_incr (next_job_id s)) as [next'|] eqn:En; [|done].
  simpl in H.
  destruct (int_incr (num_jobs s)) as [num'|]; [|done]. simpl in H.
  simplify_eq.
  apply first_slot_Some in E as (Hslot & j0 & Hj0 & Hfree & _).
  pose proof (lookup_lt_Some _ _ _ Hj0) as Hlt.
  assert (∀ (i : nat) a, job_table s !! i = Some a →
                         job_id a ≠ next_job_id s) as Hfresh.
  { intros i a Ha. unfold ids_below in Hb. rewrite Forall_forall in Hb.
    pose proof (Hb a (list_elem_of_lookup_2 _ _ _ Ha)). lia. }
  split.
  - unfold job_of, find_job. cbn [job_table].
    rewrite (first_slot_intro _ _ slot
               {| job_id := next_job_id s; pgid := pg; command := Some cmd;
                  status := st |}); [| done | | done |].
    + simpl. by rewrite list_lookup_insert_eq.
    + by rewrite list_lookup_insert_eq.
    + intros k j' Hk Hj'. rewrite list_lookup_insert_ne in Hj' by lia.
      by apply (Hfresh k).
  - intros id' Hne Hnz. unfold job_of, find_job. cbn [job_table].
    rewrite (first_slot_ext (λ j, job_id j = id') (λ j, job_id j = id')
               (<[slot := _]> (job_table s)) (job_table s)).
    + destruct (first_slot _ (job_table s)) as [i|] eqn:Ei; [|done]. simpl.
      apply first_slot_Some in Ei as (_ & j & Hj & Hjid & _).
      apply list_lookup_insert_ne. intros ->. congruence.
    + by rewrite length_insert.
    + intros i j j' Hj Hj'. destruct (decide (i = slot)) as [->|Hi].
      * rewrite list_lookup_insert_eq in Hj by done. simplify_eq. simpl.
        split; intros; congruence.
      * rewrite list_lookup_insert_ne in Hj by done. by simplify_eq.
Qed.

Lemma add_job_then_find_witness :
  ∃ s', add_job 4001 "sleep 10" JOB_RUNNING true init_jobs = Some (1, s') ∧
        job_of 1 s' = Some {| job_id := 1; pgid := 4001;
                              command := Some "sleep 10"%string;
                              status := JOB_RUNNING |}.
Proof.
  destruct (add_job 4001 "sleep 10" JOB_RUNNING true init_jobs)
    as [[id s']|] eqn:E; [|vm_compute in E; discriminate].
  assert (id = 1) as -> by (vm_compute in E; congruence).
  exists s'. split; [done|].
  apply (add_job_then_find 4001 "sleep 10" JOB_RUNNING init_jobs s' 1).
  - apply init_jobs_ids_below.
  - exact E.
  - lia.
Defined.

(** A table with one job has distinct IDs. *)
Lemma single_job_distinct c next num :
  ids_distinct {| job_table := <[0%nat := c]> (replicate MAX_JOBS empty_slot);
                  next_job_id := next; num_jobs := num |}.
Proof.
  intros i k a b Ha Hb Hne Heq. cbn [job_table] in Ha, Hb.
  assert (∀ (n : nat) x, <[0%nat := c]> (replicate MAX_JOBS empty_slot) !! n
                         = Some x → job_id x ≠ 0 → n = 0%nat) as Hzero.
  { intros n x Hn Hnz. destruct n; [done|]. exfalso.
    rewrite list_lookup_insert_ne in Hn by done.
    apply lookup_replicate in Hn as [-> _]. done. }
  rewrite (Hzero i a Ha Hne). symmetry. apply (Hzero k b Hb). congruence.
Qed.

Lemma remove_job_lookup (id : Z) (s s' : job_state) :
  ids_distinct s →
  id ≠ 0 →
  remove_job id s = Some s' →
  find_job id s' = None ∧
  ∀ id', id' ≠ id → id' ≠ 0 → job_of id' s' = job_of id' s.
Proof.
  intros Hd Hid H. unfold remove_job in H.
  destruct (first_slot _ _) as [slot|] eqn:E.
  2:{ simplify_eq. split; [done|]. done. }
  destruct (int_decr (num_jobs s)) as [num'|]; [|done]. simpl in H.
  simplify_eq.
  apply first_slot_Some in E as (Hslot & j0 & Hj0 & Hjid & _).
  pose proof (lookup_lt_Some _ _ _ Hj0) as Hlt.
  split.
  - unfold find_job. cbn [job_table].
    destruct (first_slot _ _) as [k|] eqn:Ek; [|done]. exfalso.
    apply first_slot_Some in Ek as (_ & b & Hb & Hbid & _).
    destruct (decide (k = slot)) as [->|Hk].
    + rewrite list_lookup_insert_eq in Hb by done. by simplify_eq.
    + rewrite list_lookup_insert_ne in Hb by done.
      apply Hk. symmetry. apply (Hd slot k j0 b); congruence.
  - intros id' Hne Hnz. unfold job_of, find_job. cbn [job_table].
    rewrite (first_slot_ext (λ j, job_id j = id') (λ j, job_id j = id')
               (<[slot := empty_slot]> (job_table s)) (job_table s)).
    + destruct (first_slot _ (job_table s)) as [i|] eqn:Ei; [|done]. simpl.
      apply first_slot_Some in Ei as (_ & j & Hj & Hjid' & _).
      apply list_lookup_insert_ne. intros ->. congruence.
    + by rewrite length_insert.
    + intros i j j' Hj Hj'. destruct (decide (i = slot)) as [->|Hi].
      * rewrite list_lookup_insert_eq in Hj by done. simplify_eq. simpl.
        split; intros; congruence.
      * rewrite list_lookup_insert_ne in Hj by done. by simplify_eq.
Qed.

(** X7 (jobs.c, remove_job and find_job): once a job is removed its ID is
    no longer found, and the lookup of every other job is as before; the
    IDs in the table are distinct, as they are in every session. *)
Theorem remove_job_then_find (id : Z) (s s' : job_state) :
  ids_distinct s →
  id ≠ 0 →
  remove_job id s = Some s' →
  find_job id s' = None ∧
  ∀ id', id' ≠ id → id' ≠ 0 → job_of id' s' = job_of id' s.
Proof. apply remove_job_lookup. Qed.

Lemma remove_job_then_find_witness :
  ∃ s', remove_job 1 one_job_table = Some s' ∧ find_job 1 s' = None.
Proof.
  destruct (remove_job 1 one_job_table) as [s'|] eqn:E;
    [|vm_compute in E; discriminate].
  exists s'. split; [done|].
  apply (remove_job_then_find 1 one_job_table s').
  - apply single_job_distinct.
  - lia.
  - exact E.
Defined.

(** A change of status is seen by the lookup of that job only. *)
Lemma update_job_status_lookup id st s i id' :
  find_job id s = Some i →
  job_of id' (update_job_status id st s)
  = if decide (id' = id) then set_status st <$> job_of id s
    else job_of id' s.
Proof.
  intros Hf. unfold update_job_status. rewrite Hf.
  unfold job_of, find_job in *. cbn [job_table].
  rewrite (first_slot_ext (λ j, job_id j = id') (λ j, job_id j = id')
             (alter (set_status st) i (job_table s)) (job_table s)).
  - case_decide as Hid.
    + subst id'. rewrite Hf. simpl. apply list_lookup_alter_eq.
    + destruct (first_slot (λ j, job_id j = id') (job_table s))
        as [k|] eqn:Ek; [|done]. simpl.
      apply list_lookup_alter_ne. intros ->.
      apply first_slot_Some in Hf as (_ & a & Ha & Hida & _).
      apply first_slot_Some in Ek as (_ & b & Hb & Hidb & _).
      congruence.
  - by rewrite length_alter.
  - intros k j j' Hj Hj'. destruct (decide (k = i)) as [->|Hk].
    + rewrite list_lookup_alter_eq in Hj.
      rewrite Hj' in Hj. simpl in Hj. by simplify_eq.
    + rewrite list_lookup_alter_ne in Hj by done. by simplify_eq.
Qed.

Lemma alter_set_status_counted st i s :
  table_ok s → counted s →
  let s' := {| job_table := alter (set_status st) i (job_table s);
               next_job_id := next_job_id s;
               num_jobs := num_jobs s |} in
  table_ok s' ∧ counted s'.
Proof.
  intros [Hlen Hn] Hc. split.
  - split; simpl; [by rewrite length_alter|done].
  - unfold counted, used_slots in *. simpl. rewrite Hc. f_equal.
    symmetry. by apply count_alter.
Qed.

Lemma update_job_status_counted id st s :
  table_ok s → counted s →
  table_ok (update_job_status id st s) ∧ counted (update_job_status id st s).
Proof.
  intros Ht Hc. unfold update_job_status.
  destruct (find_job id s); [|done]. by apply alter_set_status_counted.
Qed.

Lemma update_job_status_by_pgid_counted pg st s :
  table_ok s → counted s →
  table_ok (update_job_status_by_pgid pg st s) ∧
  counted (update_job_status_by_pgid pg st s).
Proof.
  intros Ht Hc. unfold update_job_status_by_pgid.
  destruct (find_job_by_pgid pg s); [|done]. by apply alter_set_status_counted.
Qed.

End JobListingFacts.

(** * Facts about the signal handler and the job-control builtins *)

Module SignalsFacts.
Import Jobs JobListing Signals Executor.Wait JobsFacts ExecutorFacts
  JobListingFacts.

Lemma WIFEXITED_not_WIFSTOPPED s : WIFEXITED s = true → WIFSTOPPED s = false.
Proof.
  unfold WIFEXITED, WTERMSIG, WIFSTOPPED. intros H.
  apply Z.eqb_eq in H. apply Z.eqb_neq. intros E.
  assert (Z.land (Z.land s 255) 127 = Z.land s 127) as Hl.
  { rewrite <- Z.land_assoc. done. }
  rewrite E, H in Hl. by vm_compute in Hl.
Qed.

Lemma WIFSIGNALED_not_WIFSTOPPED s :
  WIFSIGNALED s = true → WIFSTOPPED s = false.
Proof.
  intros H. apply WIFSIGNALED_WTERMSIG in H. unfold WTERMSIG in H.
  unfold WIFSTOPPED. apply Z.eqb_neq. intros E.
  assert (Z.land (Z.land s 255) 127 = Z.land s 127) as Hl.
  { rewrite <- Z.land_assoc. done. }
  rewrite E in Hl. change (Z.land 127 127) with 127 in Hl. lia.
Qed.

Lemma alter_set_status_identity st i tbl :
  map identity_of (alter (set_status st) i tbl) = map identity_of tbl.
Proof.
  apply list_eq. intros k. rewrite !list_lookup_fmap.
  destruct (decide (k = i)) as [->|Hk].
  - rewrite list_lookup_alter_eq. by destruct (tbl !! i).
  - by rewrite list_lookup_alter_ne.
Qed.

Lemma update_by_pgid_identity pg st s :
  next_job_id (update_job_status_by_pgid pg st s) = next_job_id s ∧
  num_jobs (update_job_status_by_pgid pg st s) = num_jobs s ∧
  map identity_of (job_table (update_job_status_by_pgid pg st s))
  = map identity_of (job_table s).
Proof.
  unfold update_job_status_by_pgid.
  destruct (find_job_by_pgid pg s); [|done]. simpl.
  by rewrite alter_set_status_identity.
Qed.

Lemma sigchld_body_identity r s :
  next_job_id (sigchld_body r s) = next_job_id s ∧
  num_jobs (sigchld_body r s) = num_jobs s ∧
  map identity_of (job_table (sigchld_body r s))
  = map identity_of (job_table s).
Proof.
  unfold sigchld_body. case_bool_decide; [done|].
  destruct (find_job_by_pgid _ _); [|done].
  destruct (WIFSTOPPED _); [apply update_by_pgid_identity|].
  destruct (_ || _); [apply update_by_pgid_identity|done].
Qed.

Lemma identity_used_slots s s' :
  map identity_of (job_table s') = map identity_of (job_table s) →
  used_slots s' = used_slots s.
Proof.
  unfold used_slots. generalize (job_table s) (job_table s').
  induction l as [|j l IH]; intros [|j' l'] H; try done.
  simpl in H. unfold identity_of at 1 3 in H.
  inversion H as [[Hid Hpg Hcmd Hl]].
  rewrite !filter_cons, Hid. case_decide; simpl; by rewrite (IH l').
Qed.

(** X11 (signals.c, sigchld_handler): whatever children it reaps, the
    handler neither adds nor removes a job: the two counters and, slot by
    slot, the job ID, process group and command are as before, so the
    counter num_jobs keeps counting the slots in use. Only statuses
    change. *)
Theorem sigchld_handler_changes_status_only (children : list reaped)
    (s : job_state) :
  let s' := sigchld_handler children s in
  next_job_id s' = next_job_id s ∧
  num_jobs s' = num_jobs s ∧
  map identity_of (job_table s') = map identity_of (job_table s) ∧
  (counted s → counted s').
Proof.
  cbn zeta.
  assert (next_job_id (sigchld_handler children s) = next_job_id s ∧
          num_jobs (sigchld_handler children s) = num_jobs s ∧
          map identity_of (job_table (sigchld_handler children s))
          = map identity_of (job_table s)) as (Hn & Hj & Ht).
  { revert s. induction children as [|r rs IH]; intros s; [done|].
    simpl. destruct (IH (sigchld_body r s)) as (-> & -> & ->).
    apply sigchld_body_identity. }
  split; [done|]. split; [done|]. split; [done|].
  unfold counted. intros Hc. rewrite Hj, Hc. f_equal. symmetry.
  by apply identity_used_slots.
Qed.

(** The handler on the children it finds, one after the other. *)
Lemma sigchld_handler_cons r rs s :
  sigchld_handler (r :: rs) s = sigchld_handler rs (sigchld_body r s).
Proof. done. Qed.

(** A child that exited or was killed is skipped at the test of the answer
    of getpgid. *)
Lemma sigchld_body_ended c s :
  WIFSTOPPED (child_status c) = false →
  sigchld_body (mkReaped (child_status c) (getpgid_after_wait c)) s = s.
Proof.
  intros Hns. unfold sigchld_body, getpgid_after_wait. simpl.
  rewrite Hns. by rewrite bool_decide_true.
Qed.

(** One child does not turn a job into a Done one. *)
Lemma sigchld_body_no_new_done c s (i : nat) :
  status <$> job_table
               (sigchld_body (mkReaped (child_status c) (getpgid_after_wait c))
                  s) !! i = Some JOB_DONE →
  status <$> job_table s !! i = Some JOB_DONE.
Proof.
  destruct (WIFSTOPPED (child_status c)) eqn:Hst;
    [|by rewrite sigchld_body_ended].
  unfold sigchld_body, getpgid_after_wait. simpl. rewrite Hst.
  case_bool_decide; [done|].
  destruct (find_job_by_pgid (child_pgid c) s) as [k|] eqn:Hfind; [|done].
  unfold update_job_status_by_pgid. rewrite Hfind. cbn [job_table].
  destruct (decide (i = k)) as [->|Hik].
  - rewrite list_lookup_alter_eq. by destruct (job_table s !! k).
  - by rewrite list_lookup_alter_ne.
Qed.

(** X12 (signals.c, sigchld_handler): the handler asks getpgid for the
    group of a child after its waitpid has returned that child. A child that
    exited or was killed is no longer a process then, getpgid answers -1 and
    the handler goes on to the next child: children that ended leave the job
    table exactly as it was, the branch that marks their job Done is not
    reached. Whatever children the handler finds, stopped ones included, a
    slot whose status is Done after the handler had that status before: the
    only status the handler sets is Stopped. *)
Theorem handler_skips_ended_children (cs : list child) (s : job_state) :
  let s' := snd (run_sigchld_handler cs s) in
  (Forall (λ c, WIFSTOPPED (child_status c) = false) cs → s' = s) ∧
  (∀ i : nat, status <$> job_table s' !! i = Some JOB_DONE →
              status <$> job_table s !! i = Some JOB_DONE).
Proof.
  cbn zeta. unfold run_sigchld_handler. cbn [snd]. split.
  - intros Hall. revert s.
    induction Hall as [|c cs Hc _ IH]; intros s; [done|].
    unfold handler_waits. rewrite map_cons, sigchld_handler_cons.
    rewrite sigchld_body_ended by done. apply IH.
  - revert s. induction cs as [|c cs IH]; intros s i; [done|].
    unfold handler_waits. rewrite map_cons, sigchld_handler_cons.
    intros H. apply IH in H. by apply sigchld_body_no_new_done in H.
Qed.

(** A running job in group 4001 both of whose processes have exited: the
    handler leaves it Running. *)
Lemma handler_skips_ended_children_sample :
  let running := update_job_status 1 JOB_RUNNING stopped_job_table in
  let cs := [ {| child_pid := 4001; child_pgid := 4001; child_status := 0 |};
              {| child_pid := 4002; child_pgid := 4001;
                 child_status := 256 |} ] in
  status <$> job_table (snd (run_sigchld_handler cs running)) !! 0%nat
  = Some JOB_RUNNING.
Proof.
  intros running cs.
  destruct (handler_skips_ended_children cs running) as [Hsame _].
  rewrite Hsame; [vm_compute; reflexivity|].
  by repeat apply Forall_cons_2; [..|apply Forall_nil_2].
Defined.

End SignalsFacts.

Module BuiltinsFacts.
Import Jobs Parser JobListing History Signals Builtins Executor.Wait.
Import JobsFacts JobListingFacts HistoryFacts SignalsFacts.

(** X13 (builtins.c, builtin_jobs): the jobs command prints one line for
    each slot in use whose status is not Done, in slot order, and returns 0;
    the status word of a line is Running or Stopped, never Done. *)
Theorem jobs_prints_running_and_stopped (s : job_state) :
  builtin_jobs s
  = (0, map (λ j, (job_id j, status_str (status j), command j))
            (List.filter listed (take MAX_JOBS (job_table s)))) ∧
  Forall (λ line, line.1.2 = "Running"%string ∨ line.1.2 = "Stopped"%string)
         (snd (builtin_jobs s)).
Proof.
  set (live := List.filter listed (take MAX_JOBS (job_table s))).
  assert (length live ≤ MAX_JOBS)%nat as Hlive.
  { unfold live. etrans; [apply filter_length_le|]. rewrite length_take. lia. }
  assert (builtin_jobs s
          = (0, map (λ j, (job_id j, status_str (status j), command j)) live))
    as Heq.
  { unfold builtin_jobs, get_all_jobs. rewrite get_all_loop_spec.
    fold live. cbn zeta. rewrite Z.sub_0_r, Z.add_0_l, Nat2Z.id.
    rewrite (take_ge live) by lia.
    case_bool_decide as Hz.
    - destruct live; [done|]. simpl in Hz. lia.
    - by rewrite Nat2Z.id, take_ge by lia. }
  split; [done|]. rewrite Heq. cbn [snd].
  rewrite Forall_fmap, Forall_forall. intros j Hj. simpl.
  apply list_elem_of_In, filter_In in Hj as [_ Hj].
  unfold listed in Hj. apply andb_true_iff in Hj as [_ Hj].
  apply bool_decide_eq_true in Hj.
  destruct (status j); [by left|by right|done].
Qed.

(** X14 (builtins.c, execute_builtin and is_builtin): the chain of
    comparisons of execute_builtin selects a builtin for exactly the names
    that is_builtin accepts, so a command the executor hands over is never
    answered with the -1 of an unknown name. *)
Theorem dispatch_matches_is_builtin (cmd : string) (rest : list string) :
  is_Some (execute_builtin_target (Some (cmd :: rest)))
  ↔ Executor.is_builtin cmd = true.
Proof.
  unfold execute_builtin_target, Executor.is_builtin, Executor.builtin_names.
  cbn [existsb].
  repeat (destruct (String.eqb cmd _); [by split; [intros _|intros _; eexists]|]).
  cbn [orb]. split; [intros [? ?]; done|done].
Qed.

(** X15 (builtins.c, builtin_history, with get_all_history and
    get_history_entry of history.c): the history command prints every entry
    kept, oldest first, numbered from 1, and the number printed beside an
    entry is the index under which get_history_entry returns it. *)
Theorem history_numbers_are_entry_indices (h : history) :
  history_ok h →
  builtin_history h
  = (0, map (λ i, (Z.of_nat i + 1, get_history_entry (Z.of_nat i + 1) h))
            (seq 0 (Z.to_nat (get_history_count h)))).
Proof.
  intros (Hlen & Hc & Hn & Hsmall).
  unfold builtin_history, get_all_history, get_history_count.
  replace (if bool_decide (history_count h < 1000)
           then history_count h else 1000)
    with (history_count h) by (case_bool_decide; rem_lia).
  rewrite bool_decide_false by lia. f_equal.
  rewrite take_ge by (by rewrite length_map, length_seq).
  apply list_eq. intros i.
  rewrite list_lookup_imap, !list_lookup_fmap.
  destruct (decide (i < Z.to_nat (history_count h))%nat) as [Hi|Hi].
  - rewrite lookup_seq_lt by done. simpl.
    unfold get_history_entry.
    rewrite !bool_decide_false by lia. simpl.
    do 2 f_equal; [lia|]. do 2 f_equal. lia.
  - by rewrite lookup_seq_ge by lia.
Qed.

Lemma history_numbers_are_entry_indices_witness :
  builtin_history
    (record_all ["ls"; "ls"; "pwd"]%string init_history)
  = (0, [(1, Some "ls"%string); (2, Some "pwd"%string)]).
Proof.
  rewrite history_numbers_are_entry_indices.
  - vm_compute. reflexivity.
  - apply (record_all_tracks _ init_history [] init_history_tracks).
Defined.

(** X16 (builtins.c, builtin_bg): bg either fails with 1 and leaves the job
    table as it was, or returns 0; it returns 0 only for a positive ID of a
    job that is Stopped and whose group took the signal, and then that job,
    and no other, changes: it is Running. *)
Theorem bg_resumes_only_a_stopped_job (argv : list string) (kill_result : Z)
    (s s' : job_state) (r : Z) :
  builtin_bg argv kill_result s = Some (r, s') →
  (r = 1 ∧ s' = s) ∨
  (r = 0 ∧
   ∃ arg id job,
     argv !! 1%nat = Some arg ∧ atoi arg = Some id ∧ 0 < id ∧
     kill_result ≠ -1 ∧
     job_of id s = Some job ∧ status job = JOB_STOPPED ∧
     job_of id s' = Some (set_status JOB_RUNNING job) ∧
     ∀ id', id' ≠ id → job_of id' s' = job_of id' s).
Proof.
  unfold builtin_bg. intros H.
  destruct (argv !! 1%nat) as [arg|] eqn:Earg; [|left; by simplify_eq].
  destruct (atoi arg) as [id|] eqn:Eid; [|done]. simpl in H.
  case_bool_decide as Hpos; [left; by simplify_eq|].
  destruct (job_of id s) as [job|] eqn:Ejob; [|left; by simplify_eq].
  case_bool_decide as Hst; [left; by simplify_eq|].
  case_bool_decide as Hk; [left; by simplify_eq|].
  simplify_eq. right. split; [done|].
  exists arg, id, job.
  assert (status job = JOB_STOPPED) as Hs
    by (destruct (decide (status job = JOB_STOPPED)); done).
  split_and!; try done; try lia.
  - unfold job_of in Ejob.
    destruct (find_job id s) as [i|] eqn:Ef; [|done].
    rewrite (update_job_status_lookup id _ s i id Ef).
    rewrite decide_True by done. unfold job_of. rewrite Ef. simpl in *.
    by rewrite Ejob.
  - intros id' Hne. unfold job_of in Ejob.
    destruct (find_job id s) as [i|] eqn:Ef; [|done].
    rewrite (update_job_status_lookup id _ s i id' Ef).
    by rewrite decide_False.
Qed.

Lemma bg_resumes_only_a_stopped_job_witness :
  ∃ s', builtin_bg ["bg"; "1"]%string 0 stopped_job_table = Some (0, s') ∧
        job_of 1 s' = Some {| job_id := 1; pgid := 4001;
                              command := Some "sleep 10"%string;
                              status := JOB_RUNNING |}.
Proof.
  destruct (builtin_bg ["bg"; "1"]%string 0 stopped_job_table)
    as [[r s']|] eqn:E; [|vm_compute in E; discriminate].
  assert (r = 0) as -> by (vm_compute in E; congruence).
  exists s'. split; [done|].
  destruct (bg_resumes_only_a_stopped_job _ _ _ _ _ E)
    as [[? _]|(_ & arg & id & job & Harg & Hid & _ & _ & Hjob & _ & Hnew & _)];
    [done|].
  vm_compute in Harg. simplify_eq. vm_compute in Hid. simplify_eq.
  vm_compute in Hjob. simplify_eq. exact Hnew.
Defined.

Lemma fg_wait_counted waits id pg s :
  id ≠ 0 → table_ok s → counted s →
  ∃ s', fg_wait waits id pg s = Some s' ∧ table_ok s' ∧ counted s'.
Proof.
  intros Hid Ht Hc. induction waits as [|[pid st] rest IH]; simpl.
  { by exists s. }
  case_bool_decide; [|by exists s].
  destruct (WIFSTOPPED st).
  { eexists. split; [done|]. by apply update_job_status_by_pgid_counted. }
  destruct (_ || _); [|done].
  by apply remove_job_counted.
Qed.

(** X17 (builtins.c, builtin_fg): fg returns 0 or 1 and keeps the job table
    sound: whatever the answers of the terminal, of kill and of waitpid, the
    table is still an array of MAX_JOBS slots whose counter num_jobs counts
    the slots in use, and a failure, 1, leaves the table untouched. The
    guard on the job ID keeps remove_job away from the ID 0. *)
Theorem fg_keeps_the_job_count (argv : list string) (os : fg_os)
    (s : job_state) :
  table_ok s → counted s →
  (∀ arg, argv !! 1%nat = Some arg → is_Some (atoi arg)) →
  ∃ r s', builtin_fg argv os s = Some (r, s') ∧
          (r = 0 ∨ r = 1) ∧ (r = 1 → s' = s) ∧
          table_ok s' ∧ counted s'.
Proof.
  intros Ht Hc Hatoi. unfold builtin_fg.
  destruct (argv !! 1%nat) as [arg|] eqn:Earg.
  2:{ exists 1, s. split_and!; by auto. }
  destruct (Hatoi arg eq_refl) as [id ->]. simpl.
  case_bool_decide as Hpos. { exists 1, s. split_and!; by auto. }
  destruct (job_of id s) as [job|]. 2:{ exists 1, s. split_and!; by auto. }
  case_bool_decide. { exists 1, s. split_and!; by auto. }
  destruct (_ && _). { exists 1, s. split_and!; by auto. }
  match goal with |- context [fg_wait _ _ _ ?s1] =>
    assert (table_ok s1 ∧ counted s1) as [Ht1 Hc1]
  end.
  { case_bool_decide; [|done]. by apply update_job_status_counted. }
  destruct (fg_wait_counted (fo_waits os) id (pgid job) _ ltac:(lia) Ht1 Hc1)
    as (s2 & -> & Ht2 & Hc2).
  simpl. exists 0, s2. split_and!; auto. lia.
Qed.

Lemma fg_keeps_the_job_count_witness :
  ∃ r s', builtin_fg ["fg"; "1"]%string fg_until_exit stopped_job_table
          = Some (r, s') ∧
          (r = 0 ∨ r = 1) ∧ (r = 1 → s' = stopped_job_table) ∧
          table_ok s' ∧ counted s'.
Proof.
  apply (fg_keeps_the_job_count ["fg"; "1"]%string fg_until_exit
           stopped_job_table).
  - split; [vm_compute; reflexivity|vm_compute; discriminate].
  - vm_compute. reflexivity.
  - intros arg Harg. vm_compute in Harg. injection Harg as <-.
    vm_compute. eexists. reflexivity.
Defined.

(** X18 (builtins.c, builtin_fg, with remove_job of jobs.c): when the job
    brought to the foreground exits or is killed, fg returns 0 and the job
    is gone from the table: its ID is no longer found. *)
Theorem fg_removes_a_finished_job (argv : list string) (os : fg_os)
    (s : job_state) (arg : string) (id : Z) (job : Job)
    (pid st : Z) (rest : list (Z * Z)) :
  ids_distinct s →
  INT_MIN < num_jobs s →
  argv !! 1%nat = Some arg → atoi arg = Some id → 0 < id →
  job_of id s = Some job →
  fo_tcsetpgrp os ≠ -1 →
  (status job = JOB_STOPPED → fo_kill os ≠ -1) →
  fo_waits os = (pid, st) :: rest → 0 < pid →
  WIFEXITED st || WIFSIGNALED st = true →
  ∃ s', builtin_fg argv os s = Some (0, s') ∧ find_job id s' = None.
Proof.
  intros Hd Hnum Harg Hid Hpos Hjob Htc Hkill Hw Hpid Hst.
  assert (WIFSTOPPED st = false) as Hns.
  { apply orb_true_iff in Hst as [H|H];
      [by apply WIFEXITED_not_WIFSTOPPED|by apply WIFSIGNALED_not_WIFSTOPPED]. }
  unfold builtin_fg. rewrite Harg, Hid. simpl.
  rewrite bool_decide_false by lia. rewrite Hjob.
  rewrite (bool_decide_false (fo_tcsetpgrp os = -1)) by done.
  rewrite Hw. simpl. rewrite (bool_decide_true (0 < pid)) by done.
  rewrite Hns, Hst.
  match goal with |- context [remove_job id ?s1] => set (s1' := s1) end.
  assert (ids_distinct s1' ∧ num_jobs s1' = num_jobs s) as [Hd1 Hn1].
  { unfold s1'. destruct (decide (status job = JOB_STOPPED)) as [Hs|Hs].
    - rewrite (bool_decide_true (status job = JOB_STOPPED)) by done.
      unfold update_job_status. destruct (find_job id s); [|done].
      split; [by apply alter_set_status_ids_distinct|done].
    - by rewrite (bool_decide_false (status job = JOB_STOPPED)) by done. }
  assert (∃ s', remove_job id s1' = Some s') as [s' Hrm].
  { unfold remove_job. destruct (first_slot _ _); [|by eexists].
    rewrite int_decr_Some by lia. by eexists. }
  assert ((if bool_decide (status job = JOB_STOPPED) &&
              bool_decide (fo_kill os = -1)
           then Some (1, s) else remove_job id s1' ≫= λ s2, Some (0, s2))
          = Some (0, s')) as Hgoal.
  { destruct (decide (status job = JOB_STOPPED)) as [Hs|Hs].
    - rewrite (bool_decide_false (fo_kill os = -1)) by auto.
      rewrite andb_false_r. by rewrite Hrm.
    - rewrite (bool_decide_false (status job = JOB_STOPPED)) by done.
      simpl. by rewrite Hrm. }
  exists s'. split; [exact Hgoal|].
  by apply (remove_job_lookup id s1' s' Hd1 ltac:(lia) Hrm).
Qed.

Lemma fg_removes_a_finished_job_witness :
  ∃ s', builtin_fg ["fg"; "1"]%string fg_until_exit stopped_job_table
        = Some (0, s') ∧ find_job 1 s' = None.
Proof.
  apply (fg_removes_a_finished_job ["fg"; "1"]%string fg_until_exit
           stopped_job_table "1"%string 1
           {| job_id := 1; pgid := 4001; command := Some "sleep 10"%string;
              status := JOB_STOPPED |} 4001 0 []).
  - apply single_job_distinct.
  - vm_compute. reflexivity.
  - reflexivity.
  - vm_compute. reflexivity.
  - lia.
  - vm_compute. reflexivity.
  - vm_compute. discriminate.
  - intros _. vm_compute. discriminate.
  - reflexivity.
  - lia.
  - vm_compute. reflexivity.
Defined.

End BuiltinsFacts.

(** * Facts about the tokens of commands and pipelines *)

Module SyntaxFacts.
Import Parser Syntax ParserFacts.

Local Open Scope string_scope.
Local Open Scope list_scope.

(** A prefix the loop accepts, with room left in argv and no [&] read: the
    loop goes on after it from the locals that make up the command. *)
Lemma parse_command_loop_resume ws a c args :
  parse_command_loop ws a = Parsed c → argv c = Some args →
  (length args < MAX_ARGS - 1)%nat →
  background c = 0%Z →
  ∃ a', acc_command a' = c ∧
        ∀ tail, parse_command_loop (ws ++ tail) a = parse_command_loop tail a'.
Proof.
  change (MAX_ARGS - 1)%nat with 63%nat.
  remember (length ws) as n eqn:Hn.
  revert ws a Hn. induction (lt_wf n) as [n _ IH].
  intros ws a Hn H Hargs Hlen Hbg.
  pose proof (parse_command_loop_argv _ _ _ _ H Hargs) as Hmono.
  destruct ws as [|t ws]; simpl in *.
  { exists a. split; [by simplify_eq|done]. }
  destruct (Nat.ltb_spec (length (acc_argv a)) 63); [|lia].
  destruct (t =? "<").
  { destruct ws as [|f ws]; [done|]. simpl.
    destruct (acc_input a); [done|].
    eapply IH; [|done|done|done|done|done]. simpl in *. lia. }
  destruct (t =? ">").
  { destruct ws as [|f ws]; [done|]. simpl.
    destruct (acc_output a); [done|].
    eapply IH; [|done|done|done|done|done]. simpl in *. lia. }
  destruct (t =? ">>").
  { destruct ws as [|f ws]; [done|]. simpl.
    destruct (acc_output a); [done|].
    eapply IH; [|done|done|done|done|done]. simpl in *. lia. }
  destruct (t =? "&").
  { destruct ws as [|f ws]; [|done]. by simplify_eq. }
  eapply IH; [|done|done|done|done|done]. simpl in *. lia.
Qed.

(** X19 (parser.c, parse_command): errors of redirection. After a prefix
    that parse_command accepts with room left in argv and without
    background flag, a redirection operator at the end of the line is
    reported as unexpected token, a second input redirection as multiple
    input redirections, and a second output redirection, of either kind, as
    multiple output redirections. *)
Theorem redirection_errors (pre : list string) (c : Command)
    (args : list string) :
  parse_command pre = Parsed c → argv c = Some args →
  (length args < MAX_ARGS - 1)%nat →
  background c = 0%Z →
  (∀ op, op ∈ ["<"; ">"; ">>"] →
     parse_command (pre ++ [op]) = Rejected (Some (UnexpectedToken op))) ∧
  (is_Some (input_file c) →
   ∀ f rest,
     parse_command (pre ++ "<" :: f :: rest) = Rejected (Some MultipleInput)) ∧
  (is_Some (output_file c) →
   ∀ op f rest, op ∈ [">"; ">>"] →
     parse_command (pre ++ op :: f :: rest) = Rejected (Some MultipleOutput)).
Proof.
  intros Hpre Hargs Hlen Hbg. unfold parse_command in *.
  destruct pre as [|t pre]; [done|].
  destruct (parse_command_loop_resume _ _ _ _ Hpre Hargs Hlen Hbg)
    as (a' & Ha' & Hres).
  assert ((length (acc_argv a') <? 63)%nat = true) as Hroom.
  { apply Nat.ltb_lt. subst c. simpl in Hargs. by simplify_eq. }
  split; [|split].
  - intros op Hop.
    change ((t :: pre) ++ [op]) with (t :: (pre ++ [op])).
    change (t :: (pre ++ [op])) with ((t :: pre) ++ [op]).
    rewrite Hres. simpl. rewrite Hroom.
    apply list_elem_of_In in Hop. simpl in Hop.
    destruct Hop as [<-|[<-|[<-|[]]]]; done.
  - intros Hin f rest.
    change ((t :: pre) ++ "<" :: f :: rest)
      with (t :: (pre ++ "<" :: f :: rest)).
    change (t :: (pre ++ "<" :: f :: rest))
      with ((t :: pre) ++ "<" :: f :: rest).
    rewrite Hres. simpl. rewrite Hroom.
    subst c. simpl in Hin. by destruct Hin as [x ->].
  - intros Hout op f rest Hop.
    change ((t :: pre) ++ op :: f :: rest)
      with (t :: (pre ++ op :: f :: rest)).
    change (t :: (pre ++ op :: f :: rest))
      with ((t :: pre) ++ op :: f :: rest).
    rewrite Hres. simpl. rewrite Hroom.
    subst c. simpl in Hout. destruct Hout as [x Hx].
    apply list_elem_of_In in Hop. simpl in Hop.
    destruct Hop as [<-|[<-|[]]]; simpl; by rewrite Hx.
Qed.

Lemma redirection_errors_witness :
  parse_command ["sort"; "<"; "a"; ">"; "b"; "<"; "c"]
  = Rejected (Some MultipleInput) ∧
  parse_command ["sort"; "<"; "a"; ">"; "b"; ">>"; "c"]
  = Rejected (Some MultipleOutput) ∧
  parse_command ["sort"; "<"; "a"; ">"; "b"; ">"]
  = Rejected (Some (UnexpectedToken ">")).
Proof.
  destruct (redirection_errors ["sort"; "<"; "a"; ">"; "b"]
              {| argv := Some ["sort"]; input_file := Some "a";
                 output_file := Some "b"; append_mode := 0;
                 background := 0 |} ["sort"])
    as (Hend & Hin & Hout).
  - reflexivity.
  - reflexivity.
  - vm_compute. lia.
  - reflexivity.
  - split; [|split].
    + apply (Hin ltac:(by eexists) "c" []).
    + apply (Hout ltac:(by eexists) ">>" "c" []).
      apply list_elem_of_In. simpl. tauto.
    + apply (Hend ">"). apply list_elem_of_In. simpl. tauto.
Defined.

Lemma parse_command_nonempty toks :
  toks ≠ [] → parse_command toks = parse_command_loop toks acc_init.
Proof. by destruct toks. Qed.

(** Words are appended to argv as long as there is room. *)
Lemma parse_command_loop_words ws tail a :
  Forall (λ t, is_word t = true) ws →
  (length (acc_argv a) + length ws ≤ MAX_ARGS - 1)%nat →
  parse_command_loop (ws ++ tail) a
  = parse_command_loop tail (with_argv (acc_argv a ++ ws) a).
Proof.
  change (MAX_ARGS - 1)%nat with 63%nat.
  intros Hws. revert a. induction Hws as [|t ws Ht Hws IH]; intros a Hlen.
  - simpl. rewrite app_nil_r. by destruct a.
  - simpl in *. destruct (Nat.ltb_spec (length (acc_argv a)) 63); [|lia].
    apply is_word_branches in Ht as (H1 & H2 & H3 & H4).
    rewrite H1, H2, H3, H4.
    rewrite IH by (simpl; rewrite length_app; simpl; lia).
    unfold with_argv. simpl. by rewrite <- app_assoc.
Qed.

Lemma parse_command_spelled c :
  spelled c → command_tokens c ≠ [] →
  parse_command (command_tokens c) = Parsed c.
Proof.
  change (MAX_ARGS - 1)%nat with 63%nat.
  intros ((args & Hargs & Hlen & Hws) & Happ & Hbg) Hne.
  rewrite parse_command_nonempty by done.
  destruct c as [av inp out app bg]. simpl in *. subst av.
  unfold command_tokens, redirection_tokens. simpl.
  rewrite parse_command_loop_words by (simpl; try done; lia).
  unfold with_argv, acc_init. simpl.
  assert ((length args <? 63)%nat = true) as Hroom by (by apply Nat.ltb_lt).
  destruct inp as [f|], out as [g|];
    destruct Happ as [-> | [-> [x Hx]]], Hbg as [-> | ->];
    simpl; rewrite ?Hroom; simpl; rewrite ?Hroom; simpl; rewrite ?Hroom;
    simpl; try done.
Qed.

(** X20 (parser.c, parse_command): writing a command out and parsing it
    gives the command back. The tokens are the arguments, then the input
    redirection, then the output redirection, with two angle brackets when
    append_mode is set, then the background sign. *)
Theorem parse_command_round_trip (c : Command) :
  spelled c → command_tokens c ≠ [] →
  parse_command (command_tokens c) = Parsed c ∧
  parse_return (parse_command (command_tokens c)) = 0%Z.
Proof.
  intros Hs Hne. by rewrite parse_command_spelled.
Qed.

Lemma sample_sort_spelled : spelled sample_sort.
Proof.
  split; [|split].
  - exists ["sort"; "-r"]. split; [done|]. split; [vm_compute; lia|].
    repeat constructor.
  - right. split; [done|]. by eexists.
  - by right.
Qed.

Lemma parse_command_round_trip_witness :
  parse_command ["sort"; "-r"; "<"; "in.txt"; ">>"; "out.txt"; "&"]
  = Parsed sample_sort.
Proof.
  apply (parse_command_round_trip sample_sort).
  - apply sample_sort_spelled.
  - discriminate.
Defined.

(** Every [|] that the splitting loop passes adds one command. *)
Lemma split_loop_count toks seg cmds cmds' seg' :
  split_loop toks seg cmds = Parsed (cmds', seg') →
  Z.of_nat (length cmds') = (Z.of_nat (length cmds) + pipe_count toks)%Z.
Proof.
  unfold pipe_count. revert seg cmds.
  induction toks as [|t toks IH]; intros seg cmds H; simpl in H.
  - simplify_eq. simpl. lia.
  - rewrite filter_cons. destruct (String.eqb_spec t "|") as [->|Hne].
    + rewrite decide_True by done.
      destruct seg as [|s0 seg]; [done|].
      destruct (parse_command (s0 :: seg)) as [c|]; [|done].
      apply IH in H. rewrite length_app in H. simpl in *. lia.
    + rewrite decide_False by done. by apply IH in H.
Qed.

(** X21 (parser.c, parse_pipeline): a pipeline that parse_pipeline returns
    has as many commands as num_commands says, one more than there are [|]
    tokens and so at least one, and none of them has a NULL argv. *)
Theorem parse_pipeline_counts_commands (toks : list string) (p : Pipeline) :
  parse_pipeline toks = Parsed p →
  num_commands p = Z.of_nat (length (commands p)) ∧
  num_commands p = (pipe_count toks + 1)%Z ∧
  (1 ≤ num_commands p)%Z ∧
  Forall (λ c, is_Some (argv c)) (commands p).
Proof.
  unfold parse_pipeline. intros H.
  destruct (_ =? 0)%Z; [done|].
  destruct (split_loop toks [] []) as [[cmds remaining]|] eqn:Es; [|done].
  destruct remaining as [|r0 remaining]; [done|].
  destruct (parse_command (last_segment _ _)) as [c|] eqn:Ec; [|done].
  simplify_eq. simpl.
  pose proof (split_loop_count _ _ _ _ _ Es) as Hn. simpl in Hn.
  assert (0 ≤ pipe_count toks)%Z by (unfold pipe_count; lia).
  split_and!; [rewrite length_app; simpl; lia|done|lia|].
  assert (∀ ws c', parse_command ws = Parsed c' → is_Some (argv c')) as Hargv.
  { intros ws c' Hc'. unfold parse_command in Hc'. destruct ws; [done|].
    clear -Hc'. revert Hc'. generalize acc_init. generalize (s :: ws).
    intros l. induction l as [l IH] using (induction_ltof1 _ (@length _)).
    unfold ltof in IH. intros a H. destruct l as [|t l]; simpl in H.
    { simplify_eq. by eexists. }
    destruct (_ <? _)%nat; [|simplify_eq; by eexists].
    destruct (t =? "<").
    { destruct l as [|f l]; [done|]. destruct (acc_input a); [done|].
      eapply (IH l); [simpl; lia|done]. }
    destruct (t =? ">").
    { destruct l as [|f l]; [done|]. destruct (acc_output a); [done|].
      eapply (IH l); [simpl; lia|done]. }
    destruct (t =? ">>").
    { destruct l as [|f l]; [done|]. destruct (acc_output a); [done|].
      eapply (IH l); [simpl; lia|done]. }
    destruct (t =? "&").
    { destruct l; [|done]. simplify_eq. by eexists. }
    eapply (IH l); [simpl; lia|done]. }
  apply Forall_app. split; [|constructor; [by eapply Hargv|constructor]].
  clear -Es Hargv.
  assert (Forall (λ c0, is_Some (argv c0)) ([] : list Command)) as Hnil
    by constructor.
  revert Es Hnil. generalize (@nil Command) at 1 2. generalize (@nil string).
  induction toks as [|t toks IH]; intros seg acc H Hacc; simpl in H.
  - by simplify_eq.
  - destruct (t =? "|").
    + destruct seg as [|s0 seg]; [done|].
      destruct (parse_command (s0 :: seg)) as [c0|] eqn:E0; [|done].
      eapply IH; [done|]. apply Forall_app. split; [done|].
      constructor; [by eapply Hargv|constructor].
    + by eapply IH.
Qed.

Lemma parse_pipeline_counts_commands_witness :
  ∃ p, parse_pipeline ["ls"; "|"; "grep"; "x"; "|"; "wc"] = Parsed p ∧
       num_commands p = 3%Z ∧ length (commands p) = 3%nat.
Proof.
  destruct (parse_pipeline ["ls"; "|"; "grep"; "x"; "|"; "wc"])
    as [p|] eqn:E; [|vm_compute in E; discriminate].
  exists p. split; [done|].
  destruct (parse_pipeline_counts_commands _ p E) as (Hlen & Hn & _ & _).
  assert (num_commands p = 3%Z) as H3 by (rewrite Hn; vm_compute; reflexivity).
  split; [done|]. lia.
Defined.

(** The splitting loop over the commands of a pipeline but the last. *)
Lemma split_loop_piped cs tail acc :
  Forall pipe_segment cs →
  split_loop (concat (map (λ c, command_tokens c ++ ["|"]) cs) ++ tail) [] acc
  = split_loop tail [] (acc ++ cs).
Proof.
  intros Hcs. revert acc. induction Hcs as [|c cs Hc Hcs IH]; intros acc.
  - simpl. by rewrite app_nil_r.
  - cbn [map concat]. destruct Hc as (Hsp & Hbg & Hne & Hnp & Hlast).
    rewrite <- !app_assoc. rewrite split_loop_words by done.
    cbn [app split_loop]. rewrite String.eqb_refl.
    destruct (command_tokens c) as [|t ts] eqn:Et; [done|].
    rewrite <- Et. rewrite parse_command_spelled by (done || by rewrite Et).
    rewrite IH. by rewrite <- app_assoc.
Qed.

Lemma piped_concat cs c :
  piped (cs ++ [c])
  = concat (map (λ c, command_tokens c ++ ["|"]) cs) ++ command_tokens c.
Proof.
  induction cs as [|c0 cs IH]; [done|].
  change (piped ((c0 :: cs) ++ [c])) with (piped (c0 :: (cs ++ [c]))).
  destruct (cs ++ [c]) as [|c1 l] eqn:E; [by destruct cs|].
  change (piped (c0 :: c1 :: l)) with (command_tokens c0 ++ "|" :: piped (c1 :: l)).
  rewrite IH. cbn [map concat]. by rewrite <- !app_assoc.
Qed.

Lemma pipe_count_app l1 l2 :
  pipe_count (l1 ++ l2) = (pipe_count l1 + pipe_count l2)%Z.
Proof. unfold pipe_count. rewrite filter_app, length_app. lia. Qed.

Lemma pipe_count_none l :
  Forall (λ t, (t =? "|") = false) l → pipe_count l = 0%Z.
Proof.
  unfold pipe_count. induction 1 as [|t l Ht _ IH]; [done|].
  rewrite filter_cons, decide_False; [done|].
  intros ->. by rewrite String.eqb_refl in Ht.
Qed.

Lemma pipe_count_segments cs :
  Forall pipe_segment cs →
  pipe_count (concat (map (λ c, command_tokens c ++ ["|"]) cs))
  = Z.of_nat (length cs).
Proof.
  induction 1 as [|c cs Hc _ IH]; [done|]. cbn [map concat length].
  rewrite !pipe_count_app, IH.
  rewrite pipe_count_none by apply Hc.
  change (pipe_count ["|"]) with 1%Z. lia.
Qed.

(** X22 (parser.c, parse_pipeline): writing a pipeline out and parsing it
    gives the pipeline back: the commands joined by [|], followed by [&] when
    the pipeline runs in the background. The background flag is that of the
    pipeline; the commands themselves carry none. *)
Theorem parse_pipeline_round_trip (p : Pipeline) :
  spelled_pipeline p →
  parse_pipeline (pipeline_tokens p) = Parsed p.
Proof.
  intros (Hne & Hcs & Hnum & Hbg).
  destruct p as [cmds n bg]. simpl in *.
  destruct cmds as [|c0 cs0]; [done|].
  destruct (exists_last (l := c0 :: cs0) ltac:(done)) as (cs & c & Heq).
  rewrite Heq in *. clear Heq Hne c0 cs0.
  apply Forall_app in Hcs as [Hcs Hc].
  apply Forall_cons in Hc as [Hc _].
  pose proof Hc as (Hsp & Hcbg & Hcne & Hnp & Hlast).
  unfold pipeline_tokens, parse_pipeline. simpl.
  rewrite piped_concat.
  set (amp := if (bg =? 1)%Z then ["&"] else []).
  assert (has_background
            ((concat (map (λ c, command_tokens c ++ ["|"]) cs)
              ++ command_tokens c) ++ amp) = bg) as ->.
  { unfold has_background, amp. destruct Hbg as [-> | ->]; simpl.
    - rewrite app_nil_r, last_app.
      destruct (last (command_tokens c)) as [t|] eqn:El.
      + destruct (String.eqb_spec t "&"); [congruence|done].
      + by destruct (command_tokens c) using rev_ind;
          [|rewrite last_snoc in El].
    - by rewrite last_snoc. }
  rewrite pipe_count_nonneg.
  rewrite <- app_assoc, split_loop_piped by done.
  assert (Forall (λ t, (t =? "|") = false) (command_tokens c ++ amp)) as Hnp'.
  { apply Forall_app. split; [done|]. unfold amp.
    destruct (bg =? 1)%Z; repeat constructor. }
  rewrite <- (app_nil_r (command_tokens c ++ amp)).
  rewrite split_loop_words by done. simpl.
  destruct (command_tokens c ++ amp) as [|t ts] eqn:Et.
  { by destruct (command_tokens c). }
  rewrite <- Et.
  assert (last_segment bg (command_tokens c ++ amp) = command_tokens c) as ->.
  { unfold last_segment, amp. destruct Hbg as [-> | ->]; simpl.
    - rewrite app_nil_r. by destruct (last (command_tokens c)).
    - rewrite last_snoc. simpl. apply last_snoc_take. }
  rewrite parse_command_spelled by done.
  do 2 f_equal. rewrite Hnum, !pipe_count_app, pipe_count_segments by done.
  rewrite pipe_count_none by done.
  assert (pipe_count amp = 0%Z) as ->.
  { unfold amp. by destruct (bg =? 1)%Z. }
  change (pipe_count []) with 0%Z.
  rewrite length_app. simpl. lia.
Qed.

Lemma sample_job_spelled : spelled_pipeline sample_job.
Proof.
  split; [done|]. split; [|split; [done|by right]].
  repeat constructor; try (by left); try done;
    try (eexists; split; [reflexivity|]; split; [vm_compute; lia|];
         repeat constructor).
Qed.

Lemma parse_pipeline_round_trip_witness :
  parse_pipeline ["grep"; "x"; "<"; "in.txt"; "|"; "wc"; "-l"; ">"; "n.txt";
                  "&"]
  = Parsed sample_job.
Proof.
  apply (parse_pipeline_round_trip sample_job), sample_job_spelled.
Defined.

End SyntaxFacts.

(** * Facts about the lexer on whole lines *)

Module LexingFacts.
Import Parser Lexing LexerFacts.

Local Open Scope char_scope.
Local Open Scope list_scope.

Ltac size_lia := unfold MAX_INPUT_SIZE, MAX_TOKENS in *; lia.

(** *** Fuel *)

Lemma lex_loop_fuel env f1 f2 p lx :
  (length p < f1)%nat → (length p < f2)%nat →
  lex_loop f1 env p lx = lex_loop f2 env p lx.
Proof.
  revert f2 p lx. induction f1 as [|f1 IH]; intros f2 p lx H1 H2; [lia|].
  destruct f2 as [|f2]; [lia|]. simpl.
  destruct p as [|c p]; [done|].
  destruct (_ <? _)%nat; [|done].
  pose proof (lex_step_length env c p lx) as Hstep.
  destruct (lex_step env c p lx) as [q lx']. simpl in *.
  apply IH; lia.
Qed.

Lemma lex_nil env lx : lex env [] lx = Some lx.
Proof. done. Qed.

Lemma lex_cons env c p lx :
  lex env (c :: p) lx
  = if (length (tokens lx) <? MAX_TOKENS - 1)%nat
    then lex env (fst (lex_step env c p lx)) (snd (lex_step env c p lx))
    else Some lx.
Proof.
  unfold lex. cbn [length].
  change (lex_loop (S (S (length p))) env (c :: p) lx)
    with (if (length (tokens lx) <? MAX_TOKENS - 1)%nat
          then let '(q, lx') := lex_step env c p lx in
               lex_loop (S (length p)) env q lx'
          else Some lx).
  destruct (_ <? _)%nat; [|done].
  pose proof (lex_step_length env c p lx) as Hstep.
  destruct (lex_step env c p lx) as [q lx']. cbn [fst snd] in *.
  apply lex_loop_fuel; lia.
Qed.

Lemma tokenize_lex env heap input c p :
  skip_space (c_str input) = c :: p →
  tokenize env heap input = finish <$> lex env (c :: p) (start heap).
Proof. unfold tokenize. by intros ->. Qed.

(** *** The bytes of the current token *)

Lemma holding_put_char st w c lx :
  holding st w lx → (length w < MAX_INPUT_SIZE - 1)%nat →
  holding st (w ++ [c]) (put_char c lx) ∧ tokens (put_char c lx) = tokens lx.
Proof.
  intros (Hst & Hlen & Hpos & Hcur) Hw.
  destruct (put_char_appends c lx) as (H1 & H2 & H3 & H4 & H5);
    [size_lia|done|].
  split; [|done]. split_and!; [congruence|done| |congruence].
  rewrite H2, Hpos, length_app. simpl. lia.
Qed.

Lemma holding_set_state st st' w lx :
  holding st w lx →
  holding st' w (set_state st' lx) ∧ tokens (set_state st' lx) = tokens lx.
Proof. intros (Hst & Hlen & Hpos & Hcur). done. Qed.

Lemma holding_put_chars st w v lx :
  holding st w lx → (length w + length v ≤ MAX_INPUT_SIZE - 1)%nat →
  holding st (w ++ v) (put_chars v lx) ∧ tokens (put_chars v lx) = tokens lx.
Proof.
  revert w lx. induction v as [|c v IH]; intros w lx Hh Hlen.
  - simpl. by rewrite app_nil_r.
  - simpl in *. pose proof Hh as (_ & _ & Hpos & _).
    destruct (Nat.ltb_spec (token_buf_pos lx) 4095); [|size_lia].
    destruct (holding_put_char st w c lx Hh ltac:(size_lia)) as [Hh' Ht'].
    destruct (IH (w ++ [c]) (put_char c lx) Hh') as [Hh'' Ht''].
    { rewrite length_app. simpl. size_lia. }
    rewrite <- app_assoc in Hh''. split; [exact Hh''|congruence].
Qed.

Lemma lex_step_copied env st c p lx :
  state lx = st → copied st c = true →
  lex_step env c p lx = (p, put_char c lx).
Proof.
  intros Hst Hc. unfold lex_step. rewrite Hst.
  destruct st; simpl in Hc; try done.
  - unfold plain_char in Hc.
    repeat (apply andb_true_iff in Hc as [Hc ?]).
    repeat match goal with
           | H : negb _ = true |- _ => apply negb_true_iff in H
           end.
    unfold starts_variable.
    repeat match goal with H : _ = false |- _ => rewrite H end.
    simpl. by destruct (c =? "\").
  - apply negb_true_iff in Hc. by rewrite Hc.
Qed.

(** A run of copied characters. *)
Lemma lex_run env st cs rest w lx :
  Forall (λ c, copied st c = true) cs →
  holding st w lx →
  (length w + length cs ≤ MAX_INPUT_SIZE - 1)%nat →
  (length (tokens lx) < MAX_TOKENS - 1)%nat →
  ∃ lx', lex env (cs ++ rest) lx = lex env rest lx' ∧
         holding st (w ++ cs) lx' ∧ tokens lx' = tokens lx.
Proof.
  intros Hcs. revert w lx.
  induction Hcs as [|c cs Hc _ IH]; intros w lx Hh Hlen Htok.
  - exists lx. by rewrite app_nil_r.
  - simpl in Hlen. cbn [app]. rewrite lex_cons.
    destruct (Nat.ltb_spec (length (tokens lx)) (MAX_TOKENS - 1));
      [|size_lia].
    rewrite (lex_step_copied env st c (cs ++ rest) lx) by (done || apply Hh).
    cbn [fst snd].
    destruct (holding_put_char st w c lx Hh ltac:(size_lia)) as [Hh' Ht'].
    destruct (IH (w ++ [c]) (put_char c lx) Hh') as (lx' & Hlex & Hh'' & Ht'').
    { rewrite length_app. simpl. size_lia. }
    { by rewrite Ht'. }
    exists lx'. rewrite <- app_assoc in Hh''. split; [done|].
    split; [exact Hh''|congruence].
Qed.

(** *** Strings without NUL *)

Lemma until_nul_no_nul l :
  Forall (λ c, (c =? NUL) = false) l → until_nul l = l.
Proof. induction 1 as [|c l Hc _ IH]; simpl; [done|]. by rewrite Hc, IH. Qed.

Lemma no_nul_until_nul l : Forall (λ c, (c =? NUL) = false) (until_nul l).
Proof.
  induction l as [|c l IH]; simpl; [constructor|].
  destruct (c =? NUL) eqn:E; by constructor.
Qed.

Lemma plain_char_spec c :
  plain_char c = true →
  isspace c = false ∧ (c =? "'") = false ∧ (c =? dquote) = false ∧
  (c =? "$") = false ∧ (c =? NUL) = false.
Proof.
  unfold plain_char. intros H.
  repeat (apply andb_true_iff in H as [H ?]).
  repeat match goal with
         | H : negb _ = true |- _ => apply negb_true_iff in H
         end.
  done.
Qed.

Lemma is_name_char_spec c :
  is_name_char c = true →
  isspace c = false ∧ (c =? NUL) = false ∧ (c =? "{") = false.
Proof.
  destruct c as [[] [] [] [] [] [] [] []]; intros H;
    solve [vm_compute in H; discriminate H | repeat split].
Qed.

Lemma render_no_nul env pc :
  valid_piece env pc → Forall (λ c, (c =? NUL) = false) (render pc).
Proof.
  intros [_ Hv]. destruct pc as [w|w|name]; simpl.
  - destruct Hv as [_ Hw]. eapply Forall_impl; [done|].
    intros c Hc. by apply plain_char_spec in Hc as (_ & _ & _ & _ & ?).
  - constructor; [done|]. apply Forall_app. split; [|by repeat constructor].
    eapply Forall_impl; [done|]. intros c Hc.
    unfold quotable_char in Hc. apply andb_true_iff in Hc as [_ Hc].
    by apply negb_true_iff in Hc.
  - constructor; [done|]. destruct Hv as (_ & Hn & _).
    eapply Forall_impl; [done|]. intros c Hc.
    by apply is_name_char_spec in Hc as (_ & ? & _).
Qed.

Lemma value_no_nul env pc :
  valid_piece env pc → until_nul (value env pc) = value env pc.
Proof.
  intros [_ Hv]. apply until_nul_no_nul. destruct pc as [w|w|name]; simpl.
  - destruct Hv as [_ Hw]. eapply Forall_impl; [done|].
    intros c Hc. by apply plain_char_spec in Hc as (_ & _ & _ & _ & ?).
  - eapply Forall_impl; [done|]. intros c Hc.
    unfold quotable_char in Hc. apply andb_true_iff in Hc as [_ Hc].
    by apply negb_true_iff in Hc.
  - unfold expand_variable. destruct name; [constructor|].
    destruct (env _); simpl; [apply no_nul_until_nul|constructor].
Qed.

Lemma render_head env pc :
  valid_piece env pc → ∃ c r, render pc = c :: r ∧ isspace c = false.
Proof.
  intros [_ Hv]. destruct pc as [w|w|name]; simpl.
  - destruct Hv as [Hne Hw]. destruct w as [|c w]; [done|].
    exists c, w. split; [done|].
    apply Forall_cons in Hw as [Hc _].
    by apply plain_char_spec in Hc as (? & _).
  - by eexists _, _.
  - by eexists _, _.
Qed.

(** *** One piece *)

Lemma scan_plain_name name rest acc :
  Forall (λ c, is_name_char c = true) name →
  (length acc + length name ≤ 255)%nat →
  rest = [] ∨ (∃ rest', rest = " " :: rest') →
  scan_plain (name ++ rest) acc = (acc ++ name, rest).
Proof.
  intros Hn. revert acc. induction Hn as [|c name Hc _ IH]; intros acc Hl Hr.
  - simpl in *. rewrite app_nil_r.
    destruct Hr as [->|[rest' ->]]; done.
  - simpl in *. rewrite Hc.
    destruct (Nat.ltb_spec (length acc) 255); [|lia]. simpl.
    rewrite IH; [by rewrite <- app_assoc| |done].
    rewrite length_app. simpl. lia.
Qed.

Lemma scan_variable_name name rest :
  name ≠ [] → Forall (λ c, is_name_char c = true) name →
  (length name ≤ 255)%nat →
  rest = [] ∨ (∃ rest', rest = " " :: rest') →
  scan_variable (name ++ rest) = (name, rest).
Proof.
  intros Hne Hn Hl Hr.
  etrans; [|apply (scan_plain_name name rest []); done].
  destruct name as [|c name]; [done|].
  apply Forall_cons in Hn as [Hc _].
  destruct c as [[] [] [] [] [] [] [] []];
    solve [vm_compute in Hc; discriminate Hc | reflexivity].
Qed.

Lemma lex_piece env pc rest lx :
  valid_piece env pc →
  rest = [] ∨ (∃ rest', rest = " " :: rest') →
  holding STATE_NORMAL [] lx →
  (length (tokens lx) < MAX_TOKENS - 1)%nat →
  ∃ lx', lex env (render pc ++ rest) lx = lex env rest lx' ∧
         holding STATE_NORMAL (value env pc) lx' ∧ tokens lx' = tokens lx.
Proof.
  intros [Hlen Hv] Hrest Hh Htok.
  assert ((length (tokens lx) <? MAX_TOKENS - 1)%nat = true) as Hguard
    by (by apply Nat.ltb_lt).
  destruct pc as [w|w|name]; simpl in Hlen, Hv; cbn [render value].
  - destruct Hv as [_ Hw].
    destruct (lex_run env STATE_NORMAL w rest [] lx) as (lx' & H1 & H2 & H3);
      try done.
    by exists lx'.
  - cbn [app]. rewrite lex_cons, Hguard.
    assert (lex_step env "'" (w ++ ["'"] ++ rest) lx
            = (w ++ ["'"] ++ rest, set_state STATE_SINGLE_QUOTE lx)) as Hopen.
    { unfold lex_step. by destruct Hh as (-> & _). }
    rewrite <- app_assoc. rewrite Hopen. cbn [fst snd].
    destruct (holding_set_state _ STATE_SINGLE_QUOTE _ _ Hh) as [Hh1 Ht1].
    destruct (lex_run env STATE_SINGLE_QUOTE w (["'"] ++ rest) []
                (set_state STATE_SINGLE_QUOTE lx))
      as (lx' & H1 & H2 & H3); try done.
    { eapply Forall_impl; [done|]. intros c Hc. simpl.
      unfold quotable_char in Hc. by apply andb_true_iff in Hc as [Hc _]. }
    rewrite H1. cbn [app]. rewrite lex_cons.
    rewrite H3. cbn [set_state tokens]. rewrite Hguard.
    assert (lex_step env "'" rest lx' = (rest, set_state STATE_NORMAL lx'))
      as Hclose.
    { unfold lex_step. by destruct H2 as (-> & _). }
    rewrite Hclose. cbn [fst snd].
    exists (set_state STATE_NORMAL lx').
    destruct (holding_set_state _ STATE_NORMAL _ _ H2) as [Hh2 Ht2].
    split; [done|]. split; [done|]. by rewrite Ht2, H3.
  - destruct Hv as (Hne & Hn & Hl).
    cbn [app]. rewrite lex_cons, Hguard.
    assert (lex_step env "$" (name ++ rest) lx
            = expand_into env (name ++ rest) lx) as Hstep.
    { unfold lex_step. destruct Hh as (-> & _).
      destruct name as [|c name]; [done|].
      apply Forall_cons in Hn as [Hc _].
      unfold starts_variable. cbn [app]. by rewrite Hc. }
    rewrite Hstep. unfold expand_into.
    rewrite scan_variable_name by done.
    destruct (expand_variable env name) as [v|] eqn:Ev; cbn [fst snd default].
    + destruct (holding_put_chars STATE_NORMAL [] v lx Hh) as [H1 H2];
        [by simpl in *|].
      by exists (put_chars v lx).
    + by exists lx.
Qed.

(** *** Between pieces and at the end of the line *)

Lemma commit_holding w lx :
  holding STATE_NORMAL w lx → w ≠ [] → until_nul w = w →
  (length w ≤ MAX_INPUT_SIZE - 1)%nat →
  holding STATE_NORMAL [] (commit_token lx) ∧
  tokens (commit_token lx) = tokens lx ++ [string_of_list_ascii w].
Proof.
  intros (Hst & Hlen & Hpos & Hcur) Hne Hnul Hw. unfold commit_token.
  split.
  - split_and!; simpl; [done|by rewrite length_insert|done|done].
  - simpl. do 2 f_equal. unfold strdup.
    rewrite until_nul_insert_nul by size_lia.
    unfold current_token in Hcur. by rewrite Hcur, Hnul.
Qed.

Lemma after_token w lx :
  holding STATE_NORMAL w lx → until_nul w = w →
  (length w ≤ MAX_INPUT_SIZE - 1)%nat →
  let lx' := if (0 <? token_buf_pos lx)%nat then commit_token lx else lx in
  holding STATE_NORMAL [] lx' ∧ tokens lx' = tokens lx ++ committed w.
Proof.
  intros Hh Hnul Hw. pose proof Hh as (Hst & Hlen & Hpos & Hcur).
  destruct w as [|c w].
  - simpl in Hpos. rewrite Hpos. simpl. by rewrite app_nil_r.
  - simpl in Hpos. rewrite Hpos. cbn [Nat.ltb Nat.leb].
    by apply commit_holding.
Qed.

Lemma lex_separator env w c0 rest lx :
  holding STATE_NORMAL w lx → until_nul w = w →
  (length w ≤ MAX_INPUT_SIZE - 1)%nat →
  isspace c0 = false →
  (length (tokens lx) < MAX_TOKENS - 1)%nat →
  ∃ lx', lex env (" " :: c0 :: rest) lx = lex env (c0 :: rest) lx' ∧
         holding STATE_NORMAL [] lx' ∧
         tokens lx' = tokens lx ++ committed w.
Proof.
  intros Hh Hnul Hw Hc0 Htok.
  rewrite lex_cons.
  destruct (Nat.ltb_spec (length (tokens lx)) (MAX_TOKENS - 1)); [|size_lia].
  unfold lex_step. destruct Hh as (Hst & Hrest). rewrite Hst.
  cbn [isspace Ascii.eqb orb fst snd skip_space]. simpl isspace.
  cbn [fst snd skip_space]. rewrite Hc0.
  eexists. split; [done|].
  by apply after_token.
Qed.

Lemma finish_holding w lx :
  holding STATE_NORMAL w lx → until_nul w = w →
  (length w ≤ MAX_INPUT_SIZE - 1)%nat →
  finish lx = {| tk_return := Z.of_nat (length (tokens lx ++ committed w));
                 tk_tokens := Some (tokens lx ++ committed w);
                 tk_stderr := None |}.
Proof.
  intros Hh Hnul Hw. unfold finish.
  destruct (after_token w lx Hh Hnul Hw) as [_ Ht].
  destruct Hh as (-> & _). cbn zeta in Ht. by rewrite Ht.
Qed.

Lemma spaced_head env pcs :
  pcs ≠ [] → Forall (valid_piece env) pcs →
  ∃ c r, spaced (map render pcs) = c :: r ∧ isspace c = false.
Proof.
  intros Hne Hv. destruct pcs as [|pc pcs]; [done|].
  apply Forall_cons in Hv as [Hpc _].
  destruct (render_head env pc Hpc) as (c & r & Hr & Hc).
  destruct pcs as [|pc2 pcs].
  - simpl. rewrite Hr. by eexists _, _.
  - change (spaced (map render (pc :: pc2 :: pcs)))
      with (render pc ++ " " :: spaced (map render (pc2 :: pcs))).
    rewrite Hr. by eexists _, _.
Qed.

(** The loop over a whole line of pieces. *)
Lemma lex_pieces env pcs lx :
  pcs ≠ [] → Forall (valid_piece env) pcs →
  holding STATE_NORMAL [] lx →
  (length (tokens lx) + length pcs ≤ MAX_TOKENS - 1)%nat →
  ∃ lxf, lex env (spaced (map render pcs)) lx = Some lxf ∧
         finish lxf
         = {| tk_return :=
                Z.of_nat (length (tokens lx ++ tokens_of env pcs));
              tk_tokens := Some (tokens lx ++ tokens_of env pcs);
              tk_stderr := None |}.
Proof.
  intros Hne Hv. revert lx.
  induction Hv as [|pc pcs Hpc Hpcs IH]; [done|]. intros lx Hh Htok.
  simpl in Htok. pose proof Hpc as [Hlen _].
  destruct pcs as [|pc2 pcs].
  - cbn [map spaced].
    destruct (lex_piece env pc [] lx Hpc ltac:(by left) Hh ltac:(size_lia))
      as (lx' & H1 & H2 & H3).
    rewrite app_nil_r in H1. exists lx'. split; [by rewrite H1|].
    rewrite (finish_holding (value env pc) lx')
      by (done || by apply (value_no_nul env)).
    unfold tokens_of. simpl. by rewrite app_nil_r, H3.
  - change (spaced (map render (pc :: pc2 :: pcs)))
      with (render pc ++ " " :: spaced (map render (pc2 :: pcs))).
    destruct (lex_piece env pc (" " :: spaced (map render (pc2 :: pcs))) lx
                Hpc ltac:(right; by eexists) Hh ltac:(simpl in *; size_lia))
      as (lx' & H1 & H2 & H3).
    rewrite H1.
    destruct (spaced_head env (pc2 :: pcs) ltac:(done) Hpcs)
      as (c0 & r & Hr & Hc0).
    rewrite Hr.
    destruct (lex_separator env (value env pc) c0 r lx' H2)
      as (lx'' & H4 & H5 & H6);
      [by apply (value_no_nul env)|done|done|rewrite H3; simpl in *; size_lia|].
    rewrite H4, <- Hr.
    destruct (IH ltac:(done) lx'' H5) as (lxf & H7 & H8).
    { rewrite H6, H3, length_app.
      assert (length (committed (value env pc)) ≤ 1)%nat
        by (unfold committed; destruct (value env pc); simpl; size_lia).
      simpl in *. size_lia. }
    exists lxf. split; [done|]. rewrite H8, H6, H3.
    unfold tokens_of. cbn [map concat]. by rewrite <- !app_assoc.
Qed.

Lemma c_str_line env pcs :
  Forall (valid_piece env) pcs →
  c_str (line_of pcs) = spaced (map render pcs).
Proof.
  intros Hv. unfold c_str, line_of.
  rewrite list_ascii_of_string_of_list_ascii. apply until_nul_no_nul.
  induction Hv as [|pc pcs Hpc Hpcs IH]; [constructor|].
  destruct pcs as [|pc2 pcs].
  - simpl. by apply (render_no_nul env).
  - change (spaced (map render (pc :: pc2 :: pcs)))
      with (render pc ++ " " :: spaced (map render (pc2 :: pcs))).
    apply Forall_app. split; [by apply (render_no_nul env)|].
    constructor; [done|]. apply IH.
Qed.

Lemma tokenize_pieces env heap pcs :
  length heap = MAX_INPUT_SIZE →
  pcs ≠ [] → (length pcs ≤ MAX_TOKENS - 1)%nat →
  Forall (valid_piece env) pcs →
  tokenize env heap (line_of pcs)
  = Some {| tk_return := Z.of_nat (length (tokens_of env pcs));
            tk_tokens := Some (tokens_of env pcs);
            tk_stderr := None |}.
Proof.
  intros Hheap Hne Hlen Hv.
  destruct (spaced_head env pcs Hne Hv) as (c0 & r & Hr & Hc0).
  rewrite (tokenize_lex env heap _ c0 r).
  2:{ rewrite (c_str_line env) by done. rewrite Hr. simpl. by rewrite Hc0. }
  rewrite <- Hr.
  destruct (lex_pieces env pcs (start heap) Hne Hv) as (lxf & H1 & H2).
  { by split_and!. }
  { simpl. size_lia. }
  rewrite H1. simpl. by rewrite H2.
Qed.

(** X23 (parser.c, tokenize): a line of bare words, words between single
    quotes and references to variables, one space between them, gives one
    token for each piece that stands for at least one character, in order:
    the word itself, the text between the quotes, the value of the
    variable. tokenize returns their number. *)
Theorem tokenize_line_of_pieces (env : environment) (heap : list ascii)
    (pcs : list piece) :
  length heap = MAX_INPUT_SIZE →
  pcs ≠ [] → (length pcs ≤ MAX_TOKENS - 1)%nat →
  Forall (valid_piece env) pcs →
  tokenize env heap (line_of pcs)
  = Some {| tk_return := Z.of_nat (length (tokens_of env pcs));
            tk_tokens := Some (tokens_of env pcs);
            tk_stderr := None |}.
Proof. apply tokenize_pieces. Qed.

Lemma sample_pieces_valid :
  Forall (valid_piece sample_environment) sample_pieces.
Proof.
  unfold sample_pieces.
  constructor; [|constructor; [|constructor; [|constructor]]].
  - split; [vm_compute; lia|]. split; [discriminate|repeat constructor].
  - split; [vm_compute; lia|]. repeat constructor.
  - split; [vm_compute; lia|]. split; [discriminate|].
    split; [repeat constructor|vm_compute; lia].
Qed.

Lemma tokenize_line_of_pieces_witness :
  tokenize sample_environment sample_heap "echo 'a  b > c' $MSG"
  = Some {| tk_return := 3;
            tk_tokens := Some ["echo"; "a  b > c"; "a b|c"]%string;
            tk_stderr := None |}.
Proof.
  apply (tokenize_line_of_pieces sample_environment sample_heap sample_pieces).
  - apply length_replicate.
  - discriminate.
  - vm_compute. lia.
  - apply sample_pieces_valid.
Defined.

(** X24 (parser.c, tokenize): single quotes protect everything. Words
    written between single quotes, one space between them, come back as they
    are, whatever the environment: spaces, operator characters, dollar
    signs, backslashes and double quotes inside them mean nothing. A pair of
    quotes with nothing inside gives no token. *)
Theorem single_quotes_are_literal (env : environment) (heap : list ascii)
    (ws : list (list ascii)) :
  length heap = MAX_INPUT_SIZE →
  ws ≠ [] → (length ws ≤ MAX_TOKENS - 1)%nat →
  Forall (λ w, (length w ≤ MAX_INPUT_SIZE - 1)%nat ∧
               Forall (λ c, quotable_char c = true) w) ws →
  tokenize env heap
    (string_of_list_ascii (spaced (map (λ w, "'" :: w ++ ["'"]) ws)))
  = Some {| tk_return := Z.of_nat (length (concat (map committed ws)));
            tk_tokens := Some (concat (map committed ws));
            tk_stderr := None |}.
Proof.
  intros Hheap Hne Hlen Hws.
  pose proof (tokenize_pieces env heap (map Quoted ws) Hheap) as H.
  unfold line_of, tokens_of in H. rewrite !map_map in H. simpl in H.
  apply H.
  - by destruct ws.
  - by rewrite length_map.
  - apply Forall_fmap. eapply Forall_impl; [done|]. by intros w [H1 H2].
Qed.

Lemma single_quotes_are_literal_witness :
  tokenize no_environment sample_heap "'a | b' '' '$HOME > x'"
  = Some {| tk_return := 2;
            tk_tokens := Some ["a | b"; "$HOME > x"]%string;
            tk_stderr := None |}.
Proof.
  apply (single_quotes_are_literal no_environment sample_heap
           [list_ascii_of_string "a | b"; [];
            list_ascii_of_string "$HOME > x"]).
  - apply length_replicate.
  - discriminate.
  - vm_compute. lia.
  - constructor; [|constructor; [|constructor; [|constructor]]];
      (split; [vm_compute; lia|repeat constructor]).
Defined.

(** X25 (parser.c, tokenize and expand_variable): the value of a variable
    is not split again. A reference to a set variable alone on the line
    gives a single token, the value, with its spaces and operator
    characters; a variable that is unset or empty gives no token at all and
    tokenize returns 0 with an empty array. *)
Theorem expansion_is_not_split (env : environment) (heap : list ascii)
    (name : list ascii) :
  length heap = MAX_INPUT_SIZE →
  name ≠ [] → Forall (λ c, is_name_char c = true) name →
  (length name ≤ 255)%nat →
  (∀ v, env (string_of_list_ascii name) = Some v →
        (length (c_str v) ≤ MAX_INPUT_SIZE - 1)%nat) →
  tokenize env heap (String "$" (string_of_list_ascii name))
  = Some (match env (string_of_list_ascii name) with
          | Some v =>
              {| tk_return := if bool_decide (c_str v = []) then 0 else 1;
                 tk_tokens := Some (committed (c_str v));
                 tk_stderr := None |}
          | None =>
              {| tk_return := 0; tk_tokens := Some []; tk_stderr := None |}
          end).
Proof.
  intros Hheap Hne Hn Hl Hv.
  pose proof (tokenize_pieces env heap [VarRef name] Hheap) as H.
  unfold line_of, tokens_of in H. simpl in H. rewrite app_nil_r in H.
  rewrite H; [|done|lia|].
  - unfold expand_variable. destruct name as [|c0 name]; [done|].
    destruct (env _) as [v|]; simpl; [|done].
    destruct (c_str v); done.
  - constructor; [|constructor]. split; [|done]. simpl.
    unfold expand_variable. destruct name as [|c0 name]; [done|].
    destruct (env _) as [v|] eqn:Ev; simpl; [by apply Hv|lia].
Qed.

Lemma expansion_is_not_split_witness :
  tokenize sample_environment sample_heap "$MSG"
  = Some {| tk_return := 1; tk_tokens := Some ["a b|c"%string];
            tk_stderr := None |}.
Proof.
  apply (expansion_is_not_split sample_environment sample_heap
           (list_ascii_of_string "MSG")).
  - apply length_replicate.
  - discriminate.
  - repeat constructor.
  - vm_compute. lia.
  - intros v Hv. vm_compute in Hv. injection Hv as <-. vm_compute. lia.
Defined.

(** *** Quotes left open *)

Lemma put_char_keeps c lx :
  state (put_char c lx) = state lx ∧ tokens (put_char c lx) = tokens lx.
Proof. unfold put_char. by destruct (_ <? _)%nat. Qed.

Lemma lex_inside_quotes env st cs lx :
  (st = STATE_SINGLE_QUOTE ∧ Forall (λ c, quotable_char c = true) cs) ∨
  (st = STATE_DOUBLE_QUOTE ∧ Forall (λ c, dquotable_char c = true) cs) →
  state lx = st → tokens lx = [] →
  ∃ lx', lex env cs lx = Some lx' ∧ state lx' = st.
Proof.
  intros Hcs. revert lx. induction cs as [|c cs IH]; intros lx Hst Htok.
  { by exists lx. }
  rewrite lex_cons, Htok. cbn [length Nat.ltb Nat.leb MAX_TOKENS Nat.sub].
  assert (lex_step env c cs lx = (cs, put_char c lx)) as ->.
  { unfold lex_step. rewrite Hst.
    destruct Hcs as [[-> Hc]|[-> Hc]]; apply Forall_cons in Hc as [Hc _].
    - unfold quotable_char in Hc. apply andb_true_iff in Hc as [Hc _].
      apply negb_true_iff in Hc. by rewrite Hc.
    - unfold dquotable_char in Hc.
      repeat (apply andb_true_iff in Hc as [Hc ?]).
      repeat match goal with
             | H : negb _ = true |- _ => apply negb_true_iff in H
             end.
      unfold starts_variable.
      repeat match goal with H : _ = false |- _ => rewrite H end.
      done. }
  cbn [fst snd]. destruct (put_char_keeps c lx) as [Hs Ht].
  apply IH; [|congruence..].
  destruct Hcs as [[-> Hc]|[-> Hc]]; apply Forall_cons in Hc as [_ Hc]; auto.
Qed.

(** X26 (parser.c, tokenize): an opening quote that is never closed makes
    tokenize fail: it returns -1, hands back no array and reports the kind
    of quote, whatever the length of the text after the quote. *)
Theorem unterminated_quote_is_an_error (env : environment)
    (heap : list ascii) (s : list ascii) :
  (Forall (λ c, quotable_char c = true) s →
   tokenize env heap (String "'" (string_of_list_ascii s))
   = Some {| tk_return := -1; tk_tokens := None;
             tk_stderr := Some UnterminatedSingle |}) ∧
  (Forall (λ c, dquotable_char c = true) s →
   tokenize env heap (String dquote (string_of_list_ascii s))
   = Some {| tk_return := -1; tk_tokens := None;
             tk_stderr := Some UnterminatedDouble |}).
Proof.
  assert (∀ q st,
    (q =? NUL) = false → isspace q = false →
    Forall (λ c, (c =? NUL) = false) s →
    lex_step env q s (start heap) = (s, set_state st (start heap)) →
    (st = STATE_SINGLE_QUOTE ∧ Forall (λ c, quotable_char c = true) s) ∨
    (st = STATE_DOUBLE_QUOTE ∧ Forall (λ c, dquotable_char c = true) s) →
    ∃ lx', tokenize env heap (String q (string_of_list_ascii s))
           = Some (finish lx') ∧ state lx' = st) as Hgen.
  { intros q st Hq Hsp Hnul Hstep Hcs.
    rewrite (tokenize_lex env heap _ q s).
    2:{ unfold c_str. cbn [list_ascii_of_string until_nul]. rewrite Hq.
        rewrite list_ascii_of_string_of_list_ascii, until_nul_no_nul by done.
        cbn [skip_space]. by rewrite Hsp. }
    rewrite lex_cons. simpl tokens. cbn [length Nat.ltb Nat.leb MAX_TOKENS Nat.sub].
    rewrite Hstep. cbn [fst snd].
    destruct (lex_inside_quotes env st s (set_state st (start heap)) Hcs)
      as (lx' & -> & Hst'); [done..|].
    by exists lx'. }
  split; intros Hs.
  - destruct (Hgen "'" STATE_SINGLE_QUOTE) as (lx' & -> & Hst); try done.
    + eapply Forall_impl; [done|]. intros c Hc. unfold quotable_char in Hc.
      apply andb_true_iff in Hc as [_ Hc]. by apply negb_true_iff in Hc.
    + by left.
    + unfold finish. by rewrite Hst.
  - destruct (Hgen dquote STATE_DOUBLE_QUOTE) as (lx' & -> & Hst); try done.
    + eapply Forall_impl; [done|]. intros c Hc. unfold dquotable_char in Hc.
      apply andb_true_iff in Hc as [_ Hc]. by apply negb_true_iff in Hc.
    + by right.
    + unfold finish. by rewrite Hst.
Qed.

Lemma unterminated_quote_is_an_error_witness :
  tokenize no_environment sample_heap "'a b"
  = Some {| tk_return := -1; tk_tokens := None;
            tk_stderr := Some UnterminatedSingle |}.
Proof.
  destruct (unterminated_quote_is_an_error no_environment sample_heap
              (list_ascii_of_string "a b")) as [Hsingle _].
  apply Hsingle. repeat constructor.
Defined.

(** *** Bounds *)

Lemma until_nul_length l : (length (until_nul l) ≤ length l)%nat.
Proof.
  induction l as [|c l IH]; simpl; [done|].
  destruct (c =? NUL); simpl; lia.
Qed.

Lemma string_of_list_ascii_length l :
  String.length (string_of_list_ascii l) = length l.
Proof. induction l as [|c l IH]; simpl; [done|]. by rewrite IH. Qed.

Lemma lexer_ok_put_char c lx :
  lexer_ok lx → (length (tokens lx) < MAX_TOKENS - 1)%nat →
  lexer_ok (put_char c lx).
Proof.
  intros (Hlen & Hpos & Htok & Hfull & Hshort) Hroom. unfold put_char.
  destruct (Nat.ltb_spec (token_buf_pos lx) (MAX_INPUT_SIZE - 1)); [|done].
  split_and!; simpl; [by rewrite length_insert|size_lia|done| |done].
  intros Hn. size_lia.
Qed.

Lemma lexer_ok_put_chars v lx :
  lexer_ok lx → (length (tokens lx) < MAX_TOKENS - 1)%nat →
  lexer_ok (put_chars v lx).
Proof.
  revert lx. induction v as [|c v IH]; intros lx Hok Hroom; simpl; [done|].
  destruct (_ <? _)%nat; [|done].
  apply IH; [by apply lexer_ok_put_char|].
  by rewrite (proj2 (put_char_keeps c lx)).
Qed.

Lemma lexer_ok_set_state st lx : lexer_ok lx → lexer_ok (set_state st lx).
Proof. done. Qed.

Lemma lexer_ok_commit lx :
  lexer_ok lx → (length (tokens lx) < MAX_TOKENS - 1)%nat →
  lexer_ok (commit_token lx).
Proof.
  intros (Hlen & Hpos & Htok & Hfull & Hshort) Hroom. unfold commit_token.
  split_and!; simpl.
  - by rewrite length_insert.
  - lia.
  - rewrite length_app. simpl. size_lia.
  - done.
  - apply Forall_app. split; [done|]. constructor; [|constructor].
    unfold strdup. rewrite string_of_list_ascii_length.
    rewrite until_nul_insert_nul by size_lia.
    etrans; [apply until_nul_length|]. rewrite length_take. size_lia.
Qed.

Lemma lexer_ok_step env c p lx :
  lexer_ok lx → (length (tokens lx) < MAX_TOKENS - 1)%nat →
  lexer_ok (snd (lex_step env c p lx)).
Proof.
  intros Hok Hroom.
  assert (lexer_ok (snd (expand_into env p lx))) as Hexp.
  { unfold expand_into. destruct (scan_variable p) as [name q].
    destruct (expand_variable env name); simpl; [|done].
    by apply lexer_ok_put_chars. }
  unfold lex_step.
  destruct (state lx);
    repeat match goal with
    | |- context [if ?b then _ else _] => destruct b
    end; cbn [fst snd];
    auto using lexer_ok_put_char, lexer_ok_set_state, lexer_ok_commit.
Qed.

Lemma lexer_ok_loop env fuel p lx lx' :
  lexer_ok lx → lex_loop fuel env p lx = Some lx' → lexer_ok lx'.
Proof.
  revert p lx. induction fuel as [|fuel IH]; intros p lx Hok H; [done|].
  simpl in H. destruct p as [|c p]; [by simplify_eq|].
  destruct (Nat.ltb_spec (length (tokens lx)) 127) as [Hroom|];
    [|by simplify_eq].
  pose proof (lexer_ok_step env c p lx Hok Hroom) as Hstep.
  destruct (lex_step env c p lx) as [q lx1]. simpl in Hstep.
  by eapply IH.
Qed.

(** X27 (parser.c, tokenize): whatever the line, tokenize returns, and what
    it returns fits the arrays it fills: at most MAX_TOKENS - 1 tokens, so
    that the terminating NULL has a slot, each of at most
    MAX_INPUT_SIZE - 1 bytes, and the value returned is -1 or the number
    of tokens. *)
Theorem tokenize_stays_in_bounds (env : environment) (heap : list ascii)
    (input : string) :
  length heap = MAX_INPUT_SIZE →
  ∃ r, tokenize env heap input = Some r ∧
       (-1 ≤ tk_return r ≤ Z.of_nat (MAX_TOKENS - 1))%Z ∧
       ∀ toks, tk_tokens r = Some toks →
               tk_return r = Z.of_nat (length toks) ∧
               (length toks ≤ MAX_TOKENS - 1)%nat ∧
               Forall (λ t, (String.length t ≤ MAX_INPUT_SIZE - 1)%nat) toks.
Proof.
  intros Hheap. unfold tokenize.
  destruct (skip_space (c_str input)) as [|c p] eqn:Ep.
  { eexists. split; [done|]. simpl. split; [size_lia|done]. }
  destruct (lex_loop_defined (S (length (c :: p))) env (c :: p) (start heap))
    as [lx Hlx]; [size_lia|].
  unfold start in Hlx. rewrite Hlx. simpl fmap.
  exists (finish lx). split; [done|].
  assert (lexer_ok lx) as Hok.
  { eapply lexer_ok_loop; [|done].
    split_and!; simpl; [done|size_lia|size_lia|done|constructor]. }
  unfold finish. destruct (state lx); simpl; try (split; [size_lia|done]).
  assert (lexer_ok (if (0 <? token_buf_pos lx)%nat
                    then commit_token lx else lx)) as Hok'.
  { destruct (Nat.ltb_spec 0 (token_buf_pos lx)); [|done].
    apply lexer_ok_commit; [done|].
    destruct Hok as (_ & _ & Htok & Hfull & _).
    destruct (decide (length (tokens lx) = MAX_TOKENS - 1)%nat) as [E|E];
      [specialize (Hfull E)|]; size_lia. }
  destruct Hok' as (_ & _ & Htok & _ & Hshort).
  split; [size_lia|]. intros toks [= <-]. done.
Qed.

Lemma tokenize_stays_in_bounds_witness :
  ∃ r, tokenize no_environment sample_heap "echo 'a b' c" = Some r ∧
       (-1 ≤ tk_return r ≤ Z.of_nat (MAX_TOKENS - 1))%Z.
Proof.
  destruct (tokenize_stays_in_bounds no_environment sample_heap
              "echo 'a b' c") as (r & Hr & Hb & _).
  - apply length_replicate.
  - by exists r.
Defined.

End LexingFacts.

(** * Facts about the executor on all its paths *)

Module ExecutorPaths.
Import Jobs Parser Executor Executor.Wait ExecutorNotions.
Import JobsFacts ExecutorFacts.


(** What add_job leaves behind when the copy of the command succeeds. *)
Lemma add_job_keeps_count pg cmd st s r s' :
  table_ok s → counted s →
  add_job pg cmd st true s = Some (r, s') →
  table_ok s' ∧ counted s'.
Proof.
  intros Ht Hc H.
  destruct (decide (next_job_id s < INT_MAX)) as [Hn|Hn].
  - destruct (add_job_counted pg cmd st s Ht Hc Hn) as (r' & s'' & E & ? & ?).
    rewrite E in H. by simplify_eq.
  - unfold add_job in H. case_decide; [by simplify_eq|].
    destruct (first_slot _ _); [|by simplify_eq].
    unfold int_incr in H.
    destruct (decide (next_job_id s < INT_MAX)); [done|by simpl in H].
Qed.

(** *** The command string and the MAX_INPUT_SIZE bytes of cmd_str *)

Lemma strcat_fits cmd_str s r :
  strcat cmd_str s = Some r → (String.length r < MAX_INPUT_SIZE)%nat.
Proof.
  unfold strcat. cbv zeta.
  destruct (Nat.ltb_spec
              (String.length (cmd_str ++ strdup (list_ascii_of_string s)))
              MAX_INPUT_SIZE); [|done].
  by intros [= <-].
Qed.

Lemma strcat_args_fits args : ∀ j cmd_str r,
  (String.length cmd_str < MAX_INPUT_SIZE)%nat →
  strcat_args j args cmd_str = Some r →
  (String.length r < MAX_INPUT_SIZE)%nat.
Proof.
  induction args as [|a args IH]; intros j cmd_str r Hlen H; simpl in H.
  { by simplify_eq. }
  destruct (if (0 <? j)%nat then strcat cmd_str " " else Some cmd_str)
    as [s1|] eqn:E1; [|done].
  simpl in H. destruct (strcat s1 a) as [s2|] eqn:E2; [|done].
  simpl in H. apply (IH _ _ _ (strcat_fits _ _ _ E2) H).
Qed.

Lemma strcat_commands_fits cmds : ∀ i cmd_str r,
  (String.length cmd_str < MAX_INPUT_SIZE)%nat →
  strcat_commands i cmds cmd_str = Some r →
  (String.length r < MAX_INPUT_SIZE)%nat.
Proof.
  induction cmds as [|c cmds IH]; intros i cmd_str r Hlen H; simpl in H.
  { by simplify_eq. }
  destruct (if (0 <? i)%nat then strcat cmd_str " | " else Some cmd_str)
    as [s1|] eqn:E1; [|done].
  simpl in H. destruct (argv c) as [args|]; [|done].
  simpl in H. destruct (strcat_args 0 args s1) as [s2|] eqn:E2; [|done].
  simpl in H. apply (IH _ _ _) in H; [done|].
  apply (strcat_args_fits _ _ _ _) in E2; [done|].
  destruct (0 <? i)%nat; [by apply strcat_fits in E1|by simplify_eq].
Qed.

(** The strings the executor hands to add_job, when the model gives one,
    are within the array. *)
Lemma command_string_fits args r :
  command_string args = Some r → (String.length r < MAX_INPUT_SIZE)%nat.
Proof.
  apply strcat_args_fits. unfold MAX_INPUT_SIZE. simpl. lia.
Qed.

Lemma pipeline_string_fits cmds r :
  pipeline_string cmds = Some r → (String.length r < MAX_INPUT_SIZE)%nat.
Proof.
  apply strcat_commands_fits. unfold MAX_INPUT_SIZE. simpl. lia.
Qed.

(** Two arguments of 2500 bytes each do not fit: the model gives no
    string, as the program writes past the end of cmd_str. *)
Lemma command_string_overflow :
  let a := string_of_list_ascii (repeat "a"%char 2500) in
  command_string [a; a] = None ∧
  pipeline_string [sample_command a; sample_command a] = None.
Proof. cbv zeta. split; vm_compute; reflexivity. Qed.



Lemma execute_command_keeps_count eb os cmd js r js' :
  keeps_count eb → table_ok js → counted js → co_strdup_ok os = true →
  execute_command eb os cmd js = Some (r, js') →
  table_ok js' ∧ counted js'.
Proof.
  intros Heb Ht Hc Hok. unfold execute_command. rewrite Hok.
  destruct (argv cmd) as [[|prog args]|];
    [by intros; simplify_eq| |by intros; simplify_eq].
  intros H.
  repeat match type of H with
         | (if ?b then Some _ else _) = _ =>
             destruct b; [by simplify_eq|]
         end.
  destruct (is_builtin prog).
  { pose proof (Heb (prog :: args) js Ht Hc) as Hb.
    destruct (eb (prog :: args) js) as [st t]. by simplify_eq. }
  repeat match type of H with
         | (if ?b then Some _ else _) = _ =>
             destruct b; [by simplify_eq|]
         end.
  destruct (negb (background cmd =? 0)).
  { destruct (command_string _) as [cmd_str|]; [|done]. simpl in H.
    destruct (add_job _ _ _ _ _) as [[v t]|] eqn:E; [|done].
    simpl in H. simplify_eq. by eapply add_job_keeps_count. }
  destruct (co_waitpid os) as [ret child_status].
  destruct (ret =? -1); [by simplify_eq|].
  destruct (decode_status (-1) child_status) as [st stopped].
  destruct stopped; [|by simplify_eq].
  destruct (command_string _) as [cmd_str|]; [|done]. simpl in H.
  destruct (add_job _ _ _ _ _) as [[v t]|] eqn:E; [|done].
  simpl in H. simplify_eq. by eapply add_job_keeps_count.
Qed.

(** X29 (executor.c, execute_command and execute_pipeline, with add_job of
    jobs.c): in a run without undefined behaviour (a command string built
    for the job table fits the MAX_INPUT_SIZE bytes of cmd_str), and as long
    as the copy of that string succeeds, running a command or a pipeline
    keeps the job table sound on every path, failures included: the table
    has MAX_JOBS slots and num_jobs counts the slots in use. The builtin
    that runs in the shell is supposed to do the same. *)
Theorem executor_keeps_job_count
    (eb : list string → job_state → Z * job_state) :
  keeps_count eb →
  (∀ os cmd js r js',
     table_ok js → counted js → co_strdup_ok os = true →
     execute_command eb os cmd js = Some (r, js') →
     table_ok js' ∧ counted js') ∧
  (∀ os p js r js',
     table_ok js → counted js →
     po_strdup_ok os = true → co_strdup_ok (po_single os) = true →
     execute_pipeline eb os p js = Some (r, js') →
     table_ok js' ∧ counted js').
Proof.
  intros Heb. split.
  { intros. by eapply execute_command_keeps_count. }
  intros os p js r js' Ht Hc Hok Hok1. unfold execute_pipeline. rewrite Hok.
  destruct (num_commands p =? 0); [by intros; simplify_eq|].
  destruct (num_commands p =? 1).
  { destruct (commands p) as [|c cs]; [done|].
    by apply execute_command_keeps_count. }
  intros H.
  repeat match type of H with
         | (if ?b then Some _ else _) = _ =>
             destruct b; [by simplify_eq|]
         end.
  destruct (fork_loop _ _ _ _) as [pids| |]; [|by simplify_eq..].
  destruct (negb (pl_background p =? 0)).
  { destruct (pipeline_string _) as [cmd_str|]; [|done]. simpl in H.
    destruct (add_job _ _ _ _ _) as [[v t]|] eqn:E; [|done].
    simpl in H. simplify_eq. by eapply add_job_keeps_count. }
  destruct (po_wait_last os) as [waited status].
  destruct (if waited =? _ then _ else _) as [st stopped].
  destruct stopped; [|by simplify_eq].
  destruct (pipeline_string _) as [cmd_str|]; [|done]. simpl in H.
  destruct (add_job _ _ _ _ _) as [[v t]|] eqn:E; [|done].
  simpl in H. simplify_eq. by eapply add_job_keeps_count.
Qed.

Lemma no_builtin_keeps_count : keeps_count no_builtin.
Proof. by intros args s Ht Hc. Qed.

Lemma executor_keeps_job_count_witness :
  ∃ r js', execute_pipeline no_builtin (sample_os 4991)
             sample_pipeline init_jobs = Some (r, js') ∧
           table_ok js' ∧ counted js' ∧ used_slots js' = 1%nat.
Proof.
  destruct (execute_pipeline no_builtin (sample_os 4991) sample_pipeline
              init_jobs) as [[r js']|] eqn:E;
    [|vm_compute in E; discriminate].
  exists r, js'. split; [done|].
  destruct (executor_keeps_job_count no_builtin no_builtin_keeps_count)
    as [_ Hp].
  destruct (Hp (sample_os 4991) sample_pipeline init_jobs r js') as [Ht Hc].
  - apply init_jobs_ok.
  - apply init_jobs_ok.
  - reflexivity.
  - reflexivity.
  - exact E.
  - split; [done|]. split; [done|].
    vm_compute in E. injection E as _ <-. vm_compute. reflexivity.
Defined.

(** X30 (executor.c, execute_pipeline and execute_command): a pipeline or
    an external command sent to the background is not waited for. The call
    returns the same whatever the children do afterwards; the value it
    returns is 0 or the -1 (for a command also the 1) of a step that failed;
    and once the children are forked and the command string fits the
    MAX_INPUT_SIZE bytes of cmd_str, the call returns 0 with the job table
    add_job leaves, also when the table is full or the copy of the string
    fails and add_job records nothing. *)
Theorem background_does_not_wait
    (eb : list string → job_state → Z * job_state) :
  (∀ os p js w others,
     2 ≤ num_commands p → pl_background p ≠ 0 →
     execute_pipeline eb (with_last_wait w (with_other_statuses others os))
       p js
     = execute_pipeline eb os p js ∧
     (∀ v js', execute_pipeline eb os p js = Some (Returned v, js') →
               v = 0 ∨ v = -1) ∧
     (well_formed p → children_forked os p →
      ∀ cmd_str r js',
        pipeline_string (commands p) = Some cmd_str →
        add_job (po_fork os 0) cmd_str JOB_RUNNING (po_strdup_ok os) js
        = Some (r, js') →
        execute_pipeline eb os p js = Some (Returned 0, js'))) ∧
  (∀ os cmd js w prog args,
     argv cmd = Some (prog :: args) → is_builtin prog = false →
     background cmd ≠ 0 →
     execute_command eb (with_command_wait w os) cmd js
     = execute_command eb os cmd js ∧
     (∀ v js', execute_command eb os cmd js = Some (Returned v, js') →
               v = 0 ∨ v = -1 ∨ v = 1) ∧
     (co_dup_stdin os ≠ -1 → co_dup_stdout os ≠ -1 →
      (is_Some (input_file cmd) →
       co_open_input os ≠ -1 ∧ co_dup2_input os ≠ -1) →
      (is_Some (output_file cmd) →
       co_open_output os ≠ -1 ∧ co_dup2_output os ≠ -1) →
      0 < co_fork os →
      ∀ cmd_str r js',
        command_string (prog :: args) = Some cmd_str →
        add_job (if co_getpgid os =? -1 then co_fork os else co_getpgid os)
          cmd_str JOB_RUNNING (co_strdup_ok os) js
        = Some (r, js') →
        execute_command eb os cmd js = Some (Returned 0, js'))).
Proof.
  split.
  - intros os p js w others Hn Hbg.
    apply Z.eqb_neq in Hbg. split_and!.
    + unfold execute_pipeline. cbn [with_last_wait with_other_statuses
        po_malloc_pipes po_pipe po_dup_stdin po_dup_stdout po_malloc_pids
        po_fork po_wait_last po_wait_other po_strdup_ok po_single].
      destruct (Z.eqb_spec (num_commands p) 0); [lia|].
      destruct (Z.eqb_spec (num_commands p) 1); [lia|].
      assert (∀ i count pids,
        fork_loop (with_last_wait w (with_other_statuses others os))
          i count pids
        = fork_loop os i count pids) as Hfork.
      { intros i count. revert i.
        induction count as [|count IH]; intros i pids; simpl; [done|].
        by rewrite IH. }
      assert (∀ k, pipes_created
                     (with_last_wait w (with_other_statuses others os)) k
                   = pipes_created os k) as Hpipes by done.
      by rewrite Hfork, Hpipes, Hbg.
    + unfold execute_pipeline.
      destruct (Z.eqb_spec (num_commands p) 0); [lia|].
      destruct (Z.eqb_spec (num_commands p) 1); [lia|].
      rewrite Hbg. simpl negb.
      intros v js' H.
      repeat match type of H with
             | (if ?b then Some _ else _) = _ =>
                 destruct b; [simplify_eq; by right|]
             end.
      destruct (fork_loop _ _ _ _) as [pids| |];
        [|simplify_eq; by right|done].
      destruct (pipeline_string _) as [cmd_str|]; [|done]. simpl in H.
      destruct (add_job _ _ _ _ _) as [[r t]|]; [|done].
      simpl in H. simplify_eq. by left.
    + intros Hwf Hforked cmd_str r js' Hstr Hadd.
      destruct (commands p) as [|c1 [|c2 cs]] eqn:Hcs.
      * unfold children_forked in Hforked. by rewrite Hcs in Hforked.
      * unfold well_formed in Hwf. rewrite Hcs in Hwf. simpl in Hwf. lia.
      * rewrite (execute_pipeline_forked eb os p js c1 c2 cs) by done.
        rewrite Hbg, Hcs, Hstr. simpl. by rewrite Hadd.
  - intros os cmd js w prog args Hargv Hnb Hbg.
    apply Z.eqb_neq in Hbg. split_and!.
    + unfold execute_command. rewrite Hargv, Hnb, Hbg.
      by cbn [with_command_wait co_dup_stdin co_dup_stdout co_open_input
        co_dup2_input co_open_output co_dup2_output co_fork co_getpgid
        co_waitpid co_strdup_ok].
    + unfold execute_command. rewrite Hargv, Hnb, Hbg. simpl negb.
      intros v js' H.
      repeat match type of H with
             | (if ?b then Some _ else _) = _ =>
                 destruct b; [simplify_eq; by auto|]
             end.
      destruct (command_string _) as [cmd_str|]; [|done]. simpl in H.
      destruct (add_job _ _ _ _ _) as [[r t]|]; [|done].
      simpl in H. simplify_eq. by left.
    + intros Hin Hout Hif Hof Hfork cmd_str r js' Hstr Hadd.
      rewrite (execute_command_forked eb os cmd js prog args) by done.
      rewrite Hbg, Hstr. simpl. by rewrite Hadd.
Qed.

Lemma background_does_not_wait_witness :
  execute_pipeline no_builtin
    (with_last_wait (-1, 0) (with_other_statuses (λ _, (-1, 0)) (sample_os 0)))
    sample_background_pipeline init_jobs
  = execute_pipeline no_builtin (sample_os 0) sample_background_pipeline
      init_jobs ∧
  ∃ js', execute_pipeline no_builtin (sample_os 0) sample_background_pipeline
           init_jobs = Some (Returned 0, js') ∧
         (command <$> job_table js' !! 0%nat) = Some (Some "ls | wc"%string).
Proof.
  destruct (background_does_not_wait no_builtin) as [Hp _].
  destruct (Hp (sample_os 0) sample_background_pipeline init_jobs (-1, 0)
              (λ _, (-1, 0))) as (Hsame & _ & Hzero).
  - vm_compute. discriminate.
  - vm_compute. discriminate.
  - split; [exact Hsame|].
    destruct (add_job 500 "ls | wc" JOB_RUNNING true init_jobs)
      as [[r js']|] eqn:Hadd; [|vm_compute in Hadd; discriminate].
    exists js'. split.
    + apply (Hzero ltac:(reflexivity)) with (cmd_str := "ls | wc"%string)
                                            (r := r).
      * simpl. split_and!; try done; intros; simpl; lia.
      * vm_compute. reflexivity.
      * exact Hadd.
    + vm_compute in Hadd. injection Hadd as _ <-. vm_compute. reflexivity.
Defined.

End ExecutorPaths.
